(** * libtiled property types: a shallow embedding of src/libtiled/propertytype.cpp

    The file follows the C++ source top to bottom: the value container
    ([QVariant]), the base class [PropertyType], [EnumPropertyType],
    [ClassPropertyType] and the registry [PropertyTypes].  The definitions come
    first, the theorems about them afterwards. *)

From Stdlib Require Import ZArith List String Ascii Lia Bool DecimalString.
From stdpp Require Import base option list numbers strings relations.
Import ListNotations.

Set Warnings "-register-all".

(** ** The C++ [int]

    Indices, ids, flag masks and the id counter are [int]s.  They are modelled
    as [Z] with the 32-bit two's-complement wrap-around written out where the
    source can leave the range: the shift [1 << i] and the increment of the id
    counter.  Where C++ leaves the result of such an operation undefined (a
    shift by 32 or more, an increment at [INT_MAX]), the model follows what
    the two's-complement machines the program is built for compute: the shift
    count is taken modulo 32 and the increment wraps around. *)

Definition int_min : Z := (- 2 ^ 31)%Z.
Definition int_max : Z := (2 ^ 31 - 1)%Z.

Definition in_int (z : Z) : Prop := (int_min <= z <= int_max)%Z.

Definition wrap_int (z : Z) : Z := ((z + 2 ^ 31) mod 2 ^ 32 - 2 ^ 31)%Z.

(** [1 << i] on [int]s: [2^i] below bit 31, [INT_MIN] at bit 31.  The language
    defines the shift for [0 <= i < 32] only; from 32 on the count is taken
    modulo 32, as the shift instruction does ([1 << 32] is [1]). *)
Definition shl1 (i : Z) : Z := wrap_int (Z.shiftl 1 (i mod 32)).

(** ** QString helpers (Qt) *)

Definition comma : ascii := ","%char.

Definition QString_isEmpty (s : string) : bool :=
  match s with EmptyString => true | String _ _ => false end.

(** [QString::split(',', Qt::KeepEmptyParts)]: the maximal comma-free pieces,
    in order. *)
Fixpoint split_keep (s : string) : list string :=
  match s with
  | EmptyString => [EmptyString]
  | String c s' =>
      if Ascii.eqb c comma then EmptyString :: split_keep s'
      else match split_keep s' with
           | [] => [String c EmptyString]
           | seg :: rest => String c seg :: rest
           end
  end.

(** [QString::split(',', Qt::SkipEmptyParts)]. *)
Definition split_skip (s : string) : list string :=
  List.filter (fun seg => negb (QString_isEmpty seg)) (split_keep s).

(** The position of the first element of [l] equal to [s], counted from [i];
    [-1] when there is none. *)
Fixpoint indexOf_from (l : list string) (s : string) (i : Z) : Z :=
  match l with
  | [] => (-1)%Z
  | x :: rest => if String.eqb x s then i else indexOf_from rest s (i + 1)%Z
  end.

(** [QStringList::indexOf] (Qt). *)
Definition QStringList_indexOf (l : list string) (s : string) : Z := indexOf_from l s 0%Z.

(** Modelled from the spec: the helper [indexOf] of containerhelpers.h is not
    among the sources.  The spec has the import "look up each segment's index
    in values" and treat a segment as "not found" when it is not there; the
    source compares the result with [-1]. *)
Definition indexOf (l : list string) (s : string) : Z := indexOf_from l s 0%Z.

(** [QString::number(int)]. *)
Definition QString_number (n : Z) : string := NilZero.string_of_int (Z.to_int n).

Definition to_lower (c : ascii) : ascii :=
  let n := nat_of_ascii c in
  if (65 <=? n)%nat && (n <=? 90)%nat then ascii_of_nat (n + 32) else c.

Fixpoint QString_toLower (s : string) : string :=
  match s with
  | EmptyString => EmptyString
  | String c s' => String (to_lower c) (QString_toLower s')
  end.

(** ** QVariant

    The generic value container: null, bool, int, string, list, string-keyed
    map (a [QMap], kept as an association list in key order) and the wrapped
    typed value [PropertyValue { value, typeId }]. *)

Inductive QVariant : Type :=
| Invalid
| VBool (b : bool)
| VInt (n : Z)
| VString (s : string)
| VList (l : list QVariant)
| VMap (m : list (string * QVariant))
| VPropertyValue (value : QVariant) (typeId : Z).

Abbreviation QVariantMap := (list (string * QVariant)).
Abbreviation QVariantList := (list QVariant).

(** [QVariant::userType()], as far as the source tests it. *)
Inductive MetaType : Type :=
| UnknownType | MBool | MInt | MQString | MQVariantList | MQVariantMap
| MPropertyValue.

Definition MetaType_eqb (a b : MetaType) : bool :=
  match a, b with
  | UnknownType, UnknownType | MBool, MBool | MInt, MInt
  | MQString, MQString | MQVariantList, MQVariantList
  | MQVariantMap, MQVariantMap | MPropertyValue, MPropertyValue => true
  | _, _ => false
  end.

Definition userType (v : QVariant) : MetaType :=
  match v with
  | Invalid => UnknownType
  | VBool _ => MBool
  | VInt _ => MInt
  | VString _ => MQString
  | VList _ => MQVariantList
  | VMap _ => MQVariantMap
  | VPropertyValue _ _ => MPropertyValue
  end.

Definition propertyValueId : MetaType := MPropertyValue.

Definition isValid (v : QVariant) : bool :=
  match v with Invalid => false | _ => true end.

(** [QMap::value(key)]: the stored value, a default-constructed (invalid)
    QVariant when the key is absent. *)
Fixpoint QMap_value (m : QVariantMap) (key : string) : QVariant :=
  match m with
  | [] => Invalid
  | (k, v) :: rest => if String.eqb k key then v else QMap_value rest key
  end.

Fixpoint QMap_contains (m : QVariantMap) (key : string) : bool :=
  match m with
  | [] => false
  | (k, _) :: rest => String.eqb k key || QMap_contains rest key
  end.

(** [QMap::value(key, defaultValue)]. *)
Definition QMap_value_or (m : QVariantMap) (key : string) (d : QVariant) : QVariant :=
  if QMap_contains m key then QMap_value m key else d.

(** [QMap::insert]: keys stay sorted and unique, an existing key is
    overwritten. *)
Fixpoint QMap_insert (m : QVariantMap) (key : string) (v : QVariant) : QVariantMap :=
  match m with
  | [] => [(key, v)]
  | (k, w) :: rest =>
      if String.eqb k key then (key, v) :: rest
      else if String.ltb key k then (key, v) :: (k, w) :: rest
      else (k, w) :: QMap_insert rest key v
  end.

Definition QMap_keys (m : QVariantMap) : list string := List.map fst m.

(** The QVariant conversions the source calls. *)

Definition toMap (v : QVariant) : QVariantMap :=
  match v with VMap m => m | _ => [] end.

Definition toList (v : QVariant) : QVariantList :=
  match v with VList l => l | _ => [] end.

Definition toString (v : QVariant) : string :=
  match v with
  | VString s => s
  | VInt n => QString_number n
  | VBool true => "true"%string
  | VBool false => "false"%string
  | _ => EmptyString
  end.

Definition toStringList (v : QVariant) : list string :=
  match v with
  | VList l => List.map toString l
  | VString s => [s]
  | _ => []
  end.

Definition toBool (v : QVariant) : bool :=
  match v with
  | VBool b => b
  | VInt n => negb (n =? 0)%Z
  | VString s =>
      let l := QString_toLower s in
      negb (QString_isEmpty l || String.eqb l "0" || String.eqb l "false")
  | _ => false
  end.

(** The nesting depth of a value: the measure along which the conversions of
    class values recurse. *)
Fixpoint depth (v : QVariant) : nat :=
  match v with
  | VList l => S (List.fold_right (fun x acc => Nat.max (depth x) acc) 0 l)
  | VMap m => S (List.fold_right (fun kv acc => Nat.max (depth (snd kv)) acc) 0 m)
  | VPropertyValue value _ => S (depth value)
  | _ => 0
  end.

(** ** ExportValue *)

Record ExportValue : Type := mkExportValue {
  ev_value : QVariant;
  ev_typeName : string;
  ev_propertyTypeName : string
}.

(** ** PropertyType *)

Inductive Type_ : Type := PT_Invalid | PT_Class | PT_Enum.

Inductive StorageType : Type := IntValue | StringValue.

(** The fields of the base class, shared by both subclasses. *)
Record PropertyTypeBase : Type := mkBase {
  id : Z;
  name : string
}.

Record EnumPropertyType : Type := mkEnum {
  enum_base : PropertyTypeBase;
  storageType : StorageType;
  values : list string;
  valuesAsFlags : bool
}.

Record ClassPropertyType : Type := mkClass {
  class_base : PropertyTypeBase;
  members : QVariantMap
}.

(** What a [PropertyType *] points to. *)
Inductive PropertyType : Type :=
| Enum (e : EnumPropertyType)
| Class (c : ClassPropertyType).

Definition base (t : PropertyType) : PropertyTypeBase :=
  match t with Enum e => enum_base e | Class c => class_base c end.

Definition type (t : PropertyType) : Type_ :=
  match t with Enum _ => PT_Enum | Class _ => PT_Class end.

Definition Type_eqb (a b : Type_) : bool :=
  match a, b with
  | PT_Invalid, PT_Invalid | PT_Class, PT_Class | PT_Enum, PT_Enum => true
  | _, _ => false
  end.

(** The registry's [mTypes]: a vector of pointers.  A [PropertyType *] into the
    registry is modelled as the position it points to. *)
Abbreviation PropertyTypes := (list PropertyType).

(** ** The ExportContext collaborator

    An [ExportContext] holds a reference to the registry and a path.  Its
    conversions are defined in properties.cpp; propertytype.cpp only calls
    them.  They and Qt's [QString::toInt] are the variables of the section
    below, so that every theorem says which behaviour of the host it relies
    on. *)

Record ExportContext : Type := mkExportContext {
  ctx_types : PropertyTypes;
  ctx_path : string
}.

(** [PropertyType::wrap] *)
Definition PropertyType_wrap (this : PropertyTypeBase) (value : QVariant) : QVariant :=
  VPropertyValue value (id this).

Section Methods.

(** [QString::toInt] (Qt). *)
Variable QString_toInt : string -> Z.
(** [ExportContext::toExportValue(const QVariant &)] *)
Variable ExportContext_toExportValue : ExportContext -> QVariant -> ExportValue.
(** [ExportContext::toPropertyValue(const QVariant &, int metaType)] *)
Variable ExportContext_toPropertyValue : ExportContext -> QVariant -> MetaType -> QVariant.
(** [ExportContext::toPropertyValue(const ExportValue &)] *)
Variable ExportContext_toPropertyValue_export : ExportContext -> ExportValue -> QVariant.

(** [QVariant::toInt] *)
Definition toInt (v : QVariant) : Z :=
  match v with
  | VInt n => n
  | VBool true => 1%Z
  | VString s => QString_toInt s
  | _ => 0%Z
  end.

(** [PropertyType::toExportValue] *)
Definition PropertyType_toExportValue (this : PropertyTypeBase) (value : QVariant)
    (context : ExportContext) : ExportValue :=
  let result := ExportContext_toExportValue context value in
  mkExportValue (ev_value result) (ev_typeName result) (name this).

(** [PropertyType::toPropertyValue] *)
Definition PropertyType_toPropertyValue (this : PropertyTypeBase) (value : QVariant) : QVariant :=
  PropertyType_wrap this value.

(** [PropertyType::typeFromString] *)
Definition typeFromString (s : string) : Type_ :=
  if String.eqb s "enum" || QString_isEmpty s then PT_Enum
  else if String.eqb s "class" then PT_Class
  else PT_Invalid.

(** [PropertyType::typeToString] *)
Definition typeToString (t : Type_) : string :=
  match t with
  | PT_Class => "class"%string
  | PT_Enum => "enum"%string
  | PT_Invalid => "invalid"%string
  end.

(** ** EnumPropertyType *)

(** The loop of [EnumPropertyType::toExportValue]: [rest] is [values] from
    position [i] on, [stringValue] the string built so far. *)
Fixpoint flags_to_string (intValue : Z) (rest : list string) (i : Z)
    (stringValue : string) : string :=
  match rest with
  | [] => stringValue
  | v :: rest' =>
      let stringValue' :=
        if (Z.land intValue (shl1 i) =? 0)%Z then stringValue
        else
          String.append
            (if QString_isEmpty stringValue then stringValue
             else String.append stringValue (String comma EmptyString))
            v in
      flags_to_string intValue rest' (i + 1)%Z stringValue'
  end.

(** [EnumPropertyType::toExportValue] *)
Definition EnumPropertyType_toExportValue (this : EnumPropertyType) (value : QVariant)
    (context : ExportContext) : ExportValue :=
  match value, storageType this with
  | VInt intValue, StringValue =>
      if valuesAsFlags this then
        PropertyType_toExportValue (enum_base this)
          (VString (flags_to_string intValue (values this) 0%Z EmptyString)) context
      else if (0 <=? intValue)%Z && (intValue <? Z.of_nat (length (values this)))%Z then
        PropertyType_toExportValue (enum_base this)
          (VString (nth (Z.to_nat intValue) (values this) EmptyString)) context
      else PropertyType_toExportValue (enum_base this) value context
  | _, _ => PropertyType_toExportValue (enum_base this) value context
  end.

(** The loop of [EnumPropertyType::toPropertyValue] over the split string:
    [None] is the early return at an unrecognised name. *)
Fixpoint flags_from_strings (vals : list string) (stringValues : list string)
    (flags : Z) : option Z :=
  match stringValues with
  | [] => Some flags
  | stringValue :: rest =>
      let index := indexOf vals stringValue in
      if (index =? -1)%Z then None
      else flags_from_strings vals rest (Z.lor flags (shl1 index))
  end.

(** [EnumPropertyType::toPropertyValue] *)
Definition EnumPropertyType_toPropertyValue (this : EnumPropertyType) (value : QVariant)
    : QVariant :=
  match value with
  | VString stringValue =>
      if valuesAsFlags this then
        match flags_from_strings (values this) (split_skip stringValue) 0%Z with
        | None => PropertyType_wrap (enum_base this) value
        | Some flags => PropertyType_wrap (enum_base this) (VInt flags)
        end
      else
        let index := QStringList_indexOf (values this) stringValue in
        if negb (index =? -1)%Z then PropertyType_wrap (enum_base this) (VInt index)
        else PropertyType_wrap (enum_base this) value
  | _ => PropertyType_wrap (enum_base this) value
  end.

(** [EnumPropertyType::defaultValue] *)
Definition EnumPropertyType_defaultValue : QVariant := VInt 0.

(** [EnumPropertyType::storageTypeFromString] *)
Definition storageTypeFromString (s : string) : StorageType :=
  if String.eqb s "int" then IntValue else StringValue.

(** [EnumPropertyType::storageTypeToString] *)
Definition storageTypeToString (t : StorageType) : string :=
  match t with IntValue => "int"%string | StringValue => "string"%string end.

(** [EnumPropertyType::fromVariant] *)
Definition EnumPropertyType_fromVariant (this : EnumPropertyType) (variant : QVariantMap)
    : EnumPropertyType :=
  mkEnum (enum_base this)
    (storageTypeFromString (toString (QMap_value variant "storageType")))
    (toStringList (QMap_value variant "values"))
    (toBool (QMap_value_or variant "valuesAsFlags" (VBool false))).

(** ** The id counter and the factory *)

(** Modelled from the spec: the constructors are declared in propertytype.h,
    which is not among the sources.  The spec has a new type object assigned
    "the next unused identifier" from the process-wide counter [nextId], which
    "always holds the maximum id ever assigned": construction advances the
    counter by one and takes the new value as id.  The counter is the
    [int PropertyType::nextId] of the source, so the increment is that of a
    32-bit int: at [INT_MAX] it wraps around to [INT_MIN].  The result is the
    id and the counter after the construction. *)
Definition PropertyType_construct (nextId : Z) : Z * Z :=
  let id := wrap_int (nextId + 1) in (id, id).

(** [std::make_unique<EnumPropertyType>(name)].  The fields of the subclass
    only hold place here: [fromVariant] overwrites every one of them before the
    factory returns the object. *)
Definition new_EnumPropertyType (name : string) (nextId : Z) : PropertyType * Z :=
  let '(id, nextId') := PropertyType_construct nextId in
  (Enum (mkEnum (mkBase id name) StringValue [] false), nextId').

(** [std::make_unique<ClassPropertyType>(name)] *)
Definition new_ClassPropertyType (name : string) (nextId : Z) : PropertyType * Z :=
  let '(id, nextId') := PropertyType_construct nextId in
  (Class (mkClass (mkBase id name) []), nextId').

(** [propertyType->id = id] *)
Definition set_id (t : PropertyType) (id : Z) : PropertyType :=
  match t with
  | Enum e => Enum (mkEnum (mkBase id (name (enum_base e))) (storageType e) (values e)
                      (valuesAsFlags e))
  | Class c => Class (mkClass (mkBase id (name (class_base c))) (members c))
  end.

(** [ClassPropertyType::fromVariant]: every member record is stored raw under
    its name. *)
Definition ClassPropertyType_fromVariant (this : ClassPropertyType) (variant : QVariantMap)
    : ClassPropertyType :=
  let membersList := toList (QMap_value variant "members") in
  mkClass (class_base this)
    (List.fold_left
       (fun members member =>
          let map := toMap member in
          let name := toString (QMap_value map "name") in
          QMap_insert members name (VMap map))
       membersList (members this)).

(** The virtual [fromVariant]. *)
Definition fromVariant (t : PropertyType) (variant : QVariantMap) : PropertyType :=
  match t with
  | Enum e => Enum (EnumPropertyType_fromVariant e variant)
  | Class c => Class (ClassPropertyType_fromVariant c variant)
  end.

(** [PropertyType::createFromVariant], with the static [nextId] passed in and
    out. *)
Definition createFromVariant (variant : QVariantMap) (nextId : Z)
    : option PropertyType * Z :=
  let id := toInt (QMap_value variant "id") in
  let name := toString (QMap_value variant "name") in
  let type := typeFromString (toString (QMap_value variant "type")) in
  let '(propertyType, nextId) :=
    match type with
    | PT_Invalid => (None, nextId)
    | PT_Class =>
        let '(t, n) := new_ClassPropertyType name nextId in (Some t, n)
    | PT_Enum =>
        let '(t, n) := new_EnumPropertyType name nextId in (Some t, n)
    end in
  match propertyType with
  | Some t => (Some (fromVariant (set_id t id) variant), Z.max nextId id)
  | None => (None, nextId)
  end.

(** ** PropertyTypes: lookup *)

(** [PropertyTypes::count] *)
Definition PropertyTypes_count (mTypes : PropertyTypes) (ty : Type_) : nat :=
  length (List.filter (fun propertyType => Type_eqb (type propertyType) ty) mTypes).

(** [PropertyTypes::findTypeById]: [std::find_if], the first match with its
    position (the pointer), [None] for [nullptr]. *)
Definition PropertyTypes_findTypeById (mTypes : PropertyTypes) (typeId : Z)
    : option (nat * PropertyType) :=
  list_find (fun t => id (base t) = typeId) mTypes.

(** [PropertyTypes::findTypeByName] *)
Definition PropertyTypes_findTypeByName (mTypes : PropertyTypes) (n : string)
    : option (nat * PropertyType) :=
  list_find (fun t => name (base t) = n) mTypes.

(** ** ClassPropertyType *)

(** One round of the loop of [ClassPropertyType::toPropertyValue], at the entry
    [(key, v)] of [properties].  [dispatch] is the virtual call
    [propertyType->toPropertyValue(propertyValue, context)]. *)
Definition toPropertyValue_entry (dispatch : PropertyType -> QVariant -> option QVariant)
    (this : ClassPropertyType) (context : ExportContext) (entry : string * QVariant)
    : option (string * QVariant) :=
  let '(key, v) := entry in
  let classMember := QMap_value (members this) key in
  if negb (isValid classMember) then Some (key, v)
  else
    let propertyValue := ExportContext_toPropertyValue context v (userType classMember) in
    match classMember with
    | VPropertyValue _ typeId =>
        match PropertyTypes_findTypeById (ctx_types context) typeId with
        | Some (_, propertyType) =>
            match dispatch propertyType propertyValue with
            | Some propertyValue' => Some (key, propertyValue')
            | None => None
            end
        | None => Some (key, propertyValue)
        end
    | _ => Some (key, propertyValue)
    end.

(** The virtual [toPropertyValue].  A class value converts its members through
    the types of the registry, which may be classes again: [fuel] bounds the
    nesting of these calls, and [None] means it ran out. *)
Fixpoint toPropertyValue (fuel : nat) (this : PropertyType) (value : QVariant)
    (context : ExportContext) : option QVariant :=
  match fuel with
  | O => None
  | S fuel' =>
      match this with
      | Enum e => Some (EnumPropertyType_toPropertyValue e value)
      | Class c =>
          match mapM (toPropertyValue_entry
                        (fun t v => toPropertyValue fuel' t v context) c context)
                     (toMap value) with
          | Some properties => Some (PropertyType_wrap (class_base c) (VMap properties))
          | None => None
          end
      end
  end.

(** [ClassPropertyType::toPropertyValue] *)
Definition ClassPropertyType_toPropertyValue (fuel : nat) (this : ClassPropertyType)
    (value : QVariant) (context : ExportContext) : option QVariant :=
  toPropertyValue fuel (Class this) value context.

(** [ClassPropertyType::defaultValue] *)
Definition ClassPropertyType_defaultValue : QVariant := VMap [].

(** Modelled from the spec: [PropertyValue::type()] is defined in
    properties.cpp, not among the sources.  The spec has a member "wrapped with
    some nested PropertyType" looked up "in the registry by id"; the result is
    the pointer (position) of that type, [None] when there is none. *)
Definition PropertyValue_type (types : PropertyTypes) (typeId : Z) : option nat :=
  match PropertyTypes_findTypeById types typeId with
  | Some (p, _) => Some p
  | None => None
  end.

(** The loop of [ClassPropertyType::canAddMemberOfType] over the members of the
    candidate; [check] is the recursive call. *)
Fixpoint canAdd_members (check : nat -> option bool) (types : PropertyTypes)
    (ms : list QVariant) : option bool :=
  match ms with
  | [] => Some true
  | member :: rest =>
      match member with
      | VPropertyValue _ typeId =>
          match PropertyValue_type types typeId with
          | None => canAdd_members check types rest
          | Some propertyType =>
              match check propertyType with
              | None => None
              | Some false => Some false
              | Some true => canAdd_members check types rest
              end
          end
      | _ => canAdd_members check types rest
      end
  end.

(** [ClassPropertyType::canAddMemberOfType].  [this] and [propertyType] are
    pointers into [types]; the recursion follows the members of classes and
    need not end on a cyclic registry, so it is bounded by [fuel] ([None]: ran
    out, or a dangling pointer). *)
Fixpoint ClassPropertyType_canAddMemberOfType (fuel : nat) (types : PropertyTypes)
    (this : nat) (propertyType : nat) : option bool :=
  match fuel with
  | O => None
  | S fuel' =>
      if Nat.eqb propertyType this then Some false
      else
        match types !! propertyType with
        | None => None
        | Some (Enum _) => Some true
        | Some (Class classType) =>
            canAdd_members (ClassPropertyType_canAddMemberOfType fuel' types this)
              types (List.map snd (members classType))
        end
  end.

(** One round of the loop of [ClassPropertyType::resolveDependencies]: the
    raw record [member] becomes the value the host resolves it to. *)
Definition resolve_member (context : ExportContext) (member : QVariant) : QVariant :=
  let map := toMap member in
  ExportContext_toPropertyValue_export context
    (mkExportValue (QMap_value map "value")
                   (toString (QMap_value map "type"))
                   (toString (QMap_value map "propertyType"))).

(** [members[j] = v] of the class at [p], in place. *)
Definition set_member (mTypes : PropertyTypes) (p j : nat) (v : QVariant) : PropertyTypes :=
  match mTypes !! p with
  | Some (Class c) =>
      match members c !! j with
      | Some (key, _) =>
          <[p := Class (mkClass (class_base c) (<[j := (key, v)]> (members c)))]> mTypes
      | None => mTypes
      end
  | _ => mTypes
  end.

(** One round of the loop of [ClassPropertyType::resolveDependencies] on the
    class at [p]: its member [j] is resolved in place.  The context refers to
    the registry itself, so each round sees what the rounds before it wrote. *)
Definition resolve_step (path : string) (p : nat) (mTypes : PropertyTypes) (j : nat)
    : PropertyTypes :=
  match mTypes !! p with
  | Some (Class c) =>
      match members c !! j with
      | Some (_, member) =>
          set_member mTypes p j (resolve_member (mkExportContext mTypes path) member)
      | None => mTypes
      end
  | _ => mTypes
  end.

(** The virtual [resolveDependencies] of the type at [p]: a no-op (the base
    implementation, which the spec calls a "no-op by default") but for a class,
    whose members are resolved one after the other, in key order. *)
Definition resolveDependencies (path : string) (mTypes : PropertyTypes) (p : nat)
    : PropertyTypes :=
  match mTypes !! p with
  | Some (Class c) =>
      List.fold_left (resolve_step path p) (seq 0 (length (members c))) mTypes
  | _ => mTypes
  end.

(** ** PropertyTypes: loading *)

(** Modelled from the spec: [PropertyTypes::clear] is defined inline in
    propertytype.h, not among the sources.  It "clears all existing owned
    types". *)
Definition PropertyTypes_clear (mTypes : PropertyTypes) : PropertyTypes := [].

(** Modelled from the spec: [PropertyTypes::add] is defined inline in
    propertytype.h, not among the sources.  It "adds the result to the owned
    set", which keeps the types "in insertion order". *)
Definition PropertyTypes_add (mTypes : PropertyTypes) (propertyType : PropertyType)
    : PropertyTypes :=
  mTypes ++ [propertyType].

(** The first loop of [PropertyTypes::loadFrom]. *)
Fixpoint load_records (list : QVariantList) (mTypes : PropertyTypes) (nextId : Z)
    : PropertyTypes * Z :=
  match list with
  | [] => (mTypes, nextId)
  | typeValue :: rest =>
      match createFromVariant (toMap typeValue) nextId with
      | (Some propertyType, nextId') =>
          load_records rest (PropertyTypes_add mTypes propertyType) nextId'
      | (None, nextId') => load_records rest mTypes nextId'
      end
  end.

(** [PropertyTypes::loadFrom] on the state [(mTypes, nextId)]. *)
Definition PropertyTypes_loadFrom (list : QVariantList) (path : string)
    (state : PropertyTypes * Z) : PropertyTypes * Z :=
  let '(mTypes, nextId) := state in
  let mTypes := PropertyTypes_clear mTypes in
  let '(mTypes, nextId') := load_records list mTypes nextId in
  (List.fold_left (resolveDependencies path) (seq 0 (length mTypes)) mTypes, nextId').

End Methods.

(** ** Serializing definitions and exporting class values *)

Section Serializing.

Variable ExportContext_toExportValue : ExportContext -> QVariant -> ExportValue.

(** A [QVariantMap] written as an initializer list: the pairs are inserted
    one after the other. *)
Definition QMap_of_list (l : list (string * QVariant)) : QVariantMap :=
  List.fold_left (fun m kv => QMap_insert m (fst kv) (snd kv)) l [].

(** [PropertyType::toVariant]; the context is not used. *)
Definition PropertyType_toVariant (this : PropertyType) (_ : ExportContext) : QVariantMap :=
  QMap_of_list [ ("type"%string, VString (typeToString (type this)));
                 ("id"%string, VInt (id (base this)));
                 ("name"%string, VString (name (base this))) ].

(** [EnumPropertyType::toVariant].  The [QStringList] put under "values" is
    held as the list of its strings. *)
Definition EnumPropertyType_toVariant (this : EnumPropertyType) (context : ExportContext)
    : QVariantMap :=
  let variant := PropertyType_toVariant (Enum this) context in
  let variant :=
    QMap_insert variant "storageType" (VString (storageTypeToString (storageType this))) in
  let variant := QMap_insert variant "values" (VList (List.map VString (values this))) in
  QMap_insert variant "valuesAsFlags" (VBool (valuesAsFlags this)).

(** One round of the loop of [ClassPropertyType::toVariant]: the record of the
    member [entry]. *)
Definition member_toVariant (context : ExportContext) (entry : string * QVariant)
    : QVariant :=
  let exportValue := ExportContext_toExportValue context (snd entry) in
  let member :=
    QMap_of_list [ ("name"%string, VString (fst entry));
                   ("type"%string, VString (ev_typeName exportValue));
                   ("value"%string, ev_value exportValue) ] in
  VMap (if negb (QString_isEmpty (ev_propertyTypeName exportValue))
        then QMap_insert member "propertyType" (VString (ev_propertyTypeName exportValue))
        else member).

(** [ClassPropertyType::toVariant] *)
Definition ClassPropertyType_toVariant (this : ClassPropertyType) (context : ExportContext)
    : QVariantMap :=
  let members := List.map (member_toVariant context) (members this) in
  QMap_insert (PropertyType_toVariant (Class this) context) "members" (VList members).

(** The virtual [toVariant]. *)
Definition toVariant (this : PropertyType) (context : ExportContext) : QVariantMap :=
  match this with
  | Enum e => EnumPropertyType_toVariant e context
  | Class c => ClassPropertyType_toVariant c context
  end.

(** [ClassPropertyType::toExportValue]: every value of the mapping is replaced
    by what the host exports it as, and the mapping goes through the base
    conversion. *)
Definition ClassPropertyType_toExportValue (this : ClassPropertyType) (value : QVariant)
    (context : ExportContext) : ExportValue :=
  let properties :=
    List.map (fun entry : string * QVariant =>
                (fst entry, ev_value (ExportContext_toExportValue context (snd entry))))
             (toMap value) in
  PropertyType_toExportValue ExportContext_toExportValue (class_base this)
    (VMap properties) context.

(** The virtual [toExportValue]. *)
Definition toExportValue (this : PropertyType) (value : QVariant) (context : ExportContext)
    : ExportValue :=
  match this with
  | Enum e => EnumPropertyType_toExportValue ExportContext_toExportValue e value context
  | Class c => ClassPropertyType_toExportValue c value context
  end.

End Serializing.

(** ** What a serialized record says

    The three base fields, read the way [createFromVariant] reads them. *)

Section Records.

Variable QString_toInt : string -> Z.

Definition record_id (r : QVariant) : Z := toInt QString_toInt (QMap_value (toMap r) "id").

Definition record_name (r : QVariant) : string := toString (QMap_value (toMap r) "name").

Definition record_type (r : QVariant) : Type_ :=
  typeFromString (toString (QMap_value (toMap r) "type")).

Definition record_valid (r : QVariant) : bool := negb (Type_eqb (record_type r) PT_Invalid).

(** The counter after [createFromVariant] ran on each record of [list]. *)
Definition counter_after (list : QVariantList) (nextId : Z) : Z :=
  List.fold_left (fun n r => snd (createFromVariant QString_toInt (toMap r) n)) list nextId.

(** The counter stays where a construction does not overflow it,
    [INT_MIN <= counter < INT_MAX], before, between and after the calls of
    [createFromVariant] on the records of [list]. *)
Definition counter_below (list : QVariantList) (nextId : Z) : Prop :=
  forall k : nat, (int_min <= counter_after (take k list) nextId < int_max)%Z.

End Records.

(** Identity, name and kind of an owned type, and with them the names of the
    members of a class: what resolving dependencies leaves alone. *)
Definition skeleton (t : PropertyType) : Z * string * Type_ :=
  (id (base t), name (base t), type t).

Definition shape (t : PropertyType) : Z * string * Type_ * list string :=
  (skeleton t, match t with Class c => QMap_keys (members c) | Enum _ => [] end).

(** The member at position [j] of the class at [p]. *)
Definition member_at (mTypes : PropertyTypes) (p j : nat) : option (string * QVariant) :=
  match mTypes !! p with
  | Some (Class c) => members c !! j
  | _ => None
  end.

(** [PropertyValue::value] of a wrapped value. *)
Definition PropertyValue_value (v : QVariant) : QVariant :=
  match v with VPropertyValue value _ => value | _ => Invalid end.

(** Class [p] has a member whose value is wrapped with the type at [q]. *)
Definition contains (types : PropertyTypes) (p q : nat) : Prop :=
  exists c key value typeId,
    types !! p = Some (Class c)
    /\ In (key, VPropertyValue value typeId) (members c)
    /\ PropertyValue_type types typeId = Some q.

(** The containment edges of a registry, listed: the pairs [(p, q)] with
    [contains types p q]. *)
Definition member_edges (types : PropertyTypes) (p : nat) (t : PropertyType)
    : list (nat * nat) :=
  match t with
  | Class c =>
      omap (fun kv : string * QVariant =>
              match snd kv with
              | VPropertyValue _ typeId =>
                  match PropertyValue_type types typeId with
                  | Some q => Some (p, q)
                  | None => None
                  end
              | _ => None
              end) (members c)
  | Enum _ => []
  end.

Definition containment (types : PropertyTypes) : list (nat * nat) :=
  mjoin (imap (member_edges types) types).

(** No class contains itself, directly or transitively. *)
Definition acyclic (types : PropertyTypes) : Prop :=
  forall p, ~ tc (contains types) p p.

(** What [createFromVariant] makes of a record, the counter left aside. *)
Definition parse_record (QString_toInt : string -> Z) (r : QVariant) : option PropertyType :=
  fst (createFromVariant QString_toInt (toMap r) 0%Z).

(** The base fields a record states, as the skeleton of the type it
    describes. *)
Definition record_skeleton (QString_toInt : string -> Z) (r : QVariant)
    : Z * string * Type_ :=
  (record_id QString_toInt r, record_name r, record_type r).

(** The member [j] of the class at [p], raw in [m0], holds in [m'] what the
    host resolved it to, and the host saw a registry with the types of [m0]:
    the same ids, names, kinds and member names at the same positions. *)
Definition resolved_by
    (ExportContext_toPropertyValue_export : ExportContext -> ExportValue -> QVariant)
    (path : string) (m0 m' : PropertyTypes) (p j : nat) : Prop :=
  forall key raw, member_at m0 p j = Some (key, raw) ->
    exists reg, List.map shape reg = List.map shape m0
                /\ member_at m' p j
                   = Some (key, resolve_member ExportContext_toPropertyValue_export
                                  (mkExportContext reg path) raw).

(** ** A plain host

    Conversions that leave every value as it is; [plain_resolve] looks the
    property type up by name and lets it convert the value, as the spec
    describes the host ("looking up propertyTypeName in the now-fully-populated
    registry").  They instantiate the host where a concrete run is shown. *)

Definition plain_toInt (s : string) : Z := 0%Z.

Definition plain_typeName (v : QVariant) : string :=
  match v with
  | VBool _ => "bool" | VInt _ => "int" | VString _ => "string"
  | VMap _ | VPropertyValue _ _ => "class" | _ => EmptyString
  end%string.

Definition plain_toExportValue (_ : ExportContext) (v : QVariant) : ExportValue :=
  mkExportValue v (plain_typeName v) EmptyString.

Definition plain_toPropertyValue (_ : ExportContext) (v : QVariant) (_ : MetaType) : QVariant := v.

Definition plain_resolve (context : ExportContext) (ev : ExportValue) : QVariant :=
  if QString_isEmpty (ev_propertyTypeName ev) then ev_value ev
  else
    match PropertyTypes_findTypeByName (ctx_types context) (ev_propertyTypeName ev) with
    | Some (_, propertyType) =>
        match toPropertyValue plain_toPropertyValue (S (depth (ev_value ev)))
                propertyType (ev_value ev) context with
        | Some v => v
        | None => ev_value ev
        end
    | None => ev_value ev
    end.

Definition empty_context : ExportContext := mkExportContext [] EmptyString.

(** ** Notions the statements use *)

(** The pieces joined with commas again. *)
Fixpoint join_comma (l : list string) : string :=
  match l with
  | [] => EmptyString
  | [x] => x
  | x :: rest => String.append x (String comma (join_comma rest))
  end.

Fixpoint comma_free (s : string) : Prop :=
  match s with
  | EmptyString => True
  | String c s' => c <> comma /\ comma_free s'
  end.

(** A name that survives the comma-separated flags string: not empty, no
    comma in it. *)
Definition flag_name (s : string) : Prop := s <> EmptyString /\ comma_free s.

(** The OR-combination of a list of masks. *)
Definition or_all (masks : list Z) : Z := List.fold_right Z.lor 0%Z masks.

(** The bit of the 32-bit int [f] that [f & (1 << i)] tests: bit [i], the
    count taken modulo 32 as the shift takes it. *)
Definition int_testbit (f i : Z) : bool := Z.testbit f (i mod 32).

(** The names that the export loop appends for the mask [f], in ascending
    index order: those whose test [f & (1 << i)] is not zero; [rest] is
    [values] from position [i] on. *)
Fixpoint names_of_bits (f : Z) (rest : list string) (i : Z) : list string :=
  match rest with
  | [] => []
  | v :: rest' =>
      if int_testbit f i then v :: names_of_bits f rest' (i + 1)%Z
      else names_of_bits f rest' (i + 1)%Z
  end.

(** The names whose bit is set in [f], in ascending index order: the name at
    position [i] is listed when bit [i] of [f] is set; [rest] is [values] from
    position [i] on. *)
Fixpoint names_of_set_bits (f : Z) (rest : list string) (i : Z) : list string :=
  match rest with
  | [] => []
  | v :: rest' =>
      if Z.testbit f i then v :: names_of_set_bits f rest' (i + 1)%Z
      else names_of_set_bits f rest' (i + 1)%Z
  end.

(** The bits a flags value can name with [n] names: the low [n] bits, all 32
    from 32 names on ([f & ((1 << n) - 1)] in the source's terms). *)
Definition valid_mask (n : nat) : Z :=
  if (Z.of_nat n <? 32)%Z then Z.ones (Z.of_nat n) else (-1)%Z.

(** The raw record that [fromVariant] finds for the member [key] once the
    host's export value [ev] was written by [toVariant]. *)
Definition exported_member (key : string) (ev : ExportValue) : QVariant :=
  VMap (if negb (QString_isEmpty (ev_propertyTypeName ev))
        then [ ("name"%string, VString key);
               ("propertyType"%string, VString (ev_propertyTypeName ev));
               ("type"%string, VString (ev_typeName ev));
               ("value"%string, ev_value ev) ]
        else [ ("name"%string, VString key);
               ("type"%string, VString (ev_typeName ev));
               ("value"%string, ev_value ev) ]).

(** The name a member record states. *)
Definition member_name (member : QVariant) : string :=
  toString (QMap_value (toMap member) "name").

(** The registry [types'] has the containment edges of [types] and at most
    one more, from [this] to [candidate]: what adding to the class [this] a
    member typed [candidate] does. *)
Definition adds_member (types types' : PropertyTypes) (this candidate : nat) : Prop :=
  forall p q, contains types' p q -> contains types p q \/ (p = this /\ q = candidate).

(** The list is one that a [QMap] holds: building a map from its entries
    gives the list back (the keys ascend, none occurs twice). *)
Definition QMap_ok (m : QVariantMap) : Prop := QMap_of_list m = m.

(** Every class of the registry holds its members as a [QMap] does. *)
Definition members_ok (types : PropertyTypes) : Prop :=
  Forall (fun t => match t with Class c => QMap_ok (members c) | Enum _ => True end) types.

(** The records of a registry: what [toVariant] writes for each of its types,
    in order. *)
Definition records_of (ExportContext_toExportValue : ExportContext -> QVariant -> ExportValue)
    (types : PropertyTypes) (context : ExportContext) : QVariantList :=
  List.map (fun t => VMap (toVariant ExportContext_toExportValue t context)) types.

(** The type [t] as the first phase of a load holds it after reading the
    record written for [t]: the members of a class are raw records. *)
Definition raw_type (ExportContext_toExportValue : ExportContext -> QVariant -> ExportValue)
    (context : ExportContext) (t : PropertyType) : PropertyType :=
  match t with
  | Enum e => Enum e
  | Class c =>
      Class (mkClass (class_base c)
               (List.map (fun kv : string * QVariant =>
                            (fst kv,
                             exported_member (fst kv)
                               (ExportContext_toExportValue context (snd kv))))
                         (members c)))
  end.

(** The host hands plain integers and strings through on export (it converts
    colours, file paths and the like, not these). *)
Definition exports_plain_values (toExportValue : ExportContext -> QVariant -> ExportValue)
    : Prop :=
  forall (context : ExportContext) (v : QVariant),
    match v with
    | VInt _ | VString _ => ev_value (toExportValue context v) = v
    | _ => True
    end.

(** The host's conversion by meta type does not return a value nested deeper
    than the one it was given. *)
Definition conversion_keeps_depth
    (toPropertyValue : ExportContext -> QVariant -> MetaType -> QVariant) : Prop :=
  forall (context : ExportContext) (v : QVariant) (hint : MetaType),
    depth (toPropertyValue context v hint) <= depth v.

(** Two small registries for the runs shown below.  In [registry_chain] the
    class B (position 2) has a member typed A (position 1), which has a member
    typed X (position 0).  In [registry_cycle] B (position 2) has, before its
    member typed A (position 3), a member typed C (position 1), and C has a
    member typed C itself, as hand-edited data can say. *)
Definition registry_chain : PropertyTypes :=
  [ Class (mkClass (mkBase 1 "X") []);
    Class (mkClass (mkBase 2 "A") [("x"%string, VPropertyValue (VMap []) 1)]);
    Class (mkClass (mkBase 3 "B") [("a"%string, VPropertyValue (VMap []) 2)]) ].

Definition registry_cycle : PropertyTypes :=
  [ Class (mkClass (mkBase 1 "X") []);
    Class (mkClass (mkBase 2 "C") [("c"%string, VPropertyValue (VMap []) 2)]);
    Class (mkClass (mkBase 3 "B") [("a"%string, VPropertyValue (VMap []) 2);
                                   ("b"%string, VPropertyValue (VMap []) 4)]);
    Class (mkClass (mkBase 4 "A") [("x"%string, VPropertyValue (VMap []) 1)]) ].


(** Two valid records with the same id and the same name: an enum, then a
    class. *)
Definition shared_id_and_name : QVariantList :=
  [ VMap [("id"%string, VInt 1); ("name"%string, VString "T");
          ("type"%string, VString "enum"); ("values"%string, VList [VString "a"])];
    VMap [("id"%string, VInt 1); ("members"%string, VList []);
          ("name"%string, VString "T"); ("type"%string, VString "class")] ].

(** A class whose member "b" names the class "B", which the list defines only
    after it. *)
Definition forward_reference : QVariantList :=
  [ VMap [("id"%string, VInt 1);
          ("members"%string,
           VList [VMap [("name"%string, VString "b");
                        ("propertyType"%string, VString "B");
                        ("type"%string, VString "class");
                        ("value"%string, VMap [])]]);
          ("name"%string, VString "A");
          ("type"%string, VString "class")];
    VMap [("id"%string, VInt 9); ("name"%string, VString "Old");
          ("type"%string, VString "struct")];
    VMap [("id"%string, VInt 2); ("members"%string, VList []);
          ("name"%string, VString "B"); ("type"%string, VString "class")] ].

(** Three records: an enum E with the names X and Y, a class B with a member
    "e" typed E, and a class A with a member "b" typed B whose default value
    sets "e" to the name "Y". *)
Definition record_E : QVariant :=
  VMap [("id"%string, VInt 3); ("name"%string, VString "E");
        ("storageType"%string, VString "string"); ("type"%string, VString "enum");
        ("values"%string, VList [VString "X"; VString "Y"])].

Definition record_B : QVariant :=
  VMap [("id"%string, VInt 2);
        ("members"%string,
         VList [VMap [("name"%string, VString "e"); ("propertyType"%string, VString "E");
                      ("type"%string, VString "string"); ("value"%string, VString "X")]]);
        ("name"%string, VString "B"); ("type"%string, VString "class")].

Definition record_A : QVariant :=
  VMap [("id"%string, VInt 1);
        ("members"%string,
         VList [VMap [("name"%string, VString "b"); ("propertyType"%string, VString "B");
                      ("type"%string, VString "class");
                      ("value"%string, VMap [("e"%string, VString "Y")])]]);
        ("name"%string, VString "A"); ("type"%string, VString "class")].

(** * Theorems *)

(** ** typeFromString and typeToString *)

Lemma typeFromString_other (s : string) :
  s <> "class"%string -> s <> "enum"%string -> s <> EmptyString ->
  typeFromString s = PT_Invalid.
Proof.
  intros Hc He Hn. unfold typeFromString.
  destruct (String.eqb_spec s "enum") as [->|_]; [congruence|].
  destruct (String.eqb_spec s "class") as [->|_]; [congruence|].
  destruct s; [congruence|reflexivity].
Qed.

(** C9.  [typeFromString] maps "class" to Class, "enum" and the empty string
    to Enum and every other string to Invalid; [typeToString] maps Class,
    Enum and Invalid to "class", "enum" and "invalid", never produces the
    empty string, and is undone by [typeFromString]. *)
Theorem typeFromString_typeToString_mapping :
  typeFromString "class" = PT_Class
  /\ typeFromString "enum" = PT_Enum
  /\ typeFromString EmptyString = PT_Enum
  /\ (forall s : string,
        s <> "class"%string -> s <> "enum"%string -> s <> EmptyString ->
        typeFromString s = PT_Invalid)
  /\ typeToString PT_Class = "class"%string
  /\ typeToString PT_Enum = "enum"%string
  /\ typeToString PT_Invalid = "invalid"%string
  /\ (forall t : Type_, typeToString t <> EmptyString)
  /\ (forall t : Type_, typeFromString (typeToString t) = t).
Proof.
  repeat split; try reflexivity.
  - exact typeFromString_other.
  - intros [] ; discriminate.
  - intros []; reflexivity.
Qed.

Lemma typeFromString_typeToString_mapping_witness :
  typeFromString "Enum" = PT_Invalid.
Proof.
  destruct typeFromString_typeToString_mapping as (_ & _ & _ & H & _).
  apply H; discriminate.
Defined.

(** ** The factory *)

Lemma QMap_value_absent (m : QVariantMap) (key : string) :
  QMap_contains m key = false -> QMap_value m key = Invalid.
Proof.
  induction m as [|[k v] m IH]; simpl; [reflexivity|].
  destruct (String.eqb k key); simpl; [discriminate|exact IH].
Qed.

Section Factory.

Variable QString_toInt : string -> Z.

Lemma createFromVariant_Invalid (variant : QVariantMap) (nextId : Z) :
  typeFromString (toString (QMap_value variant "type")) = PT_Invalid ->
  createFromVariant QString_toInt variant nextId = (None, nextId).
Proof. intros H. unfold createFromVariant. rewrite H. reflexivity. Qed.

Lemma createFromVariant_Enum (variant : QVariantMap) (nextId : Z) :
  typeFromString (toString (QMap_value variant "type")) = PT_Enum ->
  createFromVariant QString_toInt variant nextId =
    (Some (Enum (EnumPropertyType_fromVariant
                   (mkEnum (mkBase (toInt QString_toInt (QMap_value variant "id"))
                                   (toString (QMap_value variant "name")))
                           StringValue [] false) variant)),
     Z.max (wrap_int (nextId + 1)) (toInt QString_toInt (QMap_value variant "id"))).
Proof. intros H. unfold createFromVariant. rewrite H. reflexivity. Qed.

Lemma createFromVariant_Class (variant : QVariantMap) (nextId : Z) :
  typeFromString (toString (QMap_value variant "type")) = PT_Class ->
  createFromVariant QString_toInt variant nextId =
    (Some (Class (ClassPropertyType_fromVariant
                    (mkClass (mkBase (toInt QString_toInt (QMap_value variant "id"))
                                     (toString (QMap_value variant "name"))) [])
                    variant)),
     Z.max (wrap_int (nextId + 1)) (toInt QString_toInt (QMap_value variant "id"))).
Proof. intros H. unfold createFromVariant. rewrite H. reflexivity. Qed.

(** What the factory returns, by the kind the record's type string resolves
    to. *)
Lemma createFromVariant_cases (variant : QVariantMap) (nextId : Z) :
  let r := createFromVariant QString_toInt variant nextId in
  match typeFromString (toString (QMap_value variant "type")) with
  | PT_Invalid => r = (None, nextId)
  | ty =>
      exists t, r = (Some t, Z.max (wrap_int (nextId + 1))
                                   (toInt QString_toInt (QMap_value variant "id")))
                /\ skeleton t = (toInt QString_toInt (QMap_value variant "id"),
                                 toString (QMap_value variant "name"), ty)
  end.
Proof.
  destruct (typeFromString (toString (QMap_value variant "type"))) eqn:E; simpl.
  - apply createFromVariant_Invalid, E.
  - eexists; split; [apply createFromVariant_Class, E|reflexivity].
  - eexists; split; [apply createFromVariant_Enum, E|reflexivity].
Qed.

(** In the range of an [int] the wrap-around changes nothing. *)
Lemma wrap_int_small (z : Z) : in_int z -> wrap_int z = z.
Proof.
  unfold in_int, int_min, int_max, wrap_int. intros Hz.
  rewrite Z.mod_small; lia.
Qed.

(** Below [INT_MAX] a construction takes the next number. *)
Lemma PropertyType_construct_next (nextId : Z) :
  (int_min <= nextId < int_max)%Z ->
  PropertyType_construct nextId = ((nextId + 1)%Z, (nextId + 1)%Z).
Proof.
  intros Hn. unfold PropertyType_construct.
  rewrite wrap_int_small; [reflexivity|].
  unfold in_int, int_min, int_max in *. lia.
Qed.

Lemma createFromVariant_counter_le (variant : QVariantMap) (nextId : Z) :
  (int_min <= nextId < int_max)%Z ->
  (nextId <= snd (createFromVariant QString_toInt variant nextId))%Z.
Proof.
  intros Hn.
  assert (Hw : wrap_int (nextId + 1) = (nextId + 1)%Z)
    by (apply wrap_int_small; unfold in_int, int_min, int_max in *; lia).
  pose proof (createFromVariant_cases variant nextId) as H. simpl in H.
  destruct (typeFromString _); [rewrite H; simpl; lia| |];
    destruct H as (t & -> & _); simpl; lia.
Qed.

Lemma counter_after_cons (r : QVariant) (list : QVariantList) (nextId : Z) :
  counter_after QString_toInt (r :: list) nextId
  = counter_after QString_toInt list
      (snd (createFromVariant QString_toInt (toMap r) nextId)).
Proof. reflexivity. Qed.

Lemma counter_below_start (list : QVariantList) (nextId : Z) :
  counter_below QString_toInt list nextId -> (int_min <= nextId < int_max)%Z.
Proof. intros H. exact (H 0%nat). Qed.

Lemma counter_below_end (list : QVariantList) (nextId : Z) :
  counter_below QString_toInt list nextId ->
  (int_min <= counter_after QString_toInt list nextId < int_max)%Z.
Proof. intros H. specialize (H (length list)). now rewrite firstn_all in H. Qed.

Lemma counter_below_cons (r : QVariant) (list : QVariantList) (nextId : Z) :
  counter_below QString_toInt (r :: list) nextId ->
  counter_below QString_toInt list
    (snd (createFromVariant QString_toInt (toMap r) nextId)).
Proof. intros H k. exact (H (S k)). Qed.

Lemma counter_below_take (list : QVariantList) (nextId : Z) (k : nat) :
  counter_below QString_toInt list nextId ->
  counter_below QString_toInt (take k list) nextId.
Proof.
  intros H j. rewrite take_take. apply H.
Qed.

(** The range is checked on the counters of a run. *)
Lemma counter_below_check (list : QVariantList) (nextId : Z) :
  forallb (fun k => (int_min <=? counter_after QString_toInt (take k list) nextId)%Z
                    && (counter_after QString_toInt (take k list) nextId <? int_max)%Z)
          (seq 0 (S (length list))) = true ->
  counter_below QString_toInt list nextId.
Proof.
  intros Hall k. rewrite List.forallb_forall in Hall.
  assert (Hk : forall j, (j <= length list)%nat ->
            (int_min <= counter_after QString_toInt (take j list) nextId < int_max)%Z).
  { intros j Hj. specialize (Hall j). rewrite List.in_seq in Hall.
    specialize (Hall ltac:(lia)). apply andb_true_iff in Hall. lia. }
  destruct (Nat.le_gt_cases k (length list)) as [Hle|Hgt]; [now apply Hk|].
  rewrite take_ge by lia. pose proof (Hk (length list) (Nat.le_refl _)) as Hend.
  now rewrite firstn_all in Hend.
Qed.

(** As long as the counter stays below [INT_MAX] it does not decrease. *)
Lemma counter_after_le (list : QVariantList) (nextId : Z) :
  counter_below QString_toInt list nextId ->
  (nextId <= counter_after QString_toInt list nextId)%Z.
Proof.
  revert nextId.
  induction list as [|r list IH]; intros nextId Hb; [unfold counter_after; simpl; lia|].
  rewrite counter_after_cons.
  etransitivity;
    [apply (createFromVariant_counter_le (toMap r)), (counter_below_start _ _ Hb)
    |apply IH, counter_below_cons, Hb].
Qed.

Lemma counter_after_app (l1 l2 : QVariantList) (nextId : Z) :
  counter_after QString_toInt (l1 ++ l2) nextId
  = counter_after QString_toInt l2 (counter_after QString_toInt l1 nextId).
Proof. unfold counter_after. apply List.fold_left_app. Qed.

Lemma counter_below_drop (list : QVariantList) (nextId : Z) (k : nat) :
  counter_below QString_toInt list nextId ->
  counter_below QString_toInt (drop k list) (counter_after QString_toInt (take k list) nextId).
Proof.
  revert list nextId. induction k as [|k IH]; intros list nextId H; [exact H|].
  destruct list as [|r list]; [exact H|].
  change (counter_below QString_toInt (drop k list)
            (counter_after QString_toInt (take k list)
               (snd (createFromVariant QString_toInt (toMap r) nextId)))).
  apply IH, counter_below_cons, H.
Qed.

(** The counter over a longer run is at least the counter over a shorter
    one. *)
Lemma counter_after_mono (list : QVariantList) (nextId : Z) (j k : nat) :
  counter_below QString_toInt list nextId -> (j <= k)%nat ->
  (counter_after QString_toInt (take j list) nextId
   <= counter_after QString_toInt (take k list) nextId)%Z.
Proof.
  intros Hb Hjk.
  replace (take j list) with (take j (take k list))
    by (rewrite take_take; f_equal; lia).
  rewrite <- (take_drop j (take k list)) at 2.
  rewrite counter_after_app. apply counter_after_le.
  apply counter_below_drop, counter_below_take, Hb.
Qed.

(** C4, amended.  [createFromVariant] dispatches to the Enum constructor when
    the record's type string is "enum" or empty, which is what a missing type
    field reads as, and to the Class constructor when it is "class"; for every
    other string the type is Invalid, the factory returns nothing and leaves
    the counter alone, and the load skips the record and goes on with the
    rest. *)
Theorem createFromVariant_dispatch (variant : QVariantMap) (nextId : Z) :
  let s := toString (QMap_value variant "type") in
  let r := createFromVariant QString_toInt variant nextId in
  (QMap_contains variant "type" = false -> s = EmptyString)
  /\ (s = EmptyString \/ s = "enum"%string -> exists e, fst r = Some (Enum e))
  /\ (s = "class"%string -> exists c, fst r = Some (Class c))
  /\ (s <> EmptyString -> s <> "enum"%string -> s <> "class"%string ->
      r = (None, nextId)
      /\ forall (rest : QVariantList) (mTypes : PropertyTypes),
           load_records QString_toInt (VMap variant :: rest) mTypes nextId
           = load_records QString_toInt rest mTypes nextId).
Proof.
  intros s r. repeat split.
  - intros H. subst s. rewrite (QMap_value_absent _ _ H). reflexivity.
  - intros H. subst r. rewrite createFromVariant_Enum; [eexists; reflexivity|].
    fold s. destruct H as [-> | ->]; reflexivity.
  - intros H. subst r. rewrite createFromVariant_Class; [eexists; reflexivity|].
    fold s. rewrite H. reflexivity.
  - subst r. apply createFromVariant_Invalid. fold s.
    apply typeFromString_other; assumption.
  - intros rest mTypes. simpl.
    rewrite createFromVariant_Invalid; [reflexivity|]. fold s.
    apply typeFromString_other; assumption.
Qed.

(** C6, amended.  As long as the id counter stays below [INT_MAX] it never
    decreases: not over a call of [createFromVariant], and not over any
    further calls.  A call that constructs a type gives it the record's id
    and leaves the counter at or above that id (this part needs no bound), so
    the ids assigned from the counter do not decrease and every one assigned
    afterwards is larger than the record's: after a record with id 7 it is at
    least 8. *)
Theorem createFromVariant_counter_never_decreases (variant : QVariantMap) (nextId : Z) :
  (int_min <= nextId < int_max)%Z ->
  let r := createFromVariant QString_toInt variant nextId in
  (nextId <= snd r)%Z
  /\ (forall t : PropertyType, fst r = Some t ->
        id (base t) = toInt QString_toInt (QMap_value variant "id")
        /\ (id (base t) <= snd r)%Z)
  /\ (forall later : QVariantList, counter_below QString_toInt later (snd r) ->
        (snd r <= counter_after QString_toInt later (snd r))%Z
        /\ (forall j k : nat, (j <= k)%nat ->
              (counter_after QString_toInt (take j later) (snd r)
               <= counter_after QString_toInt (take k later) (snd r))%Z)
        /\ (fst (PropertyType_construct (snd r))
            <= fst (PropertyType_construct (counter_after QString_toInt later (snd r))))%Z)
  /\ (forall (t : PropertyType) (later : QVariantList), fst r = Some t ->
        counter_below QString_toInt later (snd r) ->
        (id (base t)
         < fst (PropertyType_construct (counter_after QString_toInt later (snd r))))%Z)
  /\ (forall (t : PropertyType) (later : QVariantList), fst r = Some t ->
        counter_below QString_toInt later (snd r) ->
        toInt QString_toInt (QMap_value variant "id") = 7%Z ->
        (8 <= fst (PropertyType_construct (counter_after QString_toInt later (snd r))))%Z).
Proof.
  intros Hn r.
  assert (Hcreated : forall t, fst r = Some t ->
            id (base t) = toInt QString_toInt (QMap_value variant "id")
            /\ (id (base t) <= snd r)%Z).
  { intros t Ht. subst r.
    pose proof (createFromVariant_cases variant nextId) as H. simpl in H.
    destruct (typeFromString _).
    - rewrite H in Ht. discriminate.
    - destruct H as (t' & E & Hs). rewrite E in Ht |- *. simpl in Ht |- *.
      injection Ht as ->. injection Hs as Hid _. rewrite Hid. lia.
    - destruct H as (t' & E & Hs). rewrite E in Ht |- *. simpl in Ht |- *.
      injection Ht as ->. injection Hs as Hid _. rewrite Hid. lia. }
  assert (Hnext : forall later, counter_below QString_toInt later (snd r) ->
            (snd r <= counter_after QString_toInt later (snd r))%Z
            /\ fst (PropertyType_construct (snd r)) = (snd r + 1)%Z
            /\ fst (PropertyType_construct (counter_after QString_toInt later (snd r)))
               = (counter_after QString_toInt later (snd r) + 1)%Z).
  { intros later Hb. split; [now apply counter_after_le|].
    rewrite !PropertyType_construct_next;
      [auto|now apply counter_below_end|eapply counter_below_start, Hb]. }
  split; [now apply createFromVariant_counter_le|].
  split; [exact Hcreated|]. split; [|split].
  - intros later Hb. destruct (Hnext later Hb) as (Hle & E1 & E2).
    split; [exact Hle|]. split; [intros j k Hjk; now apply counter_after_mono|].
    rewrite E1, E2. lia.
  - intros t later Ht Hb. destruct (Hcreated t Ht) as [_ Hle].
    destruct (Hnext later Hb) as (Hle' & _ & E2). rewrite E2. lia.
  - intros t later Ht Hb H7. destruct (Hcreated t Ht) as [Hid Hle].
    destruct (Hnext later Hb) as (Hle' & _ & E2). rewrite E2. lia.
Qed.

End Factory.

Lemma createFromVariant_dispatch_witness :
  createFromVariant plain_toInt [("type", VString "tileset")] 3 = (None, 3%Z).
Proof.
  destruct (createFromVariant_dispatch plain_toInt [("type", VString "tileset")] 3)
    as (_ & _ & _ & H).
  apply H; discriminate.
Defined.

(** C4 as stated fails: a record whose type string is not a known one
    ("tileset") does not reach the Enum constructor; the factory returns
    nothing. *)
Lemma createFromVariant_unknown_type_not_Enum :
  ~ (forall (variant : QVariantMap) (nextId : Z),
       let s := toString (QMap_value variant "type") in
       s <> "class"%string -> s <> "enum"%string ->
       exists e, fst (createFromVariant plain_toInt variant nextId) = Some (Enum e)).
Proof.
  intros H.
  destruct (H [("id", VInt 1); ("name", VString "T"); ("type", VString "tileset")] 0%Z)
    as [e He]; simpl; try discriminate.
Qed.

Lemma createFromVariant_counter_never_decreases_witness :
  (8 <= fst (PropertyType_construct
               (counter_after plain_toInt [VMap [("id", VInt 3)]]
                  (snd (createFromVariant plain_toInt [("id", VInt 7)] 0)))))%Z.
Proof.
  destruct (createFromVariant_counter_never_decreases plain_toInt [("id", VInt 7)] 0)
    as (_ & _ & _ & _ & H).
  - unfold int_min, int_max. lia.
  - eapply H; [reflexivity| |reflexivity].
    apply counter_below_check. reflexivity.
Defined.

(** C6 as stated fails: the counter is a 32-bit int, and at [INT_MAX] the
    increment of a construction wraps around.  From the counter 0 a record
    with the id [INT_MAX] leaves the counter at [INT_MAX]; the record with id
    1 that follows leaves it at 1, and the id assigned next is 2, not above
    the ids of the records. *)
Lemma createFromVariant_counter_drops_at_INT_MAX :
  counter_after plain_toInt [VMap [("id", VInt 2147483647)]] 0 = int_max
  /\ counter_after plain_toInt [VMap [("id", VInt 2147483647)]; VMap [("id", VInt 1)]] 0
     = 1%Z
  /\ fst (PropertyType_construct
            (counter_after plain_toInt
               [VMap [("id", VInt 2147483647)]; VMap [("id", VInt 1)]] 0))
     = 2%Z.
Proof. repeat split; reflexivity. Qed.

(** ** Strings: splitting and looking up *)

Lemma QString_isEmpty_true (s : string) : QString_isEmpty s = true <-> s = EmptyString.
Proof. destruct s; simpl; split; congruence. Qed.

Lemma QString_isEmpty_false (s : string) : QString_isEmpty s = false <-> s <> EmptyString.
Proof. destruct s; simpl; split; congruence. Qed.

Lemma split_keep_not_nil (s : string) : split_keep s <> [].
Proof.
  induction s as [|c s IH]; simpl; [discriminate|].
  destruct (Ascii.eqb c comma); [discriminate|].
  destruct (split_keep s); discriminate.
Qed.




Lemma split_keep_of_comma_free (s : string) : comma_free s -> split_keep s = [s].
Proof.
  induction s as [|c s IH]; simpl; [reflexivity|].
  intros [Hc Hs]. destruct (Ascii.eqb_spec c comma); [contradiction|].
  now rewrite (IH Hs).
Qed.

Lemma split_keep_app (a b : string) :
  split_keep (String.append a (String comma b)) = split_keep a ++ split_keep b.
Proof.
  induction a as [|c a IH]; simpl.
  - reflexivity.
  - destruct (Ascii.eqb c comma).
    + now rewrite IH.
    + rewrite IH. pose proof (split_keep_not_nil a).
      destruct (split_keep a); [congruence|reflexivity].
Qed.


Lemma indexOf_from_notin (l : list string) (s : string) (i : Z) :
  ~ In s l -> indexOf_from l s i = (-1)%Z.
Proof.
  revert i. induction l as [|x l IH]; intros i Hn; simpl; [reflexivity|].
  destruct (String.eqb_spec x s) as [->|_]; [exfalso; apply Hn; now left|].
  apply IH. intros H. apply Hn. now right.
Qed.

Lemma indexOf_from_in (l : list string) (s : string) (i : Z) :
  In s l ->
  (i <= indexOf_from l s i < i + Z.of_nat (length l))%Z
  /\ nth (Z.to_nat (indexOf_from l s i - i)) l EmptyString = s.
Proof.
  revert i. induction l as [|x l IH]; intros i Hin; [destruct Hin|].
  simpl indexOf_from. destruct (String.eqb_spec x s) as [->|Hne].
  - split; [simpl length; lia|]. now rewrite Z.sub_diag.
  - destruct Hin as [->|Hin]; [congruence|].
    destruct (IH (i + 1)%Z Hin) as [Hr Hnth]. split; [simpl length; lia|].
    replace (Z.to_nat (indexOf_from l s (i + 1) - i))
      with (S (Z.to_nat (indexOf_from l s (i + 1) - (i + 1)))) by lia.
    exact Hnth.
Qed.

(** The index found is the first position that carries the name. *)
Lemma indexOf_from_first (l : list string) (j : nat) (i : Z) :
  j < length l ->
  (forall k, k < j -> nth k l EmptyString <> nth j l EmptyString) ->
  indexOf_from l (nth j l EmptyString) i = (i + Z.of_nat j)%Z.
Proof.
  revert j i. induction l as [|x l IH]; intros j i Hj Hfirst; [simpl in Hj; lia|].
  destruct j as [|j]; simpl.
  - rewrite String.eqb_refl. lia.
  - destruct (String.eqb_spec x (nth j l EmptyString)) as [E|_].
    + exfalso. apply (Hfirst 0); [lia|exact E].
    + rewrite IH; [lia|simpl in Hj; lia|].
      intros k Hk. apply (Hfirst (S k)). lia.
Qed.

Lemma indexOf_found (l : list string) (s : string) :
  In s l ->
  (0 <= indexOf l s < Z.of_nat (length l))%Z
  /\ nth (Z.to_nat (indexOf l s)) l EmptyString = s.
Proof.
  intros Hin. destruct (indexOf_from_in l s 0 Hin) as [Hr Hn]. unfold indexOf.
  rewrite Z.sub_0_r in Hn. split; [lia|exact Hn].
Qed.

Lemma indexOf_not_found (l : list string) (s : string) :
  indexOf l s = (-1)%Z <-> ~ In s l.
Proof.
  split.
  - intros H Hin. destruct (indexOf_found l s Hin). lia.
  - apply indexOf_from_notin.
Qed.

Lemma NoDup_nth_first (l : list string) (j : nat) :
  List.NoDup l -> j < length l ->
  forall k, k < j -> nth k l EmptyString <> nth j l EmptyString.
Proof.
  intros Hnd Hj k Hk E.
  apply (proj1 (List.NoDup_nth l EmptyString) Hnd) in E; lia.
Qed.

(** ** EnumPropertyType: importing a flags string *)


Lemma flags_from_strings_known (vals segs : list string) (flags : Z) :
  (forall seg, In seg segs -> In seg vals) ->
  flags_from_strings vals segs flags
  = Some (Z.lor flags (or_all (List.map (fun seg => shl1 (indexOf vals seg)) segs))).
Proof.
  revert flags. induction segs as [|s segs IH]; intros flags Hall; simpl.
  - now rewrite Z.lor_0_r.
  - destruct (Z.eqb_spec (indexOf vals s) (-1)) as [E|_].
    + apply indexOf_not_found in E. exfalso. apply E, Hall. now left.
    + rewrite IH by (intros seg H; apply Hall; now right).
      now rewrite Z.lor_assoc.
Qed.

(** ** The bits of an int *)

Section Bits.

Local Open Scope Z_scope.

Lemma shl1_mod (j : Z) : shl1 j = shl1 (j mod 32).
Proof. unfold shl1. now rewrite Z.mod_mod. Qed.

Lemma shl1_small (j : Z) : 0 <= j < 31 -> shl1 j = 2 ^ j.
Proof.
  intros Hj. unfold shl1, wrap_int. rewrite (Z.mod_small j 32), Z.shiftl_1_l by lia.
  assert (0 < 2 ^ j) by (apply Z.pow_pos_nonneg; lia).
  assert (2 ^ j < 2 ^ 31) by (apply Z.pow_lt_mono_r; lia).
  rewrite Z.mod_small; lia.
Qed.

Lemma shl1_31 : shl1 31 = - 2 ^ 31.
Proof. reflexivity. Qed.

(** A shift by 32 is the shift by 0 again. *)
Lemma shl1_32 : shl1 32 = 1.
Proof. reflexivity. Qed.

Lemma testbit_sign (f k : Z) :
  0 <= k -> - 2 ^ k <= f < 2 ^ k -> Z.testbit f k = (f <? 0).
Proof.
  intros Hk Hf. rewrite Z.testbit_odd, Z.shiftr_div_pow2 by exact Hk.
  destruct (Z.ltb_spec f 0) as [Hneg|Hpos].
  - replace (f / 2 ^ k) with (-1); [reflexivity|].
    apply Z.div_unique with (r := f + 2 ^ k); lia.
  - rewrite Z.div_small by lia. reflexivity.
Qed.

Lemma testbit_int_high (f k : Z) :
  in_int f -> 0 <= k -> Z.testbit f k = Z.testbit f (Z.min k 31).
Proof.
  intros Hf Hk. unfold in_int, int_min, int_max in Hf.
  destruct (Z.lt_ge_cases k 31) as [Hlt|Hge].
  - now rewrite Z.min_l by lia.
  - rewrite Z.min_r by lia.
    assert (2 ^ 31 <= 2 ^ k) by (apply Z.pow_le_mono_r; lia).
    rewrite (testbit_sign f k), (testbit_sign f 31); lia.
Qed.

(** Bit [k] of [1 << j]: the bit [j mod 32] is set, and with bit 31 every
    bit above it (the value is negative). *)
Lemma shl1_testbit (j k : Z) :
  0 <= k -> Z.testbit (shl1 j) k = (j mod 32 =? Z.min k 31).
Proof.
  intros Hk. rewrite shl1_mod.
  assert (Hm : 0 <= j mod 32 < 32) by (apply Z.mod_pos_bound; lia).
  set (m := j mod 32) in *. clearbody m.
  destruct (Z.lt_ge_cases m 31) as [Hlt|Hge].
  - rewrite shl1_small, Z.pow2_bits_eqb by lia.
    destruct (Z.eqb_spec m k), (Z.eqb_spec m (Z.min k 31)); lia.
  - assert (m = 31) by lia. subst m.
    rewrite testbit_int_high by (unfold in_int, int_min, int_max; rewrite ?shl1_31; lia).
    destruct (Z.lt_ge_cases k 31) as [Hk31|Hk31].
    + rewrite Z.min_l by lia. rewrite shl1_31.
      change (- 2 ^ 31) with ((-1) * 2 ^ 31).
      rewrite Z.mul_pow2_bits_low by lia.
      destruct (Z.eqb_spec 31 k); lia.
    + rewrite Z.min_r by lia. reflexivity.
Qed.

(** The test [intValue & (1 << i)] of the export loop reads bit [i mod 32]. *)
Lemma land_shl1_zero (f j : Z) :
  in_int f -> 0 <= j -> (Z.land f (shl1 j) =? 0) = negb (int_testbit f j).
Proof.
  intros Hf Hj. unfold int_testbit.
  assert (Hm : 0 <= j mod 32 < 32) by (apply Z.mod_pos_bound; lia).
  destruct (Z.testbit f (j mod 32)) eqn:Hbit; simpl.
  - destruct (Z.eqb_spec (Z.land f (shl1 j)) 0) as [E|_]; [|reflexivity].
    assert (Hc : Z.testbit (Z.land f (shl1 j)) (j mod 32) = true).
    { rewrite Z.land_spec, Hbit, shl1_testbit by lia.
      rewrite Z.min_l by lia. simpl. apply Z.eqb_refl. }
    rewrite E, Z.bits_0 in Hc. discriminate.
  - apply Z.eqb_eq. apply Z.bits_inj'. intros k Hk.
    rewrite Z.land_spec, Z.bits_0, shl1_testbit by lia.
    destruct (Z.eqb_spec (j mod 32) (Z.min k 31)) as [E|_]; [|apply andb_false_r].
    rewrite testbit_int_high, <- E, Hbit by assumption. reflexivity.
Qed.

Lemma or_all_testbit (idxs : list Z) (k : Z) :
  0 <= k ->
  Z.testbit (or_all (List.map shl1 idxs)) k
  = existsb (fun j => j mod 32 =? Z.min k 31) idxs.
Proof.
  intros Hk. induction idxs as [|j idxs IH]; simpl.
  - apply Z.bits_0.
  - now rewrite Z.lor_spec, IH, shl1_testbit.
Qed.

Lemma valid_mask_testbit (n : nat) (k : Z) :
  0 <= k -> Z.testbit (valid_mask n) k = (Z.of_nat n <? 32) && (k <? Z.of_nat n)
                                         || negb (Z.of_nat n <? 32).
Proof.
  intros Hk. unfold valid_mask. destruct (Z.ltb_spec (Z.of_nat n) 32); simpl.
  - rewrite Z.testbit_ones_nonneg by lia. now rewrite orb_false_r.
  - apply Z.bits_m1, Hk.
Qed.

(** An integer whose bits from 31 on all equal bit 31 is a 32-bit int. *)
Lemma in_int_of_bits (x : Z) :
  (forall k, 31 <= k -> Z.testbit x k = Z.testbit x 31) -> in_int x.
Proof.
  intros Hhigh.
  assert (Hsmall : forall y, 0 <= y -> (forall k, 31 <= k -> Z.testbit y k = false) ->
                             y < 2 ^ 31).
  { intros y Hy Hbits. destruct (Z.eq_dec y 0) as [->|Hy0]; [reflexivity|].
    apply Z.log2_lt_pow2; [lia|].
    destruct (Z.lt_ge_cases (Z.log2 y) 31) as [|Hge]; [assumption|].
    pose proof (Z.bit_log2 y ltac:(lia)) as Hb.
    rewrite (Hbits (Z.log2 y) Hge) in Hb. discriminate. }
  unfold in_int, int_min, int_max.
  destruct (Z.testbit x 31) eqn:H31.
  - assert (Hneg : x < 0).
    { apply Z.bits_iff_neg_ex. exists 31. intros m Hm. now rewrite Hhigh by lia. }
    assert (Hy : Z.lnot x < 2 ^ 31).
    { apply Hsmall; [unfold Z.lnot; lia|].
      intros k Hk. rewrite Z.lnot_spec by lia. now rewrite Hhigh by lia. }
    unfold Z.lnot in Hy. lia.
  - assert (Hpos : 0 <= x).
    { apply Z.bits_iff_nonneg_ex. exists 31. intros m Hm. now rewrite Hhigh by lia. }
    assert (x < 2 ^ 31) by (apply Hsmall; [exact Hpos|intros k Hk; now rewrite Hhigh]).
    lia.
Qed.

(** An OR of shifts is a 32-bit int. *)
Lemma or_all_in_int (idxs : list Z) : in_int (or_all (List.map shl1 idxs)).
Proof.
  apply in_int_of_bits. intros k Hk.
  rewrite !or_all_testbit by lia.
  rewrite Z.min_r by lia. reflexivity.
Qed.

(** OR-ing [1 << j] over indices below [n] sets no bit that [n] names cannot
    name. *)
Lemma or_all_within_mask (idxs : list Z) (n : nat) :
  Forall (fun j => 0 <= j < Z.of_nat n) idxs ->
  Z.land (or_all (List.map shl1 idxs)) (valid_mask n) = or_all (List.map shl1 idxs).
Proof.
  intros Hall. apply Z.bits_inj'. intros k Hk.
  rewrite Z.land_spec, valid_mask_testbit, or_all_testbit by assumption.
  destruct (existsb _ idxs) eqn:Hex; [|reflexivity]. simpl.
  apply List.existsb_exists in Hex. destruct Hex as (j & Hin & Ej).
  apply Z.eqb_eq in Ej.
  pose proof (proj1 (List.Forall_forall _ _) Hall j Hin) as Hj. simpl in Hj.
  destruct (Z.ltb_spec (Z.of_nat n) 32); simpl; [|reflexivity].
  rewrite orb_false_r. apply Z.ltb_lt.
  rewrite Z.mod_small in Ej by lia. lia.
Qed.

(** OR-ing [1 << j] over the positions below [n] whose bit is set in [f] keeps
    of [f] the bits that [n] names can name. *)
Lemma or_all_set_bits_masked (f : Z) (n : nat) :
  in_int f ->
  or_all (List.map shl1 (List.filter (int_testbit f) (List.map Z.of_nat (seq 0 n))))
  = Z.land f (valid_mask n).
Proof.
  intros Hf. apply Z.bits_inj'. intros k Hk.
  rewrite or_all_testbit by exact Hk.
  rewrite Z.land_spec, valid_mask_testbit by exact Hk.
  rewrite (testbit_int_high f k Hf Hk).
  set (m := Z.min k 31). assert (Hm : 0 <= m < 32) by (subst m; lia).
  assert (Hin_iff : existsb (fun j => j mod 32 =? m)
                      (List.filter (int_testbit f) (List.map Z.of_nat (seq 0 n))) = true
                    <-> Z.testbit f m = true /\ (m < Z.of_nat n \/ 32 <= Z.of_nat n)).
  { rewrite List.existsb_exists. split.
    - intros (j & Hin & Ej). apply Z.eqb_eq in Ej.
      apply List.filter_In in Hin. destruct Hin as [Hin Hbit].
      apply List.in_map_iff in Hin. destruct Hin as (x & Hx & Hseq).
      apply List.in_seq in Hseq. unfold int_testbit in Hbit. rewrite Ej in Hbit.
      split; [exact Hbit|].
      destruct (Z.lt_ge_cases (Z.of_nat n) 32) as [Hn|Hn]; [left|now right].
      rewrite Z.mod_small in Ej by lia. lia.
    - intros [Hbit Hor]. destruct (Z.lt_ge_cases m (Z.of_nat n)) as [Hlt|Hge].
      + exists m. split; [|rewrite Z.mod_small by lia; apply Z.eqb_refl].
        apply List.filter_In. split.
        * apply List.in_map_iff. exists (Z.to_nat m). split; [lia|].
          apply List.in_seq. lia.
        * unfold int_testbit. now rewrite Z.mod_small by lia.
      + lia. }
  destruct (existsb _ _) eqn:Hex.
  - destruct (proj1 Hin_iff eq_refl) as [Hbit Hlt]. rewrite Hbit. simpl. symmetry.
    destruct (Z.ltb_spec (Z.of_nat n) 32); simpl; [|reflexivity].
    rewrite orb_false_r. apply Z.ltb_lt. subst m. lia.
  - destruct (Z.testbit f m) eqn:Hbit; [|reflexivity]. simpl. symmetry.
    destruct (Z.ltb_spec (Z.of_nat n) 32) as [Hn|Hn]; simpl.
    + rewrite orb_false_r. apply Z.ltb_ge.
      destruct (Z.lt_ge_cases m (Z.of_nat n)) as [Hlt|Hge].
      * discriminate (proj2 Hin_iff (conj eq_refl (or_introl Hlt))).
      * subst m. lia.
    + assert (Hlt : m < Z.of_nat n) by lia.
      discriminate (proj2 Hin_iff (conj eq_refl (or_introl Hlt))).
Qed.

(** A mask with no bit from [n] on lies within the bits [n] names can name. *)
Lemma land_valid_mask (f : Z) (n : nat) :
  in_int f ->
  (forall k, Z.of_nat n <= k < 32 -> Z.testbit f k = false) ->
  Z.land f (valid_mask n) = f.
Proof.
  intros Hf Hclear. apply Z.bits_inj'. intros k Hk.
  rewrite Z.land_spec, valid_mask_testbit by exact Hk.
  destruct (Z.ltb_spec (Z.of_nat n) 32) as [Hn|Hn]; simpl; [|apply andb_true_r].
  rewrite orb_false_r. destruct (Z.ltb_spec k (Z.of_nat n)); [apply andb_true_r|].
  rewrite andb_false_r, (testbit_int_high f k Hf Hk). symmetry. apply Hclear. lia.
Qed.

(** OR-ing [1 << j] over the set bits below [n] gives the mask back when no
    bit from [n] on is set. *)
Lemma or_all_set_bits (f : Z) (n : nat) :
  in_int f ->
  (forall k, Z.of_nat n <= k < 32 -> Z.testbit f k = false) ->
  or_all (List.map shl1 (List.filter (int_testbit f) (List.map Z.of_nat (seq 0 n)))) = f.
Proof.
  intros Hf Hclear. rewrite or_all_set_bits_masked by exact Hf.
  now apply land_valid_mask.
Qed.

End Bits.

(** ** EnumPropertyType: the mask of a flags string *)



(** ** EnumPropertyType: export and import again *)

Section EnumRoundTrip.

Variable ExportContext_toExportValue : ExportContext -> QVariant -> ExportValue.
Hypothesis host_plain : exports_plain_values ExportContext_toExportValue.

Lemma PropertyType_toExportValue_plain_string (this : PropertyTypeBase) (s : string)
    (context : ExportContext) :
  ev_value (PropertyType_toExportValue ExportContext_toExportValue this (VString s) context)
  = VString s.
Proof. exact (host_plain context (VString s)). Qed.

Lemma PropertyType_toExportValue_plain_int (this : PropertyTypeBase) (n : Z)
    (context : ExportContext) :
  ev_value (PropertyType_toExportValue ExportContext_toExportValue this (VInt n) context)
  = VInt n.
Proof. exact (host_plain context (VInt n)). Qed.

(** C7, amended.  Without [valuesAsFlags], exporting the index [i] stored in a
    wrapped value and importing the result gives the wrapped [i] back, for
    every valid index [i], when the enum is stored as an integer or the name
    at [i] does not stand at a smaller index as well. *)
Theorem EnumPropertyType_index_round_trip (this : EnumPropertyType) (i : Z)
    (context : ExportContext) :
  valuesAsFlags this = false ->
  (0 <= i < Z.of_nat (length (values this)))%Z ->
  (storageType this = StringValue ->
   forall k, k < Z.to_nat i ->
     nth k (values this) EmptyString <> nth (Z.to_nat i) (values this) EmptyString) ->
  EnumPropertyType_toPropertyValue this
    (ev_value (EnumPropertyType_toExportValue ExportContext_toExportValue this
                 (PropertyValue_value (PropertyType_wrap (enum_base this) (VInt i)))
                 context))
  = PropertyType_wrap (enum_base this) (VInt i).
Proof.
  intros Hflags Hi Hfirst. simpl PropertyValue_value.
  unfold EnumPropertyType_toExportValue.
  destruct (storageType this) eqn:Hst.
  - rewrite PropertyType_toExportValue_plain_int. reflexivity.
  - rewrite Hflags.
    destruct (Z.leb_spec 0 i); [|lia].
    destruct (Z.ltb_spec i (Z.of_nat (length (values this)))); [|lia].
    simpl andb. cbv iota. rewrite PropertyType_toExportValue_plain_string.
    unfold EnumPropertyType_toPropertyValue. rewrite Hflags.
    unfold QStringList_indexOf.
    rewrite indexOf_from_first; [|lia|apply Hfirst; reflexivity].
    rewrite Z.add_0_l, Z2Nat.id by lia.
    destruct (Z.eqb_spec i (-1)); [lia|reflexivity].
Qed.

Lemma join_comma_nonempty (l : list string) :
  l <> [] -> Forall (fun s => s <> EmptyString) l -> join_comma l <> EmptyString.
Proof.
  intros Hl Hall. destruct Hall as [|x l Hx Hall]; [congruence|].
  destruct l; simpl; [exact Hx|].
  destruct x; [congruence|discriminate].
Qed.

Lemma append_assoc (a b c : string) :
  String.append a (String.append b c) = String.append (String.append a b) c.
Proof.
  induction a as [|x a IH]; [reflexivity|].
  change (String x (String.append a (String.append b c))
          = String x (String.append (String.append a b) c)).
  now rewrite IH.
Qed.

Lemma join_comma_snoc (l : list string) (v : string) :
  l <> [] ->
  join_comma (l ++ [v]) = String.append (String.append (join_comma l) (String comma EmptyString)) v.
Proof.
  induction l as [|x l IH]; intros Hl; [congruence|].
  destruct l as [|y l].
  - simpl. rewrite <- append_assoc. reflexivity.
  - change (join_comma ((x :: y :: l) ++ [v]))
      with (String.append x (String comma (join_comma ((y :: l) ++ [v])))).
    rewrite IH by discriminate.
    change (join_comma (x :: y :: l))
      with (String.append x (String comma (join_comma (y :: l)))).
    rewrite <- !append_assoc. reflexivity.
Qed.

(** The export loop builds the comma-joined string of the names whose bit is
    set. *)
Lemma flags_to_string_join (f : Z) (rest built : list string) (i : Z) :
  in_int f -> (0 <= i)%Z ->
  Forall (fun s => s <> EmptyString) built ->
  Forall (fun s => s <> EmptyString) rest ->
  flags_to_string f rest i (join_comma built)
  = join_comma (built ++ names_of_bits f rest i).
Proof.
  intros Hf. revert built i.
  induction rest as [|v rest IH]; intros built i Hi Hbuilt Hrest; simpl.
  - now rewrite List.app_nil_r.
  - inversion Hrest as [|? ? Hv Hrest']; subst.
    rewrite land_shl1_zero by assumption.
    destruct (int_testbit f i); simpl negb; cbv iota.
    + replace (built ++ v :: names_of_bits f rest (i + 1))
        with ((built ++ [v]) ++ names_of_bits f rest (i + 1))
        by (rewrite <- List.app_assoc; reflexivity).
      rewrite <- IH; [|lia|apply List.Forall_app; split; [assumption|now constructor]
                     |assumption].
      f_equal. destruct built as [|b built].
      * reflexivity.
      * rewrite (proj2 (QString_isEmpty_false _)).
        -- rewrite join_comma_snoc by discriminate. reflexivity.
        -- apply join_comma_nonempty; [discriminate|assumption].
    + apply IH; [lia|assumption|assumption].
Qed.

Lemma split_skip_join (names : list string) :
  Forall flag_name names -> split_skip (join_comma names) = names.
Proof.
  unfold split_skip. induction 1 as [|x names [Hx Hcf] Hall IH]; [reflexivity|].
  destruct names as [|y names].
  - simpl join_comma. rewrite split_keep_of_comma_free by exact Hcf. simpl.
    now rewrite (proj2 (QString_isEmpty_false x) Hx).
  - change (join_comma (x :: y :: names))
      with (String.append x (String comma (join_comma (y :: names)))).
    rewrite split_keep_app, split_keep_of_comma_free by exact Hcf.
    simpl. rewrite (proj2 (QString_isEmpty_false x) Hx). simpl.
    f_equal. exact IH.
Qed.

(** Up to 32 names the export loop tests the bit of each name's own
    position. *)
Lemma names_of_bits_defined (f : Z) (rest : list string) (i : Z) :
  (0 <= i)%Z -> (i + Z.of_nat (length rest) <= 32)%Z ->
  names_of_bits f rest i = names_of_set_bits f rest i.
Proof.
  revert i. induction rest as [|v rest IH]; intros i Hi Hlen; [reflexivity|].
  simpl length in Hlen. simpl. unfold int_testbit.
  rewrite Z.mod_small by lia. rewrite IH by lia. reflexivity.
Qed.

Lemma names_of_bits_In (f : Z) (rest : list string) (i : Z) (s : string) :
  In s (names_of_bits f rest i) -> In s rest.
Proof.
  revert i. induction rest as [|v rest IH]; intros i; simpl; [tauto|].
  destruct (int_testbit f i); simpl; intros H.
  - destruct H as [->|H]; [now left|right; eauto].
  - right; eauto.
Qed.

Lemma indexOf_from_app_fresh (pre rest : list string) (v : string) (i : Z) :
  ~ In v pre -> indexOf_from (pre ++ v :: rest) v i = (i + Z.of_nat (length pre))%Z.
Proof.
  revert i. induction pre as [|x pre IH]; intros i Hn; simpl.
  - rewrite String.eqb_refl. lia.
  - destruct (String.eqb_spec x v) as [->|_]; [exfalso; apply Hn; now left|].
    rewrite IH by (intros H; apply Hn; now right). lia.
Qed.

(** Looking the selected names up again finds their own indices when no name
    occurs twice. *)
Lemma indexOf_names_of_bits (f : Z) (pre rest : list string) :
  List.NoDup (pre ++ rest) ->
  List.map (indexOf (pre ++ rest)) (names_of_bits f rest (Z.of_nat (length pre)))
  = List.filter (int_testbit f) (List.map Z.of_nat (seq (length pre) (length rest))).
Proof.
  revert pre. induction rest as [|v rest IH]; intros pre Hnd; [reflexivity|].
  assert (Htail :
    List.map (indexOf (pre ++ v :: rest))
      (names_of_bits f rest (Z.of_nat (length pre) + 1))
    = List.filter (int_testbit f)
        (List.map Z.of_nat (seq (S (length pre)) (length rest)))).
  { specialize (IH (pre ++ [v])).
    rewrite <- List.app_assoc in IH. simpl in IH.
    rewrite List.length_app in IH. simpl in IH.
    replace (length pre + 1) with (S (length pre)) in IH by lia.
    replace (Z.of_nat (length pre) + 1)%Z with (Z.of_nat (S (length pre))) by lia.
    apply IH, Hnd. }
  simpl. destruct (int_testbit f (Z.of_nat (length pre))); simpl.
  - rewrite Htail. f_equal.
    unfold indexOf. rewrite indexOf_from_app_fresh; [lia|].
    apply List.NoDup_remove_2 in Hnd. intros H. apply Hnd.
    apply List.in_or_app. now left.
  - exact Htail.
Qed.

(** C8, amended.  With [valuesAsFlags] and string storage, when [values] has
    at most 32 names (so that every shift [1 << i] is one the language
    defines), each name once, and every name is non-empty and free of commas,
    every flag mask [f] (an int whose bits from [length values] on are clear)
    exports as the comma-joined string of the names whose bit is set, in
    ascending index order (the empty string for no bit), and importing that
    string gives the wrapped [f] back. *)
Theorem EnumPropertyType_flags_round_trip (this : EnumPropertyType) (f : Z)
    (context : ExportContext) :
  valuesAsFlags this = true ->
  storageType this = StringValue ->
  (length (values this) <= 32)%nat ->
  List.NoDup (values this) ->
  Forall flag_name (values this) ->
  in_int f ->
  (forall k, (Z.of_nat (length (values this)) <= k < 32)%Z -> Z.testbit f k = false) ->
  let exported :=
    ev_value (EnumPropertyType_toExportValue ExportContext_toExportValue this
                (PropertyValue_value (PropertyType_wrap (enum_base this) (VInt f)))
                context) in
  exported = VString (join_comma (names_of_set_bits f (values this) 0))
  /\ EnumPropertyType_toPropertyValue this exported
     = PropertyType_wrap (enum_base this) (VInt f).
Proof.
  intros Hflags Hst Hlen Hnd Hnames Hf Hclear exported.
  rewrite <- (names_of_bits_defined f (values this) 0) by lia.
  assert (Hexp : exported = VString (join_comma (names_of_bits f (values this) 0))).
  { subst exported. simpl PropertyValue_value. unfold EnumPropertyType_toExportValue.
    rewrite Hst, Hflags, PropertyType_toExportValue_plain_string. f_equal.
    apply (flags_to_string_join f (values this) [] 0 Hf); [lia|constructor|].
    eapply List.Forall_impl; [|exact Hnames]. intros s [H _]. exact H. }
  split; [exact Hexp|]. rewrite Hexp.
  unfold EnumPropertyType_toPropertyValue. rewrite Hflags.
  rewrite split_skip_join.
  - rewrite flags_from_strings_known by (intros seg; apply names_of_bits_In).
    rewrite Z.lor_0_l, <- List.map_map.
    pose proof (indexOf_names_of_bits f [] (values this) Hnd) as Hidx.
    change (Z.of_nat (length (@nil string))) with 0%Z in Hidx.
    change (@nil string ++ values this) with (values this) in Hidx.
    rewrite Hidx.
    now rewrite or_all_set_bits.
  - apply List.Forall_forall. intros s Hs.
    apply (proj1 (List.Forall_forall _ _) Hnames), (names_of_bits_In _ _ _ _ Hs).
Qed.

End EnumRoundTrip.

Lemma plain_toExportValue_plain : exports_plain_values plain_toExportValue.
Proof. intros context [] ; exact I || reflexivity. Qed.

Lemma EnumPropertyType_index_round_trip_witness :
  EnumPropertyType_toPropertyValue
    (mkEnum (mkBase 2 "Dir") StringValue ["N"; "E"; "S"]%string false)
    (ev_value (EnumPropertyType_toExportValue plain_toExportValue
                 (mkEnum (mkBase 2 "Dir") StringValue ["N"; "E"; "S"]%string false)
                 (PropertyValue_value (VPropertyValue (VInt 2) 2)) empty_context))
  = VPropertyValue (VInt 2) 2.
Proof.
  apply (EnumPropertyType_index_round_trip plain_toExportValue plain_toExportValue_plain
           (mkEnum (mkBase 2 "Dir") StringValue ["N"; "E"; "S"]%string false) 2
           empty_context).
  - reflexivity.
  - simpl. lia.
  - intros _ k Hk. simpl in Hk.
    destruct k as [|[|k]]; simpl; [discriminate|discriminate|lia].
Defined.

(** C7 as stated fails: with string storage and the name "A" at both indices,
    index 1 exports as "A" and imports as index 0. *)
Lemma EnumPropertyType_index_round_trip_duplicate_name :
  ~ (forall (this : EnumPropertyType) (i : Z),
       valuesAsFlags this = false ->
       (0 <= i < Z.of_nat (length (values this)))%Z ->
       EnumPropertyType_toPropertyValue this
         (ev_value (EnumPropertyType_toExportValue plain_toExportValue this
                      (PropertyValue_value (PropertyType_wrap (enum_base this) (VInt i)))
                      empty_context))
       = PropertyType_wrap (enum_base this) (VInt i)).
Proof.
  intros H.
  specialize (H (mkEnum (mkBase 1 "E") StringValue ["A"; "A"]%string false) 1%Z eq_refl).
  simpl in H. discriminate H. lia.
Qed.

Lemma EnumPropertyType_flags_round_trip_witness :
  EnumPropertyType_toPropertyValue
    (mkEnum (mkBase 3 "Sides") StringValue ["L"; "R"; "T"]%string true)
    (VString "L,T")
  = VPropertyValue (VInt 5) 3.
Proof.
  pose proof (EnumPropertyType_flags_round_trip plain_toExportValue
                plain_toExportValue_plain
                (mkEnum (mkBase 3 "Sides") StringValue ["L"; "R"; "T"]%string true) 5
                empty_context eq_refl eq_refl) as H.
  simpl in H. apply H.
  - lia.
  - repeat constructor; simpl; intros H'; decompose [or] H'; discriminate || assumption.
  - repeat constructor; discriminate.
  - unfold in_int, int_min, int_max. lia.
  - intros k Hk.
    assert (Hcases : k = 3%Z \/ (4 <= k < 32)%Z) by lia.
    destruct Hcases as [->|Hk4]; [reflexivity|].
    rewrite Z.bits_above_log2; [reflexivity|lia|].
    change (Z.log2 5) with 2%Z. lia.
Defined.

(** C8 as stated fails: a name with a comma in it ("A,B", the only name, so
    no name occurs twice) exports whole and is split on import, and neither
    piece is a name, so the string comes back in place of the mask 1. *)
Lemma EnumPropertyType_flags_round_trip_comma_name :
  ~ (forall (this : EnumPropertyType) (f : Z),
       valuesAsFlags this = true ->
       storageType this = StringValue ->
       List.NoDup (values this) ->
       in_int f ->
       (forall k, (Z.of_nat (length (values this)) <= k < 32)%Z -> Z.testbit f k = false) ->
       EnumPropertyType_toPropertyValue this
         (ev_value (EnumPropertyType_toExportValue plain_toExportValue this
                      (PropertyValue_value (PropertyType_wrap (enum_base this) (VInt f)))
                      empty_context))
       = PropertyType_wrap (enum_base this) (VInt f)).
Proof.
  intros H.
  specialize (H (mkEnum (mkBase 1 "E") StringValue ["A,B"]%string true) 1%Z
                eq_refl eq_refl).
  simpl in H. discriminate H.
  - repeat constructor. simpl. tauto.
  - unfold in_int, int_min, int_max. lia.
  - intros k Hk. rewrite Z.bits_above_log2; [reflexivity|lia|].
    change (Z.log2 1) with 0%Z. lia.
Qed.

(** An empty name is lost the same way as one with a comma: it exports as
    the empty string, which imports as the empty mask. *)
Lemma EnumPropertyType_flags_round_trip_empty_name :
  EnumPropertyType_toPropertyValue
    (mkEnum (mkBase 1 "E") StringValue [EmptyString] true)
    (ev_value (EnumPropertyType_toExportValue plain_toExportValue
                 (mkEnum (mkBase 1 "E") StringValue [EmptyString] true) (VInt 1)
                 empty_context))
  = VPropertyValue (VInt 0) 1.
Proof. reflexivity. Qed.

(** ** ClassPropertyType: importing a value *)

Lemma depth_entry (m : QVariantMap) (key : string) (v : QVariant) :
  In (key, v) m -> depth v < depth (VMap m).
Proof.
  simpl. induction m as [|[k x] m IH]; intros Hin; [destruct Hin|].
  simpl. destruct Hin as [E|Hin].
  - injection E as -> ->. lia.
  - specialize (IH Hin). lia.
Qed.

Section ClassValues.

Variable ExportContext_toPropertyValue : ExportContext -> QVariant -> MetaType -> QVariant.

Local Abbreviation toPropertyValue_ := (toPropertyValue ExportContext_toPropertyValue).
Local Abbreviation entry_ := (toPropertyValue_entry ExportContext_toPropertyValue).

Lemma toPropertyValue_entry_key dispatch (this : ClassPropertyType)
    (context : ExportContext) (entry result : string * QVariant) :
  entry_ dispatch this context entry = Some result -> fst result = fst entry.
Proof.
  destruct entry as [key v]. unfold toPropertyValue_entry.
  destruct (negb (isValid (QMap_value (members this) key))); [now intros [= <-]|].
  destruct (QMap_value (members this) key); try (now intros [= <-]).
  destruct (PropertyTypes_findTypeById (ctx_types context) typeId) as [[p t]|];
    [|now intros [= <-]].
  destruct (dispatch t _); [now intros [= <-]|discriminate].
Qed.

(** A member that the class does not declare is passed over: the entry
    stays as it is. *)
Lemma toPropertyValue_entry_stale dispatch (this : ClassPropertyType)
    (context : ExportContext) (key : string) (v : QVariant) :
  isValid (QMap_value (members this) key) = false ->
  entry_ dispatch this context (key, v) = Some (key, v).
Proof. intros H. unfold toPropertyValue_entry. now rewrite H. Qed.

Lemma toPropertyValue_entry_is_Some dispatch (this : ClassPropertyType)
    (context : ExportContext) (key : string) (v : QVariant) :
  (forall t hint, is_Some (dispatch t (ExportContext_toPropertyValue context v hint))) ->
  is_Some (entry_ dispatch this context (key, v)).
Proof.
  intros Hd. unfold toPropertyValue_entry.
  destruct (negb (isValid (QMap_value (members this) key))); [eauto|].
  destruct (QMap_value (members this) key) eqn:E; eauto.
  destruct (PropertyTypes_findTypeById (ctx_types context) typeId) as [[p t]|]; eauto.
  destruct (Hd t (userType (VPropertyValue q typeId))) as [r Hr].
  simpl in Hr |- *. rewrite Hr. eauto.
Qed.

(** The conversion returns when the fuel exceeds the nesting depth of the
    value, provided the host does not deepen values. *)
Lemma toPropertyValue_total (fuel : nat) (this : PropertyType) (value : QVariant)
    (context : ExportContext) :
  conversion_keeps_depth ExportContext_toPropertyValue ->
  depth value < fuel ->
  is_Some (toPropertyValue_ fuel this value context).
Proof.
  intros Hhost. revert this value.
  induction fuel as [|fuel IH]; intros this value Hd; [lia|].
  destruct this as [e|c]; simpl; [eauto|].
  match goal with |- is_Some (match ?m with _ => _ end) =>
    assert (Hm : is_Some m); [|destruct Hm as [ps ->]; eauto] end.
  apply mapM_is_Some, List.Forall_forall. intros [key v] Hin.
  apply toPropertyValue_entry_is_Some. intros t hint. apply IH.
  destruct value; simpl in Hin; try contradiction.
  pose proof (depth_entry _ _ _ Hin). pose proof (Hhost context v hint). lia.
Qed.

Lemma toPropertyValue_Class_shape (fuel : nat) (this : ClassPropertyType)
    (value result : QVariant) (context : ExportContext) :
  toPropertyValue_ fuel (Class this) value context = Some result ->
  exists properties,
    result = PropertyType_wrap (class_base this) (VMap properties)
    /\ QMap_keys properties = QMap_keys (toMap value)
    /\ (forall j key v, toMap value !! j = Some (key, v) ->
          isValid (QMap_value (members this) key) = false ->
          properties !! j = Some (key, v)).
Proof.
  destruct fuel as [|fuel]; [discriminate|]. simpl.
  destruct (mapM _ (toMap value)) as [properties|] eqn:Hm; [|discriminate].
  intros [= <-]. exists properties. split; [reflexivity|].
  apply mapM_Some in Hm. split.
  - unfold QMap_keys. induction Hm as [|x y l k Hxy _ IH]; [reflexivity|].
    simpl. rewrite IH. f_equal.
    apply (toPropertyValue_entry_key _ _ _ _ _ Hxy).
  - intros j key v Hj Hstale.
    destruct (Forall2_lookup_l _ _ _ _ _ Hm Hj) as (y & Hy & Hxy).
    rewrite toPropertyValue_entry_stale in Hxy by exact Hstale.
    now injection Hxy as <-.
Qed.

(** C1, amended.  What [toPropertyValue] of a class returns is a wrapped
    mapping that has exactly the keys of the input mapping, in the same order:
    a key that the class's members do not declare is passed over by the
    conversion and kept with its value unchanged.  It does return, with no
    error, given fuel beyond the nesting depth of the value and a host that
    does not deepen values. *)
Theorem ClassPropertyType_toPropertyValue_keeps_keys (fuel : nat)
    (this : ClassPropertyType) (value : QVariant) (context : ExportContext) :
  (forall result,
     ClassPropertyType_toPropertyValue ExportContext_toPropertyValue fuel this value context
     = Some result ->
     exists properties,
       result = PropertyType_wrap (class_base this) (VMap properties)
       /\ QMap_keys properties = QMap_keys (toMap value)
       /\ (forall j key v, toMap value !! j = Some (key, v) ->
             isValid (QMap_value (members this) key) = false ->
             properties !! j = Some (key, v)))
  /\ (conversion_keeps_depth ExportContext_toPropertyValue ->
      depth value < fuel ->
      exists properties,
        ClassPropertyType_toPropertyValue ExportContext_toPropertyValue fuel this value
          context
        = Some (PropertyType_wrap (class_base this) (VMap properties))
        /\ QMap_keys properties = QMap_keys (toMap value)
        /\ (forall j key v, toMap value !! j = Some (key, v) ->
              isValid (QMap_value (members this) key) = false ->
              properties !! j = Some (key, v))).
Proof.
  unfold ClassPropertyType_toPropertyValue. split.
  - intros result. apply toPropertyValue_Class_shape.
  - intros Hhost Hfuel.
    destruct (toPropertyValue_total fuel (Class this) value context Hhost Hfuel)
      as [result Hr].
    destruct (toPropertyValue_Class_shape _ _ _ _ _ Hr) as (properties & -> & Hk & Hs).
    exists properties. auto.
Qed.

(** C10.  [toPropertyValue] of a class on a value that is not a mapping
    returns the empty mapping wrapped with the class's id, whatever the value
    was; [toPropertyValue] of an enum wraps a value it does not recognise (not
    a string, or a string that is not one of its names) unchanged. *)
Theorem ClassPropertyType_toPropertyValue_not_a_map (fuel : nat)
    (this : ClassPropertyType) (value : QVariant) (context : ExportContext) :
  (forall m, value <> VMap m) ->
  ClassPropertyType_toPropertyValue ExportContext_toPropertyValue (S fuel) this value context
  = Some (VPropertyValue (VMap []) (id (class_base this)))
  /\ (forall e : EnumPropertyType, (forall s, value <> VString s) ->
        EnumPropertyType_toPropertyValue e value = VPropertyValue value (id (enum_base e)))
  /\ (forall (e : EnumPropertyType) (s : string),
        valuesAsFlags e = false -> ~ In s (values e) ->
        EnumPropertyType_toPropertyValue e (VString s)
        = VPropertyValue (VString s) (id (enum_base e))).
Proof.
  intros Hnot. repeat split.
  - unfold ClassPropertyType_toPropertyValue. simpl.
    destruct value; try reflexivity. now destruct (Hnot m).
  - intros e Hs. destruct value; try reflexivity. now destruct (Hs s).
  - intros e s Hflags Hn. unfold EnumPropertyType_toPropertyValue.
    rewrite Hflags. change (QStringList_indexOf (values e) s) with (indexOf (values e) s).
    rewrite (proj2 (indexOf_not_found _ _) Hn). reflexivity.
Qed.

End ClassValues.

Lemma plain_toPropertyValue_keeps_depth : conversion_keeps_depth plain_toPropertyValue.
Proof. intros context v hint. apply Nat.le_refl. Qed.

Lemma ClassPropertyType_toPropertyValue_keeps_keys_witness :
  exists properties,
    ClassPropertyType_toPropertyValue plain_toPropertyValue 2
      (mkClass (mkBase 1 "Point") [("x"%string, VInt 0)])
      (VMap [("x"%string, VInt 3); ("y"%string, VInt 4)]) empty_context
    = Some (VPropertyValue (VMap properties) 1)
    /\ QMap_keys properties = ["x"; "y"]%string
    /\ properties !! 1 = Some ("y"%string, VInt 4).
Proof.
  destruct (ClassPropertyType_toPropertyValue_keeps_keys plain_toPropertyValue 2
              (mkClass (mkBase 1 "Point") [("x"%string, VInt 0)])
              (VMap [("x"%string, VInt 3); ("y"%string, VInt 4)]) empty_context)
    as [_ H].
  destruct (H plain_toPropertyValue_keeps_depth) as (properties & Hr & Hk & Hs).
  - simpl. lia.
  - exists properties. split; [exact Hr|]. split; [exact Hk|].
    apply (Hs 1 "y"%string (VInt 4)); reflexivity.
Defined.

(** C1 as stated fails: the class declares only "x", and the key "y" of the
    input mapping is still in the result. *)
Lemma ClassPropertyType_toPropertyValue_stale_key_kept :
  ~ (forall (this : ClassPropertyType) (value : QVariant) (properties : QVariantMap)
            (key : string),
       ClassPropertyType_toPropertyValue plain_toPropertyValue 2 this value empty_context
       = Some (PropertyType_wrap (class_base this) (VMap properties)) ->
       In key (QMap_keys properties) ->
       QMap_contains (members this) key = true).
Proof.
  intros H.
  specialize (H (mkClass (mkBase 1 "Point") [("x"%string, VInt 0)])
                (VMap [("x"%string, VInt 3); ("y"%string, VInt 4)])
                [("x"%string, VInt 3); ("y"%string, VInt 4)] "y"%string eq_refl).
  simpl in H. discriminate H. tauto.
Qed.

Lemma ClassPropertyType_toPropertyValue_not_a_map_witness :
  ClassPropertyType_toPropertyValue plain_toPropertyValue 1
    (mkClass (mkBase 1 "Point") [("x"%string, VInt 0)]) (VString "3,4") empty_context
  = Some (VPropertyValue (VMap []) 1).
Proof.
  apply (ClassPropertyType_toPropertyValue_not_a_map plain_toPropertyValue 0
           (mkClass (mkBase 1 "Point") [("x"%string, VInt 0)]) (VString "3,4")
           empty_context).
  discriminate.
Defined.

(** ** ClassPropertyType: canAddMemberOfType *)

Section CanAdd.

Variable types : PropertyTypes.
Variable this : nat.

Local Abbreviation canAdd := (fun fuel => ClassPropertyType_canAddMemberOfType fuel types this).

Lemma PropertyValue_type_valid (typeId : Z) (q : nat) :
  PropertyValue_type types typeId = Some q -> q < length types.
Proof.
  unfold PropertyValue_type, PropertyTypes_findTypeById.
  destruct (list_find _ types) as [[p t]|] eqn:E; [|discriminate].
  intros [= <-]. apply list_find_Some in E. destruct E as [E _].
  eapply lookup_lt_Some, E.
Qed.

Lemma contains_containment (p q : nat) :
  contains types p q -> (p, q) ∈ containment types.
Proof.
  intros (c & key & value & typeId & Hp & Hin & Hq).
  unfold containment. apply list_elem_of_join.
  exists (member_edges types p (Class c)). split.
  - simpl. apply list_elem_of_omap. exists (key, VPropertyValue value typeId).
    split; [now apply list_elem_of_In|]. simpl. now rewrite Hq.
  - apply elem_of_lookup_imap. eauto.
Qed.

(** A registry whose every containment edge leads to a smaller position has
    no cycle. *)
Lemma acyclic_by_positions :
  forallb (fun e : nat * nat => snd e <? fst e) (containment types) = true ->
  acyclic types.
Proof.
  intros Hall. assert (Hdown : forall p q, tc (contains types) p q -> q < p).
  { assert (Hedge : forall p q, contains types p q -> q < p).
    { intros p q H%contains_containment.
      rewrite List.forallb_forall in Hall. apply list_elem_of_In in H.
      specialize (Hall _ H). simpl in Hall. now apply Nat.ltb_lt in Hall. }
    induction 1 as [p q H|p q r H _ IH]; [now apply Hedge|].
    apply Hedge in H. lia. }
  intros p H%Hdown. lia.
Qed.

Lemma canAdd_members_false (check : nat -> option bool) (ms : list QVariant)
    (r : bool) :
  canAdd_members check types ms = Some r ->
  (exists value typeId q,
      In (VPropertyValue value typeId) ms
      /\ PropertyValue_type types typeId = Some q
      /\ forall r', check q = Some r' -> r' = false) ->
  r = false.
Proof.
  induction ms as [|member ms IH]; intros Hr (value & typeId & q & Hin & Hq & Hcheck).
  - destruct Hin.
  - assert (Hrest : In (VPropertyValue value typeId) ms ->
                    canAdd_members check types ms = Some r -> r = false).
    { intros Hin' Hr'. apply IH; [exact Hr'|]. exists value, typeId, q. auto. }
    destruct Hin as [->|Hin].
    + simpl in Hr. rewrite Hq in Hr.
      destruct (check q) as [[|]|] eqn:E; [|congruence|discriminate].
      specialize (Hcheck _ eq_refl). discriminate.
    + simpl in Hr. destruct member as [| | | | | |value' typeId']; auto.
      destruct (PropertyValue_type types typeId') as [q'|]; auto.
      destruct (check q') as [[|]|]; [auto|congruence|discriminate].
Qed.

(** Whenever the call returns for a candidate that is, or contains
    (transitively), the class under test, it returns false. *)
Lemma canAdd_sound (fuel : nat) (candidate : nat) (r : bool) :
  canAdd fuel candidate = Some r ->
  candidate = this \/ tc (contains types) candidate this ->
  r = false.
Proof.
  revert candidate r.
  induction fuel as [|fuel IH]; intros candidate r Hr Hreach; [discriminate|].
  simpl in Hr. destruct (Nat.eqb_spec candidate this) as [_|Hne]; [congruence|].
  destruct Hreach as [?|Hreach]; [contradiction|].
  assert (Hstep : exists q, contains types candidate q
                            /\ (q = this \/ tc (contains types) q this)).
  { inversion Hreach; subst; eauto. }
  destruct Hstep as (q & (c & key & value & typeId & Hc & Hin & Hq) & Hq_this).
  rewrite Hc in Hr. eapply canAdd_members_false; [exact Hr|].
  exists value, typeId, q. split; [|split; [exact Hq|]].
  - apply List.in_map_iff. exists (key, VPropertyValue value typeId). auto.
  - intros r' Hr'. eapply IH; eauto.
Qed.

Lemma canAdd_members_is_Some (check : nat -> option bool) (ms : list QVariant) :
  (forall value typeId q,
      In (VPropertyValue value typeId) ms ->
      PropertyValue_type types typeId = Some q -> is_Some (check q)) ->
  is_Some (canAdd_members check types ms).
Proof.
  induction ms as [|member ms IH]; intros Hcheck; simpl; [eauto|].
  assert (Hrest : is_Some (canAdd_members check types ms)).
  { apply IH. intros value typeId q Hin. apply (Hcheck value). now right. }
  destruct member as [| | | | | |value typeId]; try exact Hrest.
  destruct (PropertyValue_type types typeId) as [q|] eqn:Hq; [|exact Hrest].
  destruct (Hcheck value typeId q (or_introl eq_refl) Hq) as [[|] ->]; eauto.
Qed.

Lemma distinct_positions_bound (l : list nat) (n : nat) :
  NoDup l -> (forall x, x ∈ l -> x < n) -> length l <= n.
Proof.
  intros Hnd Hlt. transitivity (length (seq 0 n)); [|now rewrite List.length_seq].
  apply submseteq_length, NoDup_submseteq; [exact Hnd|].
  intros x Hx. apply elem_of_seq. specialize (Hlt x Hx). lia.
Qed.

(** On an acyclic registry the recursion returns: the candidates on the call
    stack are distinct positions, so there are at most [length types] of
    them. *)
Lemma canAdd_total (fuel : nat) (stack : list nat) (candidate : nat) :
  acyclic types ->
  NoDup (candidate :: stack) ->
  (forall x, x ∈ candidate :: stack -> x < length types) ->
  (forall x, x ∈ stack -> tc (contains types) x candidate) ->
  length types <= fuel + length stack ->
  is_Some (canAdd fuel candidate).
Proof.
  intros Hacyclic. revert stack candidate.
  induction fuel as [|fuel IH]; intros stack candidate Hnd Hvalid Hpath Hfuel.
  - pose proof (distinct_positions_bound _ _ Hnd Hvalid) as Hb. simpl in Hb, Hfuel. lia.
  - simpl. destruct (Nat.eqb_spec candidate this) as [_|Hne]; [eauto|].
    destruct (lookup_lt_is_Some_2 types candidate) as [t Ht];
      [apply Hvalid; left|].
    rewrite Ht. destruct t as [e|c]; [eauto|].
    apply canAdd_members_is_Some. intros value typeId q Hin Hq.
    apply List.in_map_iff in Hin. destruct Hin as ([key member] & Hmember & Hin).
    simpl in Hmember. subst member.
    assert (Hedge : contains types candidate q) by (exists c, key, value, typeId; auto).
    apply (IH (candidate :: stack) q).
    + apply NoDup_cons. split; [|exact Hnd].
      intros Hq_in. apply elem_of_cons in Hq_in. destruct Hq_in as [->|Hq_in].
      * apply (Hacyclic candidate). now apply tc_once.
      * apply (Hacyclic q). eapply tc_r; [apply Hpath, Hq_in|exact Hedge].
    + intros x Hx. apply elem_of_cons in Hx. destruct Hx as [->|Hx]; [|now apply Hvalid].
      eapply PropertyValue_type_valid, Hq.
    + intros x Hx. apply elem_of_cons in Hx. destruct Hx as [->|Hx].
      * now apply tc_once.
      * eapply tc_r; [apply Hpath, Hx|exact Hedge].
    + simpl. lia.
Qed.

Lemma contains_valid_l (p q : nat) : contains types p q -> p < length types.
Proof. intros (c & _ & _ & _ & Hp & _). eapply lookup_lt_Some, Hp. Qed.

(** C5, amended.  [canAddMemberOfType] returns false when the candidate is
    the class itself and true for every candidate that is not a class (an
    enum).  For a class that contains, in one or more steps, a member typed as
    the class under test (so for a class B with a member typed as class A when
    A, transitively, contains a member typed as the class under test) it
    returns false whenever it returns; and it does return, with fuel of
    [length types], on every registry that keeps the invariant of the data
    model: no class contains itself, directly or transitively. *)
Theorem ClassPropertyType_canAddMemberOfType_spec :
  (forall fuel, ClassPropertyType_canAddMemberOfType (S fuel) types this this = Some false)
  /\ (forall fuel candidate c e,
        types !! this = Some (Class c) ->
        types !! candidate = Some (Enum e) ->
        ClassPropertyType_canAddMemberOfType (S fuel) types this candidate = Some true)
  /\ (forall fuel candidate r,
        tc (contains types) candidate this ->
        ClassPropertyType_canAddMemberOfType fuel types this candidate = Some r ->
        r = false)
  /\ (acyclic types ->
      forall candidate, tc (contains types) candidate this ->
      forall fuel, length types <= fuel ->
        ClassPropertyType_canAddMemberOfType fuel types this candidate = Some false)
  /\ (acyclic types ->
      forall B A, contains types B A -> tc (contains types) A this ->
      forall fuel, length types <= fuel ->
        ClassPropertyType_canAddMemberOfType fuel types this B = Some false).
Proof.
  assert (Hreach : acyclic types ->
            forall candidate, tc (contains types) candidate this ->
            forall fuel, length types <= fuel -> canAdd fuel candidate = Some false).
  { intros Hacyclic candidate Hpath fuel Hfuel.
    destruct (canAdd_total fuel [] candidate Hacyclic) as [r Hr].
    - apply NoDup_singleton.
    - intros x Hx. apply list_elem_of_singleton in Hx. subst x.
      inversion Hpath; subst; eauto using contains_valid_l.
    - intros x Hx. inversion Hx.
    - simpl. lia.
    - rewrite Hr. f_equal. eapply canAdd_sound; eauto. }
  split; [|split; [|split; [|split]]].
  - intros fuel. simpl. now rewrite Nat.eqb_refl.
  - intros fuel candidate c e Hthis Hcand. simpl.
    destruct (Nat.eqb_spec candidate this) as [->|_]; [congruence|].
    now rewrite Hcand.
  - intros fuel candidate r Hpath Hr. eapply canAdd_sound; eauto.
  - exact Hreach.
  - intros Hacyclic B A HBA HA. apply Hreach; [exact Hacyclic|].
    eapply tc_l; eauto.
Qed.

End CanAdd.

Lemma ClassPropertyType_canAddMemberOfType_spec_witness :
  ClassPropertyType_canAddMemberOfType 3 registry_chain 0 2 = Some false.
Proof.
  destruct (ClassPropertyType_canAddMemberOfType_spec registry_chain 0)
    as (_ & _ & _ & _ & H).
  apply (H (acyclic_by_positions registry_chain eq_refl) 2 1).
  - exists (mkClass (mkBase 3 "B") [("a"%string, VPropertyValue (VMap []) 2)]),
      "a"%string, (VMap []), 2%Z.
    repeat split. now left.
  - apply tc_once.
    exists (mkClass (mkBase 2 "A") [("x"%string, VPropertyValue (VMap []) 1)]),
      "x"%string, (VMap []), 1%Z.
    repeat split. now left.
  - simpl. lia.
Defined.

(** C5 as stated fails: without the invariant the recursion need not return.
    In [registry_cycle] the class B has a member typed as the class A, and A
    has a member typed as the class under test X; but B's member typed C comes
    first, and the call on C calls itself on C: no amount of fuel gives a
    result, false or other. *)
Lemma canAddMemberOfType_cycle_never_returns :
  contains registry_cycle 2 3
  /\ tc (contains registry_cycle) 3 0
  /\ forall fuel, ClassPropertyType_canAddMemberOfType fuel registry_cycle 0 2 = None.
Proof.
  split; [|split].
  - exists (mkClass (mkBase 3 "B") [("a"%string, VPropertyValue (VMap []) 2);
                                   ("b"%string, VPropertyValue (VMap []) 4)]),
      "b"%string, (VMap []), 4%Z.
    repeat split. right. now left.
  - apply tc_once.
    exists (mkClass (mkBase 4 "A") [("x"%string, VPropertyValue (VMap []) 1)]),
      "x"%string, (VMap []), 1%Z.
    repeat split. now left.
  - assert (HC : forall fuel,
              ClassPropertyType_canAddMemberOfType fuel registry_cycle 0 1 = None).
    { induction fuel as [|fuel IH]; [reflexivity|].
      change (ClassPropertyType_canAddMemberOfType (S fuel) registry_cycle 0 1)
        with (match ClassPropertyType_canAddMemberOfType fuel registry_cycle 0 1 with
              | None => None
              | Some false => Some false
              | Some true => Some true
              end).
      now rewrite IH. }
    intros [|fuel]; [reflexivity|].
    change (ClassPropertyType_canAddMemberOfType (S fuel) registry_cycle 0 2)
      with (match ClassPropertyType_canAddMemberOfType fuel registry_cycle 0 1 with
            | None => None
            | Some false => Some false
            | Some true =>
                canAdd_members (ClassPropertyType_canAddMemberOfType fuel registry_cycle 0)
                  registry_cycle [VPropertyValue (VMap []) 4]
            end).
    now rewrite HC.
Qed.

(** ** PropertyTypes: loading *)

Lemma map_insert_same {A B : Type} (f : A -> B) (l : list A) (j : nat) (x y : A) :
  l !! j = Some x -> f y = f x -> List.map f (<[j := y]> l) = List.map f l.
Proof.
  revert j. induction l as [|a l IH]; intros j Hj Hf; [reflexivity|].
  destruct j as [|j]; simpl in *.
  - injection Hj as ->. now rewrite Hf.
  - f_equal. now apply IH.
Qed.

Lemma map_lookup {A B : Type} (f : A -> B) (l : list A) (j : nat) :
  List.map f l !! j = option_map f (l !! j).
Proof.
  revert j. induction l as [|a l IH]; intros [|j]; simpl; auto.
Qed.

Section Parsing.

Variable QString_toInt : string -> Z.

Lemma createFromVariant_fst (variant : QVariantMap) (n n' : Z) :
  fst (createFromVariant QString_toInt variant n)
  = fst (createFromVariant QString_toInt variant n').
Proof.
  destruct (typeFromString (toString (QMap_value variant "type"))) eqn:E.
  - now rewrite !createFromVariant_Invalid.
  - now rewrite !createFromVariant_Class.
  - now rewrite !createFromVariant_Enum.
Qed.

(** The first loop appends what the factory makes of each record, in input
    order, and threads the counter through. *)
Lemma load_records_spec (list : QVariantList) (mTypes : PropertyTypes) (nextId : Z) :
  load_records QString_toInt list mTypes nextId
  = (mTypes ++ omap (parse_record QString_toInt) list,
     counter_after QString_toInt list nextId).
Proof.
  revert mTypes nextId.
  induction list as [|r list IH]; intros mTypes nextId; simpl.
  - now rewrite List.app_nil_r.
  - unfold parse_record at 1.
    rewrite (createFromVariant_fst (toMap r) 0 nextId).
    unfold counter_after. simpl List.fold_left. fold (counter_after QString_toInt).
    destruct (createFromVariant QString_toInt (toMap r) nextId) as [[t|] n']; simpl.
    + unfold PropertyTypes_add. rewrite IH, <- List.app_assoc. reflexivity.
    + apply IH.
Qed.

Lemma parse_record_spec (r : QVariant) :
  match parse_record QString_toInt r with
  | Some t => record_valid r = true /\ skeleton t = record_skeleton QString_toInt r
  | None => record_valid r = false
  end.
Proof.
  unfold parse_record, record_valid, record_skeleton, record_type, record_id, record_name.
  pose proof (createFromVariant_cases QString_toInt (toMap r) 0) as H. simpl in H.
  destruct (typeFromString _).
  - rewrite H. reflexivity.
  - destruct H as (t & -> & Hs). simpl. auto.
  - destruct H as (t & -> & Hs). simpl. auto.
Qed.

Lemma parsed_skeletons (list : QVariantList) :
  List.map skeleton (omap (parse_record QString_toInt) list)
  = List.map (record_skeleton QString_toInt) (List.filter record_valid list).
Proof.
  induction list as [|r list IH]; [reflexivity|]. simpl.
  pose proof (parse_record_spec r) as H.
  destruct (parse_record QString_toInt r) as [t|].
  - destruct H as [-> Hs]. simpl. f_equal; [exact Hs|exact IH].
  - rewrite H. exact IH.
Qed.

End Parsing.

(** Lookups only read the skeletons. *)
Lemma list_find_skeleton (P : Z * string * Type_ -> Prop)
    `{!forall s, Decision (P s)} (m : PropertyTypes) :
  fst <$> list_find (fun t => P (skeleton t)) m
  = fst <$> list_find P (List.map skeleton m).
Proof.
  induction m as [|t m IH]; [reflexivity|]. simpl.
  destruct (decide (P (skeleton t))); [reflexivity|].
  destruct (list_find (fun t => P (skeleton t)) m) as [[i x]|],
           (list_find P (List.map skeleton m)) as [[i' x']|];
    simpl in *; congruence.
Qed.

Lemma findTypeById_skeleton (m m' : PropertyTypes) (typeId : Z) :
  List.map skeleton m = List.map skeleton m' ->
  fst <$> PropertyTypes_findTypeById m typeId = fst <$> PropertyTypes_findTypeById m' typeId.
Proof.
  intros H. unfold PropertyTypes_findTypeById.
  transitivity (fst <$> list_find (fun s => fst (fst s) = typeId) (List.map skeleton m));
    [exact (list_find_skeleton (fun s => fst (fst s) = typeId) m)|].
  rewrite H. symmetry.
  exact (list_find_skeleton (fun s => fst (fst s) = typeId) m').
Qed.

Lemma findTypeByName_skeleton (m m' : PropertyTypes) (n : string) :
  List.map skeleton m = List.map skeleton m' ->
  fst <$> PropertyTypes_findTypeByName m n = fst <$> PropertyTypes_findTypeByName m' n.
Proof.
  intros H. unfold PropertyTypes_findTypeByName.
  transitivity (fst <$> list_find (fun s => snd (fst s) = n) (List.map skeleton m));
    [exact (list_find_skeleton (fun s => snd (fst s) = n) m)|].
  rewrite H. symmetry.
  exact (list_find_skeleton (fun s => snd (fst s) = n) m').
Qed.

(** A lookup by a key of the skeleton finds the first position that carries
    the key. *)
Lemma list_find_first (key : PropertyType -> Prop) `{!forall t, Decision (key t)}
    (m : PropertyTypes) (p : nat) (t : PropertyType) :
  m !! p = Some t -> key t ->
  exists q t', list_find key m = Some (q, t') /\ q <= p /\ m !! q = Some t' /\ key t'.
Proof.
  intros Hp Hkey.
  destruct (list_find_elem_of key m t) as [[q t'] Hfind];
    [eapply list_elem_of_lookup_2, Hp|exact Hkey|].
  exists q, t'. split; [exact Hfind|].
  apply list_find_Some in Hfind. destruct Hfind as (Hq & Hk & Hfirst).
  split; [|auto]. destruct (Nat.le_gt_cases q p) as [|Hlt]; [assumption|].
  destruct (Hfirst p t Hp Hlt Hkey).
Qed.

Lemma NoDup_map_lookup {A B : Type} (f : A -> B) (l : list A) (i j : nat) (x y : A) :
  List.NoDup (List.map f l) -> l !! i = Some x -> l !! j = Some y -> f x = f y -> i = j.
Proof.
  intros Hnd Hi Hj Hf.
  apply (NoDup_lookup (List.map f l) i j (f x)); [now apply NoDup_ListNoDup| |].
  - rewrite map_lookup, Hi. reflexivity.
  - rewrite map_lookup, Hj, Hf. reflexivity.
Qed.

Lemma count_by_skeleton (m : PropertyTypes) (l : list (Z * string * Type_)) (ty : Type_) :
  List.map skeleton m = l ->
  PropertyTypes_count m ty = length (List.filter (fun s => Type_eqb (snd s) ty) l).
Proof.
  intros <-. unfold PropertyTypes_count.
  induction m as [|t m IH]; [reflexivity|]. simpl.
  destruct (Type_eqb (type t) ty); simpl; now rewrite IH.
Qed.

(** *** Resolving dependencies *)

Lemma set_member_shape (m : PropertyTypes) (p j : nat) (v : QVariant) :
  List.map shape (set_member m p j v) = List.map shape m.
Proof.
  unfold set_member.
  destruct (m !! p) as [[e|c]|] eqn:Hp; try reflexivity.
  destruct (members c !! j) as [[key old]|] eqn:Hj; try reflexivity.
  apply (map_insert_same shape m p (Class c)); [exact Hp|].
  unfold shape, skeleton, QMap_keys. simpl. f_equal.
  now apply (map_insert_same fst (members c) j (key, old)).
Qed.

Lemma set_member_same (m : PropertyTypes) (p j : nat) (key : string) (old v : QVariant) :
  member_at m p j = Some (key, old) ->
  member_at (set_member m p j v) p j = Some (key, v).
Proof.
  unfold member_at, set_member.
  destruct (m !! p) as [[e|c]|] eqn:Hp; try discriminate.
  intros Hj. rewrite Hj.
  rewrite list_lookup_insert_eq by (eapply lookup_lt_Some, Hp). simpl.
  now rewrite list_lookup_insert_eq by (eapply lookup_lt_Some, Hj).
Qed.

Lemma set_member_other (m : PropertyTypes) (p j p' j' : nat) (v : QVariant) :
  p' <> p \/ j' <> j ->
  member_at (set_member m p j v) p' j' = member_at m p' j'.
Proof.
  intros Hne. unfold set_member.
  destruct (m !! p) as [[e|c]|] eqn:Hp; try reflexivity.
  destruct (members c !! j) as [[key old]|] eqn:Hj; try reflexivity.
  unfold member_at. destruct (Nat.eq_dec p' p) as [->|Hp'].
  - rewrite list_lookup_insert_eq by (eapply lookup_lt_Some, Hp). rewrite Hp. simpl.
    apply list_lookup_insert_ne. destruct Hne; congruence.
  - now rewrite list_lookup_insert_ne by congruence.
Qed.

Section Resolving.

Variable ExportContext_toPropertyValue_export : ExportContext -> ExportValue -> QVariant.
Variable path : string.

Local Abbreviation resolve_member_ := (resolve_member ExportContext_toPropertyValue_export).
Local Abbreviation resolve_step_ := (resolve_step ExportContext_toPropertyValue_export path).
Local Abbreviation resolveDependencies_ :=
  (resolveDependencies ExportContext_toPropertyValue_export path).

Local Abbreviation resolved_from :=
  (resolved_by ExportContext_toPropertyValue_export path).

Lemma resolve_step_shape (m : PropertyTypes) (p j : nat) :
  List.map shape (resolve_step_ p m j) = List.map shape m.
Proof.
  unfold resolve_step.
  destruct (m !! p) as [[e|c]|]; try reflexivity.
  destruct (members c !! j) as [[key raw]|]; [apply set_member_shape|reflexivity].
Qed.

Lemma resolve_step_same (m : PropertyTypes) (p j : nat) (key : string) (raw : QVariant) :
  member_at m p j = Some (key, raw) ->
  member_at (resolve_step_ p m j) p j
  = Some (key, resolve_member_ (mkExportContext m path) raw).
Proof.
  intros Hm. pose proof Hm as Hm'. unfold member_at in Hm'. unfold resolve_step.
  destruct (m !! p) as [[e|c]|]; try discriminate.
  rewrite Hm'. now apply set_member_same with (old := raw).
Qed.

Lemma resolve_step_other (m : PropertyTypes) (p j p' j' : nat) :
  p' <> p \/ j' <> j ->
  member_at (resolve_step_ p m j) p' j' = member_at m p' j'.
Proof.
  intros Hne. unfold resolve_step.
  destruct (m !! p) as [[e|c]|]; try reflexivity.
  destruct (members c !! j) as [[key raw]|]; [now apply set_member_other|reflexivity].
Qed.

Lemma resolve_steps_spec (p : nat) (js : list nat) (m : PropertyTypes) :
  NoDup js ->
  List.map shape (List.fold_left (resolve_step_ p) js m) = List.map shape m
  /\ (forall p' j', p' <> p \/ j' ∉ js ->
        member_at (List.fold_left (resolve_step_ p) js m) p' j' = member_at m p' j')
  /\ (forall j, j ∈ js -> resolved_from m (List.fold_left (resolve_step_ p) js m) p j).
Proof.
  revert m. induction js as [|j0 js IH]; intros m Hnd.
  - simpl. repeat split; auto. intros j Hj. inversion Hj.
  - apply NoDup_cons in Hnd. destruct Hnd as [Hj0 Hnd].
    destruct (IH (resolve_step_ p m j0) Hnd) as (Hshape & Hother & Hsame).
    simpl. split; [|split].
    + rewrite Hshape. apply resolve_step_shape.
    + intros p' j' Hne. rewrite Hother.
      * apply resolve_step_other. destruct Hne as [?|Hne]; [now left|right].
        intros ->. apply Hne. now left.
      * destruct Hne as [?|Hne]; [now left|right].
        intros Hin. apply Hne. now right.
    + intros j Hj key raw Hraw. apply elem_of_cons in Hj.
      destruct Hj as [->|Hj].
      * exists m. split; [reflexivity|].
        rewrite Hother by now right. now apply resolve_step_same.
      * assert (j <> j0) by (intros ->; contradiction).
        destruct (Hsame j Hj key raw) as (reg & Hreg & Hval).
        -- rewrite resolve_step_other by now right. exact Hraw.
        -- exists reg. split; [|exact Hval].
           rewrite Hreg. apply resolve_step_shape.
Qed.

Lemma resolveDependencies_spec (m : PropertyTypes) (p : nat) :
  List.map shape (resolveDependencies_ m p) = List.map shape m
  /\ (forall p' j', p' <> p ->
        member_at (resolveDependencies_ m p) p' j' = member_at m p' j')
  /\ (forall j, resolved_from m (resolveDependencies_ m p) p j).
Proof.
  unfold resolveDependencies.
  destruct (m !! p) as [[e|c]|] eqn:Hp.
  - repeat split; auto. intros j key raw Hraw. unfold member_at in Hraw.
    rewrite Hp in Hraw. discriminate.
  - destruct (resolve_steps_spec p (seq 0 (length (members c))) m (NoDup_seq _ _))
      as (Hshape & Hother & Hsame).
    split; [exact Hshape|]. split; [intros p' j' Hne; apply Hother; now left|].
    intros j key raw Hraw. apply Hsame; [|exact Hraw].
    apply elem_of_seq. unfold member_at in Hraw. rewrite Hp in Hraw.
    apply lookup_lt_Some in Hraw. lia.
  - repeat split; auto. intros j key raw Hraw. unfold member_at in Hraw.
    rewrite Hp in Hraw. discriminate.
Qed.

Lemma resolve_all_spec (ps : list nat) (m : PropertyTypes) :
  NoDup ps ->
  List.map shape (List.fold_left resolveDependencies_ ps m) = List.map shape m
  /\ (forall p' j', p' ∉ ps ->
        member_at (List.fold_left resolveDependencies_ ps m) p' j' = member_at m p' j')
  /\ (forall p j, p ∈ ps ->
        resolved_from m (List.fold_left resolveDependencies_ ps m) p j).
Proof.
  revert m. induction ps as [|p0 ps IH]; intros m Hnd.
  - simpl. repeat split; auto. intros p j Hp. inversion Hp.
  - apply NoDup_cons in Hnd. destruct Hnd as [Hp0 Hnd].
    destruct (resolveDependencies_spec m p0) as (Hshape0 & Hother0 & Hsame0).
    destruct (IH (resolveDependencies_ m p0) Hnd) as (Hshape & Hother & Hsame).
    simpl. split; [|split].
    + now rewrite Hshape.
    + intros p' j' Hne. rewrite Hother by (intros Hin; apply Hne; now right).
      apply Hother0. intros ->. apply Hne. now left.
    + intros p j Hp key raw Hraw. apply elem_of_cons in Hp.
      destruct Hp as [->|Hp].
      * destruct (Hsame0 j key raw Hraw) as (reg & Hreg & Hval).
        exists reg. split; [exact Hreg|]. now rewrite Hother.
      * assert (p <> p0) by (intros ->; contradiction).
        destruct (Hsame p j Hp key raw) as (reg & Hreg & Hval).
        -- now rewrite Hother0.
        -- exists reg. split; [|exact Hval]. now rewrite Hreg.
Qed.

End Resolving.

Lemma shape_skeleton (m m' : PropertyTypes) :
  List.map shape m = List.map shape m' -> List.map skeleton m = List.map skeleton m'.
Proof.
  intros H. apply (f_equal (List.map fst)) in H.
  now rewrite !List.map_map in H.
Qed.

(** Registries of the same shape have members under the same names. *)
Lemma shape_member_at (m m' : PropertyTypes) (p j : nat) (key : string) (v : QVariant) :
  List.map shape m = List.map shape m' ->
  member_at m p j = Some (key, v) ->
  exists raw, member_at m' p j = Some (key, raw).
Proof.
  intros Hshape Hm. unfold member_at in *.
  destruct (m !! p) as [[e|c]|] eqn:Hp; try discriminate.
  assert (Hp' : List.map shape m' !! p = Some (shape (Class c)))
    by (rewrite <- Hshape, map_lookup, Hp; reflexivity).
  rewrite map_lookup in Hp'.
  destruct (m' !! p) as [[e'|c']|]; try discriminate.
  injection Hp' as _ _ Hkeys. unfold QMap_keys in Hkeys.
  assert (Hk : List.map fst (members c') !! j = Some key)
    by (rewrite Hkeys, map_lookup, Hm; reflexivity).
  rewrite map_lookup in Hk.
  destruct (members c' !! j) as [[k raw]|]; [|discriminate].
  injection Hk as ->. eauto.
Qed.

(** *** loadFrom *)

Lemma filter_map_length {A B : Type} (f : A -> B) (P : B -> bool) (l : list A) :
  length (List.filter P (List.map f l)) = length (List.filter (fun a => P (f a)) l).
Proof.
  induction l as [|a l IH]; [reflexivity|]. simpl.
  destruct (P (f a)); simpl; now rewrite IH.
Qed.

Lemma skeleton_lookup (m : PropertyTypes) (l : list (Z * string * Type_)) (p : nat)
    (s : Z * string * Type_) :
  List.map skeleton m = l -> l !! p = Some s ->
  exists t, m !! p = Some t /\ skeleton t = s.
Proof.
  intros <- Hp. rewrite map_lookup in Hp.
  destruct (m !! p) as [t|]; [|discriminate]. injection Hp as <-. eauto.
Qed.

(** The run on [forward_reference]: of the three records the one with the
    unknown type string is absent, and the member "b" of the class A, which
    names the class B defined after it, is wrapped with the id of B. *)
Lemma PropertyTypes_loadFrom_forward_reference :
  let final := fst (PropertyTypes_loadFrom plain_toInt plain_resolve forward_reference
                      EmptyString (registry_chain, 0%Z)) in
  List.map skeleton final = [(1%Z, "A"%string, PT_Class); (2%Z, "B"%string, PT_Class)]
  /\ member_at final 0 0 = Some ("b"%string, VPropertyValue (VMap []) 2).
Proof. split; reflexivity. Qed.

(** X3.  What a member resolves to depends on the order of the records.  The
    member "b" of A is wrapped with the id of B either way; but when B comes
    after A, A is resolved while the members of B are still raw records, and
    the value of "e" inside the default of "b" stays the string "Y", whereas
    with B (and E) first it becomes the index 1 wrapped with the id of E. *)
Lemma PropertyTypes_loadFrom_order_of_records :
  member_at
    (fst (PropertyTypes_loadFrom plain_toInt plain_resolve [record_A; record_B; record_E]
            EmptyString ([], 0%Z))) 0 0
  = Some ("b"%string, VPropertyValue (VMap [("e"%string, VString "Y")]) 2)
  /\ member_at
       (fst (PropertyTypes_loadFrom plain_toInt plain_resolve [record_E; record_B; record_A]
               EmptyString ([], 0%Z))) 2 0
     = Some ("b"%string,
             VPropertyValue (VMap [("e"%string, VPropertyValue (VInt 1) 3)]) 2).
Proof. split; reflexivity. Qed.

(** * Further properties of the code *)

(** ** QMap: insert and lookup *)

Lemma QMap_value_insert_eq (m : QVariantMap) (k : string) (v : QVariant) :
  QMap_value (QMap_insert m k v) k = v.
Proof.
  induction m as [|[k0 w] m IH]; simpl.
  - now rewrite String.eqb_refl.
  - destruct (String.eqb_spec k0 k) as [->|Hne]; simpl.
    + now rewrite String.eqb_refl.
    + destruct (String.ltb k k0); simpl.
      * now rewrite String.eqb_refl.
      * destruct (String.eqb_spec k0 k); [contradiction|exact IH].
Qed.

Lemma QMap_value_insert_ne (m : QVariantMap) (k k' : string) (v : QVariant) :
  k <> k' -> QMap_value (QMap_insert m k v) k' = QMap_value m k'.
Proof.
  intros Hne. induction m as [|[k0 w] m IH]; simpl.
  - destruct (String.eqb_spec k k'); [contradiction|reflexivity].
  - destruct (String.eqb_spec k0 k) as [->|Hk0]; simpl.
    + destruct (String.eqb_spec k k'); [contradiction|reflexivity].
    + destruct (String.ltb k k0); simpl.
      * destruct (String.eqb_spec k k'); [contradiction|reflexivity].
      * now rewrite IH.
Qed.

Lemma QMap_contains_insert (m : QVariantMap) (k k' : string) (v : QVariant) :
  QMap_contains (QMap_insert m k v) k' = String.eqb k k' || QMap_contains m k'.
Proof.
  induction m as [|[k0 w] m IH]; simpl.
  - reflexivity.
  - destruct (String.eqb_spec k0 k) as [->|Hk0]; simpl.
    + now destruct (String.eqb k k').
    + destruct (String.ltb k k0); simpl; [reflexivity|].
      rewrite IH. now destruct (String.eqb k0 k'), (String.eqb k k').
Qed.

Lemma QMap_contains_In (m : QVariantMap) (k : string) :
  QMap_contains m k = true -> In (k, QMap_value m k) m.
Proof.
  induction m as [|[k0 w] m IH]; simpl; [discriminate|].
  destruct (String.eqb_spec k0 k) as [->|_]; simpl; [now left|].
  intros H. right. now apply IH.
Qed.

Lemma QMap_contains_keys (m : QVariantMap) (k : string) :
  QMap_contains m k = true <-> In k (QMap_keys m).
Proof.
  induction m as [|[k0 w] m IH]; simpl; [split; [discriminate|tauto]|].
  destruct (String.eqb_spec k0 k) as [->|Hne]; simpl.
  - split; auto.
  - rewrite IH. split; [now right|]. intros [?|?]; [contradiction|assumption].
Qed.

Lemma map_toString_VString (l : list string) : List.map toString (List.map VString l) = l.
Proof. induction l as [|x l IH]; simpl; [reflexivity|now rewrite IH]. Qed.

(** ** storageTypeFromString and storageTypeToString *)

(** X4.  [storageTypeFromString] maps "int" to IntValue and every other
    string, the empty one included, to StringValue; [storageTypeToString]
    writes "int" and "string", and reading back what it wrote gives the
    storage type again. *)
Theorem storageType_mapping :
  storageTypeFromString "int" = IntValue
  /\ (forall s : string, s <> "int"%string -> storageTypeFromString s = StringValue)
  /\ storageTypeToString IntValue = "int"%string
  /\ storageTypeToString StringValue = "string"%string
  /\ (forall t : StorageType, storageTypeFromString (storageTypeToString t) = t).
Proof.
  repeat split.
  - intros s Hs. unfold storageTypeFromString.
    destruct (String.eqb_spec s "int"); [contradiction|reflexivity].
  - intros []; reflexivity.
Qed.

Lemma storageType_mapping_witness : storageTypeFromString "Int" = StringValue.
Proof.
  destruct storageType_mapping as (_ & H & _). apply H. discriminate.
Defined.

(** ** Definitions written and read again *)

Section DefinitionRoundTrip.

Variable QString_toInt : string -> Z.

(** What [fromVariant] reads from the record of an enum: the fields that
    [toVariant] wrote, whatever the object held. *)
Lemma EnumPropertyType_fromVariant_toVariant (other this : EnumPropertyType)
    (context : ExportContext) :
  EnumPropertyType_fromVariant other (EnumPropertyType_toVariant this context)
  = mkEnum (enum_base other) (storageType this) (values this) (valuesAsFlags this).
Proof.
  destruct this as [[i n] st vals fl]. unfold EnumPropertyType_fromVariant.
  change (QMap_value (EnumPropertyType_toVariant
                        (mkEnum (mkBase i n) st vals fl) context) "storageType")
    with (VString (storageTypeToString st)).
  change (QMap_value (EnumPropertyType_toVariant
                        (mkEnum (mkBase i n) st vals fl) context) "values")
    with (VList (List.map VString vals)).
  change (QMap_value_or (EnumPropertyType_toVariant
                           (mkEnum (mkBase i n) st vals fl) context)
            "valuesAsFlags" (VBool false))
    with (VBool fl).
  simpl toString. simpl toBool. simpl toStringList.
  rewrite map_toString_VString.
  now destruct st.
Qed.

(** X1.  An enum definition survives serialization: the factory applied to
    what [EnumPropertyType::toVariant] wrote returns the same enum (id, name,
    storage type, names in order, flags mode), and leaves the counter at the
    larger of the enum's id and the id the construction took. *)
Theorem createFromVariant_EnumPropertyType_toVariant (this : EnumPropertyType)
    (context : ExportContext) (nextId : Z) :
  createFromVariant QString_toInt (EnumPropertyType_toVariant this context) nextId
  = (Some (Enum this), Z.max (wrap_int (nextId + 1)) (id (enum_base this))).
Proof.
  rewrite createFromVariant_Enum by reflexivity.
  rewrite EnumPropertyType_fromVariant_toVariant.
  destruct this as [[i n] st vals fl].
  change (QMap_value (EnumPropertyType_toVariant
                        (mkEnum (mkBase i n) st vals fl) context) "id")
    with (VInt i).
  change (QMap_value (EnumPropertyType_toVariant
                        (mkEnum (mkBase i n) st vals fl) context) "name")
    with (VString n).
  reflexivity.
Qed.

(** X5.  [EnumPropertyType::fromVariant] reads a record that lacks its keys as
    string storage, no names and no flags mode, whatever the object held
    before; and what it reads never depends on the fields the object had. *)
Theorem EnumPropertyType_fromVariant_defaults (this : EnumPropertyType)
    (variant : QVariantMap) :
  enum_base (EnumPropertyType_fromVariant this variant) = enum_base this
  /\ (QMap_contains variant "storageType" = false ->
      storageType (EnumPropertyType_fromVariant this variant) = StringValue)
  /\ (QMap_contains variant "values" = false ->
      values (EnumPropertyType_fromVariant this variant) = [])
  /\ (QMap_contains variant "valuesAsFlags" = false ->
      valuesAsFlags (EnumPropertyType_fromVariant this variant) = false)
  /\ (forall other : EnumPropertyType, enum_base other = enum_base this ->
        EnumPropertyType_fromVariant other variant
        = EnumPropertyType_fromVariant this variant).
Proof.
  unfold EnumPropertyType_fromVariant. simpl. repeat split.
  - intros H. now rewrite (QMap_value_absent _ _ H).
  - intros H. now rewrite (QMap_value_absent _ _ H).
  - intros H. unfold QMap_value_or. now rewrite H.
  - intros other ->. reflexivity.
Qed.

End DefinitionRoundTrip.

Lemma EnumPropertyType_fromVariant_defaults_witness :
  EnumPropertyType_fromVariant (mkEnum (mkBase 1 "E") IntValue ["A"]%string true)
    [("id"%string, VInt 1)]
  = mkEnum (mkBase 1 "E") StringValue [] false.
Proof.
  destruct (EnumPropertyType_fromVariant_defaults
              (mkEnum (mkBase 1 "E") IntValue ["A"]%string true) [("id"%string, VInt 1)])
    as (Hb & Hs & Hv & Hf & _).
  specialize (Hs eq_refl). specialize (Hv eq_refl). specialize (Hf eq_refl).
  destruct (EnumPropertyType_fromVariant _ _) as [b s v f]. simpl in *.
  now subst.
Defined.

(** ** ClassPropertyType: reading and writing members *)

Lemma members_fold_absent (l : list QVariant) (m : QVariantMap) (k : string) :
  (forall r, In r l -> member_name r <> k) ->
  QMap_value
    (List.fold_left
       (fun members member =>
          QMap_insert members (member_name member) (VMap (toMap member))) l m) k
  = QMap_value m k.
Proof.
  revert m. induction l as [|r l IH]; intros m Hall; simpl; [reflexivity|].
  rewrite IH by (intros r' Hr'; apply Hall; now right).
  apply QMap_value_insert_ne, Hall. now left.
Qed.

Lemma members_fold_last (l1 l2 : list QVariant) (r : QVariant) (m : QVariantMap) :
  (forall r', In r' l2 -> member_name r' <> member_name r) ->
  QMap_value
    (List.fold_left
       (fun members member =>
          QMap_insert members (member_name member) (VMap (toMap member)))
       (l1 ++ r :: l2) m) (member_name r)
  = VMap (toMap r).
Proof.
  intros Hl2. rewrite List.fold_left_app. simpl.
  rewrite members_fold_absent by exact Hl2.
  apply QMap_value_insert_eq.
Qed.

Lemma members_fold_contains (l : list QVariant) (m : QVariantMap) (k : string) :
  QMap_contains
    (List.fold_left
       (fun members member =>
          QMap_insert members (member_name member) (VMap (toMap member))) l m) k
  = existsb (fun r => String.eqb (member_name r) k) l || QMap_contains m k.
Proof.
  revert m. induction l as [|r l IH]; intros m; simpl; [reflexivity|].
  rewrite IH, QMap_contains_insert.
  now destruct (String.eqb (member_name r) k), (existsb _ l).
Qed.

(** X6.  [ClassPropertyType::fromVariant] stores every record of the
    "members" list raw under the name the record states: a name that several
    records state holds the last of them, a name that no record states keeps
    what the class held for it (nothing, for the fresh class of the factory),
    and a record without a "members" list leaves the members as they were. *)
Theorem ClassPropertyType_fromVariant_members (this : ClassPropertyType)
    (variant : QVariantMap) :
  let membersList := toList (QMap_value variant "members") in
  let c := ClassPropertyType_fromVariant this variant in
  class_base c = class_base this
  /\ (forall l1 r l2, membersList = l1 ++ r :: l2 ->
        (forall r', In r' l2 -> member_name r' <> member_name r) ->
        QMap_value (members c) (member_name r) = VMap (toMap r))
  /\ (forall k, (forall r, In r membersList -> member_name r <> k) ->
        QMap_value (members c) k = QMap_value (members this) k)
  /\ (forall k, QMap_contains (members c) k
                = existsb (fun r => String.eqb (member_name r) k) membersList
                  || QMap_contains (members this) k)
  /\ (QMap_contains variant "members" = false -> members c = members this).
Proof.
  intros membersList c. subst c membersList.
  unfold ClassPropertyType_fromVariant. simpl. repeat split.
  - intros l1 r l2 -> Hl2. now apply members_fold_last.
  - intros k Hk. now apply members_fold_absent.
  - intros k. apply members_fold_contains.
  - intros H. now rewrite (QMap_value_absent _ _ H).
Qed.

Lemma ClassPropertyType_fromVariant_members_witness :
  QMap_value
    (members (ClassPropertyType_fromVariant (mkClass (mkBase 1 "C") [])
                [("members"%string,
                  VList [VMap [("name"%string, VString "m"); ("value"%string, VInt 1)];
                         VMap [("name"%string, VString "m"); ("value"%string, VInt 2)]])]))
    "m"
  = VMap [("name"%string, VString "m"); ("value"%string, VInt 2)].
Proof.
  destruct (ClassPropertyType_fromVariant_members (mkClass (mkBase 1 "C") [])
              [("members"%string,
                VList [VMap [("name"%string, VString "m"); ("value"%string, VInt 1)];
                       VMap [("name"%string, VString "m"); ("value"%string, VInt 2)]])])
    as (_ & H & _).
  apply (H [VMap [("name"%string, VString "m"); ("value"%string, VInt 1)]]
           (VMap [("name"%string, VString "m"); ("value"%string, VInt 2)]) []).
  - reflexivity.
  - intros r' [].
Defined.

Section ClassDefinitionRoundTrip.

Variable QString_toInt : string -> Z.
Variable ExportContext_toExportValue : ExportContext -> QVariant -> ExportValue.

Lemma member_toVariant_exported (context : ExportContext) (key : string) (v : QVariant) :
  member_toVariant ExportContext_toExportValue context (key, v)
  = exported_member key (ExportContext_toExportValue context v).
Proof.
  unfold member_toVariant, exported_member. simpl.
  now destruct (QString_isEmpty (ev_propertyTypeName (ExportContext_toExportValue context v))).
Qed.

Lemma exported_member_name (key : string) (ev : ExportValue) :
  member_name (exported_member key ev) = key.
Proof.
  unfold member_name, exported_member.
  now destruct (QString_isEmpty (ev_propertyTypeName ev)).
Qed.

(** Resolving the record that [toVariant] wrote for a member hands the host
    the very export value it came from. *)
Lemma resolve_exported_member
    (import : ExportContext -> ExportValue -> QVariant) (context : ExportContext)
    (key : string) (ev : ExportValue) :
  resolve_member import context (exported_member key ev) = import context ev.
Proof.
  unfold resolve_member, exported_member. destruct ev as [v tn pn]. simpl.
  destruct pn; reflexivity.
Qed.

Lemma existsb_member_toVariant (context : ExportContext) (m : QVariantMap) (k : string) :
  existsb (fun r => String.eqb (member_name r) k)
    (List.map (member_toVariant ExportContext_toExportValue context) m)
  = QMap_contains m k.
Proof.
  induction m as [|[k0 v] m IH]; [reflexivity|].
  simpl existsb. rewrite IH, member_toVariant_exported, exported_member_name.
  reflexivity.
Qed.

(** X2.  A class definition survives serialization up to the host's
    conversions.  The factory applied to what [ClassPropertyType::toVariant]
    wrote returns a class with the same id and name and the same member
    names; each member holds the record written for it, and resolving that
    record (the second phase of a load) hands the host exactly the export
    value that the host produced for the member when it was written.  The
    members are a [QMap], so no name occurs twice. *)
Theorem createFromVariant_ClassPropertyType_toVariant (this : ClassPropertyType)
    (context : ExportContext) (nextId : Z) :
  List.NoDup (QMap_keys (members this)) ->
  exists c,
    createFromVariant QString_toInt
      (ClassPropertyType_toVariant ExportContext_toExportValue this context) nextId
    = (Some (Class c), Z.max (wrap_int (nextId + 1)) (id (class_base this)))
    /\ class_base c = class_base this
    /\ (forall k, QMap_contains (members c) k = QMap_contains (members this) k)
    /\ (forall k, QMap_contains (members this) k = true ->
          QMap_value (members c) k
          = exported_member k
              (ExportContext_toExportValue context (QMap_value (members this) k)))
    /\ (forall (import : ExportContext -> ExportValue -> QVariant)
               (context' : ExportContext) (k : string),
          QMap_contains (members this) k = true ->
          resolve_member import context' (QMap_value (members c) k)
          = import context'
              (ExportContext_toExportValue context (QMap_value (members this) k))).
Proof.
  intros Hnd. destruct this as [[i n] ms]. simpl in Hnd |- *.
  rewrite createFromVariant_Class by reflexivity.
  eexists. split; [reflexivity|].
  unfold ClassPropertyType_fromVariant.
  change (QMap_value (ClassPropertyType_toVariant ExportContext_toExportValue
                        (mkClass (mkBase i n) ms) context) "id") with (VInt i).
  change (QMap_value (ClassPropertyType_toVariant ExportContext_toExportValue
                        (mkClass (mkBase i n) ms) context) "name") with (VString n).
  change (QMap_value (ClassPropertyType_toVariant ExportContext_toExportValue
                        (mkClass (mkBase i n) ms) context) "members")
    with (VList (List.map (member_toVariant ExportContext_toExportValue context) ms)).
  simpl.
  assert (Hvalue : forall k, QMap_contains ms k = true ->
            QMap_value
              (List.fold_left
                 (fun members member =>
                    QMap_insert members (member_name member) (VMap (toMap member)))
                 (List.map (member_toVariant ExportContext_toExportValue context) ms) [])
              k
            = exported_member k (ExportContext_toExportValue context (QMap_value ms k))).
  { intros k Hk. apply QMap_contains_In in Hk.
    destruct (List.in_split _ _ Hk) as (l1 & l2 & Hsplit).
    set (v := QMap_value ms k) in *. clearbody v.
    rewrite Hsplit, List.map_app. simpl List.map.
    rewrite member_toVariant_exported.
    pose proof (members_fold_last
                  (List.map (member_toVariant ExportContext_toExportValue context) l1)
                  (List.map (member_toVariant ExportContext_toExportValue context) l2)
                  (exported_member k (ExportContext_toExportValue context v)) [])
      as Hlast.
    rewrite exported_member_name in Hlast. rewrite Hlast.
    - unfold exported_member. now destruct (negb _).
    - intros r' Hr'. apply List.in_map_iff in Hr'. destruct Hr' as ([k' v'] & <- & Hin).
      rewrite member_toVariant_exported, exported_member_name.
      intros ->. rewrite Hsplit in Hnd. unfold QMap_keys in Hnd.
      rewrite List.map_app in Hnd. simpl in Hnd.
      apply List.NoDup_remove_2 in Hnd. apply Hnd, List.in_or_app. right.
      apply List.in_map_iff. exists (k, v'). auto. }
  split; [reflexivity|]. split; [|split].
  - intros k. rewrite members_fold_contains, existsb_member_toVariant.
    apply orb_false_r.
  - exact Hvalue.
  - intros import context' k Hk.
    transitivity (resolve_member import context'
                    (exported_member k
                       (ExportContext_toExportValue context (QMap_value ms k))));
      [|apply resolve_exported_member].
    f_equal. exact (Hvalue k Hk).
Qed.

End ClassDefinitionRoundTrip.

Lemma createFromVariant_ClassPropertyType_toVariant_witness :
  exists c,
    createFromVariant plain_toInt
      (ClassPropertyType_toVariant plain_toExportValue
         (mkClass (mkBase 2 "Point") [("x"%string, VInt 0); ("y"%string, VInt 0)])
         empty_context) 0
    = (Some (Class c), 2%Z)
    /\ QMap_value (members c) "y"
       = VMap [("name"%string, VString "y"); ("type"%string, VString "int");
               ("value"%string, VInt 0)].
Proof.
  destruct (createFromVariant_ClassPropertyType_toVariant plain_toInt plain_toExportValue
              (mkClass (mkBase 2 "Point") [("x"%string, VInt 0); ("y"%string, VInt 0)])
              empty_context 0)
    as (c & Hc & _ & _ & Hv & _).
  - repeat constructor; simpl; intuition discriminate.
  - exists c. split; [exact Hc|]. apply (Hv "y"%string). reflexivity.
Defined.

(** ** EnumPropertyType: ranges and round trips *)

Lemma flags_from_strings_Some (vals segs : list string) (flags r : Z) :
  flags_from_strings vals segs flags = Some r ->
  forall seg, In seg segs -> In seg vals.
Proof.
  revert flags. induction segs as [|s segs IH]; intros flags Hr seg Hin; [destruct Hin|].
  simpl in Hr. destruct (Z.eqb_spec (indexOf vals s) (-1)) as [|Hfound]; [discriminate|].
  destruct Hin as [<-|Hin]; [|eapply IH; eauto].
  destruct (List.in_dec String.string_dec s vals) as [|Hn]; [assumption|].
  apply indexOf_not_found in Hn. contradiction.
Qed.

Lemma indexOf_from_least (l : list string) (s : string) (i : Z) (k : nat) :
  In s l -> k < Z.to_nat (indexOf_from l s i - i) -> nth k l EmptyString <> s.
Proof.
  revert i k. induction l as [|x l IH]; intros i k Hin Hk; [destruct Hin|].
  simpl indexOf_from in Hk. destruct (String.eqb_spec x s) as [->|Hne].
  - rewrite Z.sub_diag in Hk. simpl in Hk. lia.
  - destruct Hin as [->|Hin]; [congruence|].
    destruct k as [|k]; [exact Hne|]. simpl.
    apply (IH (i + 1)%Z k Hin).
    pose proof (indexOf_from_in l s (i + 1) Hin) as [Hr _]. lia.
Qed.

(** X10.  With [valuesAsFlags], what [toPropertyValue] makes of a string is
    either the string itself (some piece is not a name) or an integer that is
    a 32-bit int and has no bit set that the names cannot name; a string
    without any piece (empty, or only commas) gives the mask 0. *)
Theorem EnumPropertyType_toPropertyValue_flags_range (this : EnumPropertyType)
    (stringValue : string) :
  valuesAsFlags this = true ->
  (split_skip stringValue = [] ->
   EnumPropertyType_toPropertyValue this (VString stringValue)
   = PropertyType_wrap (enum_base this) (VInt 0))
  /\ ((EnumPropertyType_toPropertyValue this (VString stringValue)
       = PropertyType_wrap (enum_base this) (VString stringValue)
       /\ exists seg, In seg (split_skip stringValue) /\ ~ In seg (values this))
      \/ exists flags,
           EnumPropertyType_toPropertyValue this (VString stringValue)
           = PropertyType_wrap (enum_base this) (VInt flags)
           /\ in_int flags
           /\ Z.land flags (valid_mask (length (values this))) = flags
           /\ forall seg, In seg (split_skip stringValue) -> In seg (values this)).
Proof.
  intros Hflags. unfold EnumPropertyType_toPropertyValue. rewrite Hflags. split.
  - intros ->. reflexivity.
  - destruct (flags_from_strings (values this) (split_skip stringValue) 0) as [r|] eqn:Hr.
    + right. exists r. pose proof (flags_from_strings_Some _ _ _ _ Hr) as Hall.
      rewrite flags_from_strings_known in Hr by exact Hall.
      rewrite Z.lor_0_l in Hr. injection Hr as <-.
      rewrite <- List.map_map.
      assert (Hidx : Forall (fun j => (0 <= j < Z.of_nat (length (values this)))%Z)
                       (List.map (indexOf (values this)) (split_skip stringValue))).
      { apply List.Forall_forall. intros j Hj. apply List.in_map_iff in Hj.
        destruct Hj as (seg & <- & Hseg). apply indexOf_found, Hall, Hseg. }
      split; [reflexivity|split; [|split; [|exact Hall]]].
      * apply or_all_in_int.
      * now apply or_all_within_mask.
    + left. split; [reflexivity|].
      destruct (List.Exists_dec (fun seg => ~ In seg (values this))
                  (split_skip stringValue)) as [Hex|Hnex].
      * intros seg. destruct (List.in_dec String.string_dec seg (values this));
          [right; tauto|left; assumption].
      * apply List.Exists_exists in Hex. exact Hex.
      * rewrite flags_from_strings_known in Hr; [discriminate|].
        intros seg Hseg.
        destruct (List.in_dec String.string_dec seg (values this)) as [|Hn]; [assumption|].
        exfalso. apply Hnex, List.Exists_exists. eauto.
Qed.

Lemma EnumPropertyType_toPropertyValue_flags_range_witness :
  EnumPropertyType_toPropertyValue
    (mkEnum (mkBase 4 "Sides") StringValue ["A"; "B"]%string true) (VString ",,")
  = VPropertyValue (VInt 0) 4.
Proof.
  destruct (EnumPropertyType_toPropertyValue_flags_range
              (mkEnum (mkBase 4 "Sides") StringValue ["A"; "B"]%string true) ",," eq_refl)
    as [H _].
  apply H. reflexivity.
Defined.

Section MoreEnumRoundTrips.

Variable ExportContext_toExportValue : ExportContext -> QVariant -> ExportValue.
Hypothesis host_plain : exports_plain_values ExportContext_toExportValue.

(** Exporting a mask and importing the string again keeps of the mask the bits
    that the names can name. *)
Lemma flags_export_import (this : EnumPropertyType) (f : Z) (context : ExportContext) :
  valuesAsFlags this = true ->
  storageType this = StringValue ->
  List.NoDup (values this) ->
  Forall flag_name (values this) ->
  in_int f ->
  EnumPropertyType_toPropertyValue this
    (ev_value (EnumPropertyType_toExportValue ExportContext_toExportValue this (VInt f)
                 context))
  = PropertyType_wrap (enum_base this)
      (VInt (Z.land f (valid_mask (length (values this))))).
Proof.
  intros Hflags Hst Hnd Hnames Hf.
  assert (Hexp :
    ev_value (EnumPropertyType_toExportValue ExportContext_toExportValue this (VInt f)
                context)
    = VString (join_comma (names_of_bits f (values this) 0))).
  { unfold EnumPropertyType_toExportValue.
    rewrite Hst, Hflags,
      (PropertyType_toExportValue_plain_string ExportContext_toExportValue host_plain).
    f_equal. apply (flags_to_string_join f (values this) [] 0 Hf); [lia|constructor|].
    eapply List.Forall_impl; [|exact Hnames]. intros s [H _]. exact H. }
  rewrite Hexp. unfold EnumPropertyType_toPropertyValue. rewrite Hflags.
  rewrite split_skip_join.
  - rewrite flags_from_strings_known by (intros seg; apply names_of_bits_In).
    rewrite Z.lor_0_l, <- List.map_map.
    pose proof (indexOf_names_of_bits f [] (values this) Hnd) as Hidx.
    change (Z.of_nat (length (@nil string))) with 0%Z in Hidx.
    change (@nil string ++ values this) with (values this) in Hidx.
    rewrite Hidx. now rewrite or_all_set_bits_masked.
  - apply List.Forall_forall. intros s Hs.
    apply (proj1 (List.Forall_forall _ _) Hnames), (names_of_bits_In _ _ _ _ Hs).
Qed.

(** X8.  With [valuesAsFlags] and string storage, names that occur once, are
    not empty and hold no comma, exporting any int mask and importing the
    result gives the mask cut down to the bits the names can name: bits
    beyond the names are lost, and a value that an import produced comes back
    unchanged. *)
Theorem EnumPropertyType_flags_round_trip_masks (this : EnumPropertyType)
    (context : ExportContext) :
  valuesAsFlags this = true ->
  storageType this = StringValue ->
  List.NoDup (values this) ->
  Forall flag_name (values this) ->
  (forall f, in_int f ->
     EnumPropertyType_toPropertyValue this
       (ev_value (EnumPropertyType_toExportValue ExportContext_toExportValue this (VInt f)
                    context))
     = PropertyType_wrap (enum_base this)
         (VInt (Z.land f (valid_mask (length (values this))))))
  /\ (forall stringValue flags,
        EnumPropertyType_toPropertyValue this (VString stringValue)
        = PropertyType_wrap (enum_base this) (VInt flags) ->
        EnumPropertyType_toPropertyValue this
          (ev_value (EnumPropertyType_toExportValue ExportContext_toExportValue this
                       (VInt flags) context))
        = PropertyType_wrap (enum_base this) (VInt flags)).
Proof.
  intros Hflags Hst Hnd Hnames. split.
  - intros f Hf. now apply flags_export_import.
  - intros stringValue flags Himport.
    assert (Hrange : in_int flags
                     /\ Z.land flags (valid_mask (length (values this))) = flags).
    { unfold EnumPropertyType_toPropertyValue in Himport. rewrite Hflags in Himport.
      destruct (flags_from_strings (values this) (split_skip stringValue) 0) as [r|] eqn:Hr;
        [|discriminate].
      injection Himport as <-.
      pose proof (flags_from_strings_Some _ _ _ _ Hr) as Hall.
      rewrite flags_from_strings_known in Hr by exact Hall.
      rewrite Z.lor_0_l in Hr. injection Hr as <-. rewrite <- List.map_map.
      assert (Hidx : Forall (fun j => (0 <= j < Z.of_nat (length (values this)))%Z)
                       (List.map (indexOf (values this)) (split_skip stringValue))).
      { apply List.Forall_forall. intros j Hj. apply List.in_map_iff in Hj.
        destruct Hj as (seg & <- & Hseg). apply indexOf_found, Hall, Hseg. }
      split; [apply or_all_in_int|now apply or_all_within_mask]. }
    destruct Hrange as [Hint Hmask].
    rewrite flags_export_import by assumption. now rewrite Hmask.
Qed.

(** X9.  Without [valuesAsFlags] and with string storage, importing a name of
    the enum gives the first index that carries the name, a valid index, and
    exporting that index gives the name back. *)
Theorem EnumPropertyType_name_round_trip (this : EnumPropertyType) (s : string)
    (context : ExportContext) :
  valuesAsFlags this = false ->
  storageType this = StringValue ->
  In s (values this) ->
  exists i : Z,
    EnumPropertyType_toPropertyValue this (VString s)
    = PropertyType_wrap (enum_base this) (VInt i)
    /\ (0 <= i < Z.of_nat (length (values this)))%Z
    /\ nth (Z.to_nat i) (values this) EmptyString = s
    /\ (forall k, k < Z.to_nat i -> nth k (values this) EmptyString <> s)
    /\ ev_value (EnumPropertyType_toExportValue ExportContext_toExportValue this (VInt i)
                   context)
       = VString s.
Proof.
  intros Hflags Hst Hin. exists (indexOf (values this) s).
  destruct (indexOf_found _ _ Hin) as [Hrange Hnth].
  split; [|split; [exact Hrange|split; [exact Hnth|split]]].
  - unfold EnumPropertyType_toPropertyValue. rewrite Hflags.
    change (QStringList_indexOf (values this) s) with (indexOf (values this) s).
    destruct (Z.eqb_spec (indexOf (values this) s) (-1)); [lia|reflexivity].
  - intros k Hk. apply (indexOf_from_least (values this) s 0 k Hin).
    unfold indexOf in Hk. now rewrite Z.sub_0_r.
  - unfold EnumPropertyType_toExportValue. rewrite Hst, Hflags.
    destruct (Z.leb_spec 0 (indexOf (values this) s)); [|lia].
    destruct (Z.ltb_spec (indexOf (values this) s) (Z.of_nat (length (values this))));
      [|lia].
    simpl andb. cbv iota.
    rewrite (PropertyType_toExportValue_plain_string ExportContext_toExportValue
               host_plain).
    now rewrite Hnth.
Qed.

End MoreEnumRoundTrips.

Lemma EnumPropertyType_flags_round_trip_masks_witness :
  EnumPropertyType_toPropertyValue
    (mkEnum (mkBase 3 "Sides") StringValue ["L"; "R"]%string true)
    (ev_value (EnumPropertyType_toExportValue plain_toExportValue
                 (mkEnum (mkBase 3 "Sides") StringValue ["L"; "R"]%string true)
                 (VInt 6) empty_context))
  = VPropertyValue (VInt 2) 3.
Proof.
  destruct (EnumPropertyType_flags_round_trip_masks plain_toExportValue
              plain_toExportValue_plain
              (mkEnum (mkBase 3 "Sides") StringValue ["L"; "R"]%string true)
              empty_context eq_refl eq_refl) as [H _].
  - repeat constructor; simpl; intuition discriminate.
  - repeat constructor; discriminate.
  - apply (H 6%Z). unfold in_int, int_min, int_max. lia.
Defined.

Lemma EnumPropertyType_name_round_trip_witness :
  exists i : Z,
    EnumPropertyType_toPropertyValue
      (mkEnum (mkBase 2 "Dir") StringValue ["N"; "E"; "N"]%string false) (VString "N")
    = VPropertyValue (VInt i) 2
    /\ i = 0%Z.
Proof.
  destruct (EnumPropertyType_name_round_trip plain_toExportValue plain_toExportValue_plain
              (mkEnum (mkBase 2 "Dir") StringValue ["N"; "E"; "N"]%string false) "N"
              empty_context eq_refl eq_refl)
    as (i & Himport & _ & _ & Hfirst & _).
  - simpl. tauto.
  - exists i. split; [exact Himport|].
    simpl in Himport. now injection Himport as <-.
Defined.

(** ** canAddMemberOfType: the guard is exact *)

Lemma containment_contains (types : PropertyTypes) (p q : nat) :
  (p, q) ∈ containment types -> contains types p q.
Proof.
  unfold containment. intros H. apply list_elem_of_join in H.
  destruct H as (l & Hpq & Hl). apply elem_of_lookup_imap in Hl.
  destruct Hl as (i & t & -> & Ht). destruct t as [e|c]; simpl in Hpq; [inversion Hpq|].
  apply list_elem_of_omap in Hpq. destruct Hpq as ([key member] & Hin & Hedge).
  simpl in Hedge. destruct member as [| | | | | |value typeId]; try discriminate.
  destruct (PropertyValue_type types typeId) as [q'|] eqn:Hq; [|discriminate].
  injection Hedge as <- <-. exists c, key, value, typeId.
  split; [exact Ht|]. split; [now apply list_elem_of_In|exact Hq].
Qed.

(** Adding a member is checked on the listed edges. *)
Lemma adds_member_by_edges (types types' : PropertyTypes) (this candidate : nat) :
  forallb (fun e : nat * nat =>
             existsb (fun e' : nat * nat =>
                        Nat.eqb (fst e) (fst e') && Nat.eqb (snd e) (snd e'))
                     (containment types)
             || (Nat.eqb (fst e) this && Nat.eqb (snd e) candidate))
          (containment types') = true ->
  adds_member types types' this candidate.
Proof.
  intros Hall p q Hpq. apply contains_containment, list_elem_of_In in Hpq.
  rewrite List.forallb_forall in Hall. specialize (Hall _ Hpq). simpl in Hall.
  apply orb_true_iff in Hall. destruct Hall as [Hold|Hnew].
  - left. apply List.existsb_exists in Hold. destruct Hold as ([p' q'] & Hin & Heq).
    simpl in Heq. apply andb_true_iff in Heq. destruct Heq as [Hp%Nat.eqb_eq Hq%Nat.eqb_eq].
    subst p' q'. now apply containment_contains, list_elem_of_In.
  - right. apply andb_true_iff in Hnew. destruct Hnew as [Hp%Nat.eqb_eq Hq%Nat.eqb_eq].
    auto.
Qed.

(** A path in a relation with one more edge [(a, b)] is a path of the relation
    or passes through the edge. *)
Lemma tc_one_more_edge {A : Type} (R R' : A -> A -> Prop) (a b x y : A) :
  (forall u v, R' u v -> R u v \/ (u = a /\ v = b)) ->
  tc R' x y ->
  tc R x y \/ ((x = a \/ tc R x a) /\ (y = b \/ tc R b y)).
Proof.
  intros Hsub. induction 1 as [x y Hxy|x y z Hxy _ IH].
  - destruct (Hsub _ _ Hxy) as [H|[-> ->]]; [left; now apply tc_once|right; auto].
  - destruct (Hsub _ _ Hxy) as [H|[-> ->]].
    + destruct IH as [IH|[[->|Hya] Hz]].
      * left. eapply tc_l; eauto.
      * right. split; [right; now apply tc_once|exact Hz].
      * right. split; [right; eapply tc_l; eauto|exact Hz].
    + destruct IH as [IH|[_ Hz]]; right; (split; [now left|]); auto.
Qed.

Lemma tc_more_edges {A : Type} (R R' : A -> A -> Prop) (x y : A) :
  (forall u v, R u v -> R' u v) -> tc R x y -> tc R' x y.
Proof.
  intros Hsub. induction 1 as [x y H|x y z H _ IH];
    [apply tc_once|eapply tc_l]; eauto.
Qed.

Section CanAddExact.

Variable types : PropertyTypes.
Variable this : nat.

Local Abbreviation canAdd := (fun fuel => ClassPropertyType_canAddMemberOfType fuel types this).

Lemma canAdd_members_complete (check : nat -> option bool) (ms : list QVariant) :
  canAdd_members check types ms = Some false ->
  exists value typeId q,
    In (VPropertyValue value typeId) ms
    /\ PropertyValue_type types typeId = Some q
    /\ check q = Some false.
Proof.
  induction ms as [|member ms IH]; simpl; [discriminate|]. intros Hr.
  assert (Hrest : canAdd_members check types ms = Some false ->
                  exists value typeId q,
                    (member = VPropertyValue value typeId
                     \/ In (VPropertyValue value typeId) ms)
                    /\ PropertyValue_type types typeId = Some q
                    /\ check q = Some false).
  { intros H. destruct (IH H) as (value & typeId & q & Hin & Hq & Hc).
    exists value, typeId, q. auto. }
  destruct member as [| | | | | |value typeId]; auto.
  destruct (PropertyValue_type types typeId) as [q|] eqn:Hq; auto.
  destruct (check q) as [[|]|] eqn:Hc; [auto| |discriminate].
  exists value, typeId, q. auto.
Qed.

(** The call returns false only for the class itself and for candidates that
    contain it. *)
Lemma canAdd_complete (fuel : nat) (candidate : nat) :
  canAdd fuel candidate = Some false ->
  candidate = this \/ tc (contains types) candidate this.
Proof.
  revert candidate. induction fuel as [|fuel IH]; intros candidate Hr; [discriminate|].
  simpl in Hr. destruct (Nat.eqb_spec candidate this) as [|Hne]; [now left|]. right.
  destruct (types !! candidate) as [[e|c]|] eqn:Hc; try discriminate.
  apply canAdd_members_complete in Hr. destruct Hr as (value & typeId & q & Hin & Hq & Hr).
  apply List.in_map_iff in Hin. destruct Hin as ([key member] & Hmember & Hin).
  simpl in Hmember. subst member.
  assert (Hedge : contains types candidate q) by (exists c, key, value, typeId; auto).
  destruct (IH q Hr) as [->|Hpath]; [now apply tc_once|eapply tc_l; eauto].
Qed.

(** X12.  Whenever [canAddMemberOfType] returns, it returns false exactly
    for the class itself and for the candidates that contain it, directly or
    through other classes; on a registry in which no class contains itself it
    returns for every candidate of the registry, so it returns true exactly
    when the candidate is another type that does not contain the class. *)
Theorem ClassPropertyType_canAddMemberOfType_exact :
  (forall fuel candidate r,
     ClassPropertyType_canAddMemberOfType fuel types this candidate = Some r ->
     (r = false <-> candidate = this \/ tc (contains types) candidate this))
  /\ (acyclic types ->
      forall candidate, candidate < length types ->
      forall fuel, length types <= fuel ->
      exists r,
        ClassPropertyType_canAddMemberOfType fuel types this candidate = Some r
        /\ (r = true <-> candidate <> this /\ ~ tc (contains types) candidate this)).
Proof.
  assert (Hexact : forall fuel candidate r,
            canAdd fuel candidate = Some r ->
            (r = false <-> candidate = this \/ tc (contains types) candidate this)).
  { intros fuel candidate r Hr. split.
    - intros ->. eapply canAdd_complete, Hr.
    - intros Hreach. eapply canAdd_sound; eauto. }
  split; [exact Hexact|].
  intros Hacyclic candidate Hvalid fuel Hfuel.
  destruct (canAdd_total types this fuel [] candidate Hacyclic) as [r Hr].
  - apply NoDup_singleton.
  - intros x Hx. apply list_elem_of_singleton in Hx. now subst x.
  - intros x Hx. inversion Hx.
  - simpl. lia.
  - exists r. split; [exact Hr|]. specialize (Hexact _ _ _ Hr).
    destruct r; split.
    + intros _. split.
      * intros ->. assert (true = false) by (apply Hexact; now left). discriminate.
      * intros Hp. assert (true = false) by (apply Hexact; now right). discriminate.
    + reflexivity.
    + discriminate.
    + intros [Hne Hno]. destruct (proj1 Hexact eq_refl); contradiction.
Qed.

(** X13.  The guard does what it is for.  On a registry in which no class
    contains itself, when [canAddMemberOfType] returns true, the registry
    with a member of the candidate type added to the class still has no class
    that contains itself; and when it returns false, a registry in which the
    class has such a member has a class that contains itself. *)
Theorem ClassPropertyType_canAddMemberOfType_guards (types' : PropertyTypes)
    (fuel candidate : nat) :
  (acyclic types ->
   ClassPropertyType_canAddMemberOfType fuel types this candidate = Some true ->
   adds_member types types' this candidate ->
   acyclic types')
  /\ (ClassPropertyType_canAddMemberOfType fuel types this candidate = Some false ->
      (forall p q, contains types p q -> contains types' p q) ->
      contains types' this candidate ->
      tc (contains types') this this).
Proof.
  split.
  - intros Hacyclic Hr Hadds p Hcycle.
    assert (Hno : ~ (candidate = this \/ tc (contains types) candidate this)).
    { intros Hreach. pose proof (canAdd_sound types this _ _ _ Hr Hreach). discriminate. }
    destruct (tc_one_more_edge (contains types) (contains types') this candidate p p
                Hadds Hcycle) as [Hold|[Hto Hfrom]].
    + exact (Hacyclic p Hold).
    + apply Hno. destruct Hto as [->|Hto], Hfrom as [Heq|Hfrom].
      * left. now symmetry.
      * now right.
      * subst p. now right.
      * right. eapply tc_transitive; eauto.
  - intros Hr Hkeeps Hedge. destruct (canAdd_complete _ _ Hr) as [->|Hpath].
    + now apply tc_once.
    + eapply tc_l; [exact Hedge|]. eapply tc_more_edges; eauto.
Qed.

End CanAddExact.

Lemma ClassPropertyType_canAddMemberOfType_exact_witness :
  exists r,
    ClassPropertyType_canAddMemberOfType 3 registry_chain 2 0 = Some r
    /\ (r = true <-> 0 <> 2 /\ ~ tc (contains registry_chain) 0 2).
Proof.
  destruct (ClassPropertyType_canAddMemberOfType_exact registry_chain 2) as [_ H].
  apply (H (acyclic_by_positions registry_chain eq_refl) 0); simpl; lia.
Defined.

Lemma ClassPropertyType_canAddMemberOfType_guards_witness :
  acyclic
    [ Class (mkClass (mkBase 1 "X") []);
      Class (mkClass (mkBase 2 "A") [("x"%string, VPropertyValue (VMap []) 1)]);
      Class (mkClass (mkBase 3 "B") [("a"%string, VPropertyValue (VMap []) 2);
                                     ("x"%string, VPropertyValue (VMap []) 1)]) ].
Proof.
  destruct (ClassPropertyType_canAddMemberOfType_guards registry_chain 2
              [ Class (mkClass (mkBase 1 "X") []);
                Class (mkClass (mkBase 2 "A") [("x"%string, VPropertyValue (VMap []) 1)]);
                Class (mkClass (mkBase 3 "B") [("a"%string, VPropertyValue (VMap []) 2);
                                               ("x"%string, VPropertyValue (VMap []) 1)]) ]
              3 0) as [H _].
  apply H.
  - apply acyclic_by_positions. reflexivity.
  - reflexivity.
  - apply adds_member_by_edges. reflexivity.
Defined.

(** ** resolveDependencies: what it touches *)

Lemma set_member_lookup_ne (m : PropertyTypes) (p j p' : nat) (v : QVariant) :
  p' <> p -> set_member m p j v !! p' = m !! p'.
Proof.
  intros Hne. unfold set_member.
  destruct (m !! p) as [[e|c]|]; try reflexivity.
  destruct (members c !! j) as [[key old]|]; [|reflexivity].
  now apply list_lookup_insert_ne.
Qed.

Section ResolvingOne.

Variable ExportContext_toPropertyValue_export : ExportContext -> ExportValue -> QVariant.
Variable path : string.

Lemma resolve_steps_lookup_ne (p p' : nat) (js : list nat) (m : PropertyTypes) :
  p' <> p ->
  List.fold_left (resolve_step ExportContext_toPropertyValue_export path p) js m !! p'
  = m !! p'.
Proof.
  intros Hne. revert m. induction js as [|j js IH]; intros m; [reflexivity|].
  simpl. rewrite IH. unfold resolve_step.
  destruct (m !! p) as [[e|c]|]; try reflexivity.
  destruct (members c !! j) as [[key raw]|]; [|reflexivity].
  now apply set_member_lookup_ne.
Qed.

(** X14.  [resolveDependencies] of the type at [p] changes nothing but the
    values of the members of a class at [p]: every other type of the registry
    is left as it is, an enum is left as it is, and ids, names, kinds and
    member names stay in place; each member of the class holds afterwards what
    the host made of its raw record, and the host saw a registry with the
    same ids, names, kinds and member names. *)
Theorem resolveDependencies_touches_member_values (m : PropertyTypes) (p : nat) :
  let m' := resolveDependencies ExportContext_toPropertyValue_export path m p in
  List.map shape m' = List.map shape m
  /\ length m' = length m
  /\ (forall p', p' <> p -> m' !! p' = m !! p')
  /\ (forall e, m !! p = Some (Enum e) -> m' = m)
  /\ (forall j key raw, member_at m p j = Some (key, raw) ->
        exists reg,
          List.map shape reg = List.map shape m
          /\ member_at m' p j
             = Some (key, resolve_member ExportContext_toPropertyValue_export
                            (mkExportContext reg path) raw)).
Proof.
  intros m'. subst m'.
  destruct (resolveDependencies_spec ExportContext_toPropertyValue_export path m p)
    as (Hshape & _ & Hsame).
  split; [exact Hshape|]. split; [|split; [|split]].
  - apply (f_equal (@length _)) in Hshape. now rewrite !List.length_map in Hshape.
  - intros p' Hne. unfold resolveDependencies.
    destruct (m !! p) as [[e|c]|]; try reflexivity.
    now apply resolve_steps_lookup_ne.
  - intros e He. unfold resolveDependencies. now rewrite He.
  - intros j key raw Hraw. exact (Hsame j key raw Hraw).
Qed.

End ResolvingOne.

(** ** loadFrom and the id counter *)

Section LoadCounter.

Variable QString_toInt : string -> Z.

(** As long as the counter stays below [INT_MAX], every id read from a record
    is at most the counter after the records. *)
Lemma parsed_ids_le_counter (list : QVariantList) (nextId : Z) (t : PropertyType) :
  counter_below QString_toInt list nextId ->
  In t (omap (parse_record QString_toInt) list) ->
  (id (base t) <= counter_after QString_toInt list nextId)%Z.
Proof.
  revert nextId. induction list as [|r list IH]; intros nextId Hb Hin; [destruct Hin|].
  rewrite counter_after_cons.
  change (omap (parse_record QString_toInt) (r :: list))
    with (match parse_record QString_toInt r with
          | Some t' => t' :: omap (parse_record QString_toInt) list
          | None => omap (parse_record QString_toInt) list
          end) in Hin.
  pose proof (counter_below_cons _ _ _ _ Hb) as Hb'.
  assert (Hhead : parse_record QString_toInt r = Some t ->
                  (id (base t) <= snd (createFromVariant QString_toInt (toMap r) nextId))%Z).
  { unfold parse_record. rewrite (createFromVariant_fst QString_toInt (toMap r) 0 nextId).
    pose proof (createFromVariant_cases QString_toInt (toMap r) nextId) as H. simpl in H.
    destruct (typeFromString _).
    - rewrite H. discriminate.
    - destruct H as (t' & -> & Hs). simpl. intros [= ->].
      unfold skeleton in Hs. injection Hs as -> _ _. lia.
    - destruct H as (t' & -> & Hs). simpl. intros [= ->].
      unfold skeleton in Hs. injection Hs as -> _ _. lia. }
  destruct (parse_record QString_toInt r) as [t'|] eqn:Hr.
  - destruct Hin as [->|Hin]; [|now apply IH].
    etransitivity; [now apply Hhead|now apply counter_after_le].
  - now apply IH.
Qed.

(** As long as the counter stays below [INT_MAX], it advances by at least one
    for each valid record. *)
Lemma counter_after_valid (list : QVariantList) (nextId : Z) :
  counter_below QString_toInt list nextId ->
  (nextId + Z.of_nat (length (List.filter record_valid list))
   <= counter_after QString_toInt list nextId)%Z.
Proof.
  revert nextId. induction list as [|r list IH]; intros nextId Hb.
  - simpl. unfold counter_after. simpl. lia.
  - rewrite counter_after_cons.
    specialize (IH (snd (createFromVariant QString_toInt (toMap r) nextId))
                   (counter_below_cons _ _ _ _ Hb)).
    pose proof (counter_below_start _ _ _ Hb) as Hn.
    assert (Hw : wrap_int (nextId + 1) = (nextId + 1)%Z)
      by (apply wrap_int_small; unfold in_int, int_min, int_max in *; lia).
    pose proof (createFromVariant_cases QString_toInt (toMap r) nextId) as H.
    simpl in H. simpl List.filter. unfold record_valid at 1, record_type.
    destruct (typeFromString _).
    + rewrite H in IH |- *. simpl in IH |- *. exact IH.
    + destruct H as (t & Ht & _). rewrite Ht in IH |- *. simpl in IH |- *. lia.
    + destruct H as (t & Ht & _). rewrite Ht in IH |- *. simpl in IH |- *. lia.
Qed.

Variable ExportContext_toPropertyValue_export : ExportContext -> ExportValue -> QVariant.

(** X15.  As long as the id counter stays below [INT_MAX] during the load
    (the counter is a 32-bit int, and past [INT_MAX] a construction wraps it
    around), after [loadFrom] the counter is at least the id of every owned
    type, whatever ids the records state, and it has advanced by at least one
    for each owned type; so the type constructed next is given an id that no
    owned type has.  An empty list leaves an empty registry and the counter
    where it was. *)
Theorem PropertyTypes_loadFrom_fresh_ids (list : QVariantList) (path : string)
    (old : PropertyTypes) (nextId : Z) :
  counter_below QString_toInt list nextId ->
  let loaded :=
    PropertyTypes_loadFrom QString_toInt ExportContext_toPropertyValue_export list path
      (old, nextId) in
  (forall t, In t (fst loaded) -> (id (base t) <= snd loaded)%Z)
  /\ (nextId + Z.of_nat (length (fst loaded)) <= snd loaded)%Z
  /\ (forall name t,
        In t (fst loaded) ->
        id (base t) <> id (base (fst (new_ClassPropertyType name (snd loaded))))
        /\ id (base t) <> id (base (fst (new_EnumPropertyType name (snd loaded)))))
  /\ (list = [] -> loaded = ([], nextId)).
Proof.
  intros Hb loaded.
  assert (Hloaded : loaded
            = (List.fold_left
                 (resolveDependencies ExportContext_toPropertyValue_export path)
                 (seq 0 (length (omap (parse_record QString_toInt) list)))
                 (omap (parse_record QString_toInt) list),
               counter_after QString_toInt list nextId)).
  { subst loaded. unfold PropertyTypes_loadFrom, PropertyTypes_clear.
    now rewrite load_records_spec. }
  destruct (resolve_all_spec ExportContext_toPropertyValue_export path
              (seq 0 (length (omap (parse_record QString_toInt) list)))
              (omap (parse_record QString_toInt) list) (NoDup_seq _ _))
    as (Hshape%shape_skeleton & _ & _).
  rewrite Hloaded. simpl fst. simpl snd.
  assert (Hids : forall t,
            In t (List.fold_left
                    (resolveDependencies ExportContext_toPropertyValue_export path)
                    (seq 0 (length (omap (parse_record QString_toInt) list)))
                    (omap (parse_record QString_toInt) list)) ->
            (id (base t) <= counter_after QString_toInt list nextId)%Z).
  { intros t Hin.
    assert (Hsk : In (skeleton t)
                     (List.map skeleton (omap (parse_record QString_toInt) list)))
      by (rewrite <- Hshape; now apply List.in_map).
    apply List.in_map_iff in Hsk. destruct Hsk as (t0 & Hs & Hin0).
    replace (id (base t)) with (id (base t0))
      by (unfold skeleton in Hs; now injection Hs).
    now apply parsed_ids_le_counter. }
  split; [exact Hids|]. split; [|split].
  - apply (f_equal (@length _)) in Hshape. rewrite !List.length_map in Hshape.
    rewrite Hshape.
    replace (length (omap (parse_record QString_toInt) list))
      with (length (List.filter record_valid list)); [now apply counter_after_valid|].
    rewrite <- (List.length_map (record_skeleton QString_toInt)),
      <- parsed_skeletons.
    now rewrite List.length_map.
  - intros name t Hin. specialize (Hids t Hin).
    pose proof (counter_below_end _ _ _ Hb) as Hend.
    rewrite wrap_int_small by (unfold in_int, int_min, int_max in *; lia).
    simpl. lia.
  - intros ->. reflexivity.
Qed.

End LoadCounter.

Lemma PropertyTypes_loadFrom_fresh_ids_witness :
  id (base (Class (mkClass (mkBase 9 "Old") [])))
  <> id (base (fst (new_EnumPropertyType "New"
                      (snd (PropertyTypes_loadFrom plain_toInt plain_resolve
                              [VMap [("id"%string, VInt 9); ("name"%string, VString "Old");
                                     ("type"%string, VString "class")]]
                              EmptyString ([], 0%Z)))))).
Proof.
  destruct (PropertyTypes_loadFrom_fresh_ids plain_toInt plain_resolve
              [VMap [("id"%string, VInt 9); ("name"%string, VString "Old");
                     ("type"%string, VString "class")]]
              EmptyString [] 0%Z) as (_ & _ & H & _).
  - apply counter_below_check. reflexivity.
  - apply (H "New"%string (Class (mkClass (mkBase 9 "Old") []))). simpl. now left.
Defined.

(** ** Values: what every conversion stamps on its result *)

Section Stamps.

Variable ExportContext_toExportValue : ExportContext -> QVariant -> ExportValue.
Variable ExportContext_toPropertyValue : ExportContext -> QVariant -> MetaType -> QVariant.

(** X7.  Whatever the type and the value, the export carries the name of the
    type as property type name; the export of a class value is what the host
    makes of a mapping with the keys of the value, in which every member value
    is replaced by the value the host exports it as. *)
Theorem toExportValue_propertyTypeName (this : PropertyType) (value : QVariant)
    (context : ExportContext) :
  ev_propertyTypeName (toExportValue ExportContext_toExportValue this value context)
  = name (base this)
  /\ (forall c, this = Class c ->
        exists properties,
          ev_value (toExportValue ExportContext_toExportValue this value context)
          = ev_value (ExportContext_toExportValue context (VMap properties))
          /\ ev_typeName (toExportValue ExportContext_toExportValue this value context)
             = ev_typeName (ExportContext_toExportValue context (VMap properties))
          /\ QMap_keys properties = QMap_keys (toMap value)
          /\ forall j key v, toMap value !! j = Some (key, v) ->
               properties !! j
               = Some (key, ev_value (ExportContext_toExportValue context v))).
Proof.
  split.
  - destruct this as [e|c]; simpl; [|reflexivity].
    unfold EnumPropertyType_toExportValue.
    destruct value; try reflexivity.
    destruct (storageType e); try reflexivity.
    destruct (valuesAsFlags e); [reflexivity|].
    now destruct (_ && _).
  - intros c ->. simpl. unfold ClassPropertyType_toExportValue.
    eexists. split; [reflexivity|]. split; [reflexivity|]. split.
    + unfold QMap_keys. rewrite List.map_map. reflexivity.
    + intros j key v Hj.
      change (List.map ?f ?l !! j) with ((f <$> l) !! j).
      rewrite list_lookup_fmap, Hj. reflexivity.
Qed.

(** X16.  An enum exports a name only for an index that its values have: with
    int storage, for a value that is not an integer, and (without
    [valuesAsFlags]) for an index that is negative or not below the number of
    values, the export is what the base conversion makes of the value as it
    is. *)
Theorem EnumPropertyType_toExportValue_falls_through (this : EnumPropertyType)
    (value : QVariant) (context : ExportContext) :
  storageType this = IntValue
  \/ (forall i, value <> VInt i)
  \/ (valuesAsFlags this = false
      /\ exists i, value = VInt i /\ (i < 0 \/ Z.of_nat (length (values this)) <= i)%Z) ->
  EnumPropertyType_toExportValue ExportContext_toExportValue this value context
  = PropertyType_toExportValue ExportContext_toExportValue (enum_base this) value context.
Proof.
  unfold EnumPropertyType_toExportValue.
  intros [Hst|[Hnot|(Hflags & i & -> & Hout)]].
  - rewrite Hst. now destruct value.
  - destruct value as [| |i| | | |]; try reflexivity. now destruct (Hnot i).
  - rewrite Hflags. destruct (storageType this); try reflexivity.
    destruct (Z.leb_spec 0 i); [|reflexivity].
    destruct (Z.ltb_spec i (Z.of_nat (length (values this)))); [lia|reflexivity].
Qed.

Lemma toPropertyValue_wrapped (fuel : nat) (this : PropertyType) (value result : QVariant)
    (context : ExportContext) :
  toPropertyValue ExportContext_toPropertyValue fuel this value context = Some result ->
  exists v, result = VPropertyValue v (id (base this)).
Proof.
  destruct fuel as [|fuel]; [discriminate|]. destruct this as [e|c]; simpl.
  - intros [= <-]. unfold EnumPropertyType_toPropertyValue, PropertyType_wrap.
    destruct value; eauto.
    destruct (valuesAsFlags e).
    + destruct (flags_from_strings _ _ _); eauto.
    + destruct (negb _); eauto.
  - destruct (mapM _ _); [|discriminate]. intros [= <-]. unfold PropertyType_wrap. eauto.
Qed.

(** X11.  What [toPropertyValue] returns is a value wrapped with the id of the
    type, for an enum and for a class alike; and in the mapping that the
    conversion of a class value returns, every entry whose member is declared
    with a type that the registry has is a value wrapped with the id of that
    type. *)
Theorem toPropertyValue_wraps_with_id (fuel : nat) (this : PropertyType)
    (value result : QVariant) (context : ExportContext) :
  toPropertyValue ExportContext_toPropertyValue fuel this value context = Some result ->
  (exists v, result = VPropertyValue v (id (base this)))
  /\ (forall c j key v default typeId,
        this = Class c ->
        toMap value !! j = Some (key, v) ->
        QMap_value (members c) key = VPropertyValue default typeId ->
        is_Some (PropertyTypes_findTypeById (ctx_types context) typeId) ->
        exists v', toMap (PropertyValue_value result) !! j
                   = Some (key, VPropertyValue v' typeId)).
Proof.
  intros Hr. split; [eapply toPropertyValue_wrapped, Hr|].
  intros c j key v default typeId -> Hj Hmember [[q t] Hfind].
  destruct fuel as [|fuel]; [discriminate|]. simpl in Hr.
  destruct (mapM _ (toMap value)) as [properties|] eqn:Hm; [|discriminate].
  injection Hr as <-. simpl. apply mapM_Some in Hm.
  destruct (Forall2_lookup_l _ _ _ _ _ Hm Hj) as ([key' r] & Hy & Hentry).
  unfold toPropertyValue_entry in Hentry. rewrite Hmember, Hfind in Hentry.
  simpl in Hentry.
  destruct (toPropertyValue _ fuel t _ context) as [r'|] eqn:Hr'; [|discriminate].
  injection Hentry as <- <-.
  destruct (toPropertyValue_wrapped _ _ _ _ _ Hr') as (v' & ->).
  exists v'. rewrite Hy. do 3 f_equal.
  unfold PropertyTypes_findTypeById in Hfind. apply list_find_Some in Hfind.
  now destruct Hfind as (_ & Hid & _).
Qed.

End Stamps.

Lemma EnumPropertyType_toExportValue_falls_through_witness :
  EnumPropertyType_toExportValue plain_toExportValue
    (mkEnum (mkBase 2 "Dir") StringValue ["N"; "E"]%string false) (VInt 2) empty_context
  = mkExportValue (VInt 2) "int" "Dir".
Proof.
  rewrite (EnumPropertyType_toExportValue_falls_through plain_toExportValue
             (mkEnum (mkBase 2 "Dir") StringValue ["N"; "E"]%string false) (VInt 2)
             empty_context).
  - reflexivity.
  - right. right. split; [reflexivity|]. exists 2%Z. split; [reflexivity|]. simpl. lia.
Defined.

Lemma toPropertyValue_wraps_with_id_witness :
  exists v',
    toMap (PropertyValue_value
             (VPropertyValue (VMap [("d"%string, VPropertyValue (VInt 1) 2)]) 5))
      !! 0
    = Some ("d"%string, VPropertyValue v' 2).
Proof.
  destruct (toPropertyValue_wraps_with_id plain_toPropertyValue 2
              (Class (mkClass (mkBase 5 "Door")
                        [("d"%string, VPropertyValue (VInt 0) 2)]))
              (VMap [("d"%string, VString "E")])
              (VPropertyValue (VMap [("d"%string, VPropertyValue (VInt 1) 2)]) 5)
              (mkExportContext
                 [Enum (mkEnum (mkBase 2 "Dir") StringValue ["N"; "E"]%string false)]
                 EmptyString)
              eq_refl) as [_ H].
  apply (H (mkClass (mkBase 5 "Door") [("d"%string, VPropertyValue (VInt 0) 2)])
           0 "d"%string (VString "E") (VInt 0) 2%Z); try reflexivity.
  eexists. reflexivity.
Defined.

(** ** A registry written and loaded again *)

Lemma QMap_insert_map_values (h : string -> QVariant -> QVariant) (m : QVariantMap)
    (k : string) (v : QVariant) :
  List.map (fun kv : string * QVariant => (fst kv, h (fst kv) (snd kv))) (QMap_insert m k v)
  = QMap_insert (List.map (fun kv : string * QVariant => (fst kv, h (fst kv) (snd kv))) m)
      k (h k v).
Proof.
  induction m as [|[k0 w] m IH]; simpl; [reflexivity|].
  destruct (String.eqb k0 k); [reflexivity|].
  destruct (String.ltb k k0); [reflexivity|].
  simpl. now rewrite IH.
Qed.

Lemma QMap_fold_map_values (h : string -> QVariant -> QVariant)
    (l : list (string * QVariant)) (acc : QVariantMap) :
  List.fold_left (fun m (kv : string * QVariant) =>
                    QMap_insert m (fst kv) (h (fst kv) (snd kv)))
    l (List.map (fun kv : string * QVariant => (fst kv, h (fst kv) (snd kv))) acc)
  = List.map (fun kv : string * QVariant => (fst kv, h (fst kv) (snd kv)))
      (List.fold_left (fun m (kv : string * QVariant) => QMap_insert m (fst kv) (snd kv))
         l acc).
Proof.
  revert acc. induction l as [|[k v] l IH]; intros acc; [reflexivity|].
  simpl. rewrite <- QMap_insert_map_values. apply IH.
Qed.

Lemma resolveDependencies_lookup_ne
    (import : ExportContext -> ExportValue -> QVariant) (path : string)
    (m : PropertyTypes) (p p' : nat) :
  p' <> p -> resolveDependencies import path m p !! p' = m !! p'.
Proof.
  intros Hne. unfold resolveDependencies.
  destruct (m !! p) as [[e|c]|]; try reflexivity.
  now apply resolve_steps_lookup_ne.
Qed.

(** Resolving dependencies leaves every enum of the registry as it is. *)
Lemma resolve_all_lookup_Enum
    (import : ExportContext -> ExportValue -> QVariant) (path : string)
    (ps : list nat) (m : PropertyTypes) (p : nat) (e : EnumPropertyType) :
  m !! p = Some (Enum e) ->
  List.fold_left (resolveDependencies import path) ps m !! p = Some (Enum e).
Proof.
  revert m. induction ps as [|p0 ps IH]; intros m Hp; [exact Hp|].
  simpl. apply IH. destruct (Nat.eq_dec p p0) as [->|Hne].
  - unfold resolveDependencies. now rewrite Hp.
  - now rewrite resolveDependencies_lookup_ne.
Qed.

Section RegistryRoundTrip.

Variable QString_toInt : string -> Z.
Variable ExportContext_toExportValue : ExportContext -> QVariant -> ExportValue.
Variable ExportContext_toPropertyValue_export : ExportContext -> ExportValue -> QVariant.

Local Abbreviation raw := (raw_type ExportContext_toExportValue).

(** What the first phase of a load reads from the record of a type. *)
Lemma parse_record_toVariant (t : PropertyType) (context : ExportContext) :
  match t with Class c => QMap_ok (members c) | Enum _ => True end ->
  parse_record QString_toInt (VMap (toVariant ExportContext_toExportValue t context))
  = Some (raw context t).
Proof.
  intros Hok. unfold parse_record. simpl toMap. destruct t as [e|c]; simpl toVariant.
  - rewrite createFromVariant_Enum by reflexivity.
    rewrite EnumPropertyType_fromVariant_toVariant.
    now destruct e as [[i n] st vals fl].
  - destruct c as [[i n] ms]. simpl in Hok.
    rewrite createFromVariant_Class by reflexivity. simpl fst.
    unfold ClassPropertyType_fromVariant.
    change (QMap_value (ClassPropertyType_toVariant ExportContext_toExportValue
                          (mkClass (mkBase i n) ms) context) "id") with (VInt i).
    change (QMap_value (ClassPropertyType_toVariant ExportContext_toExportValue
                          (mkClass (mkBase i n) ms) context) "name") with (VString n).
    change (QMap_value (ClassPropertyType_toVariant ExportContext_toExportValue
                          (mkClass (mkBase i n) ms) context) "members")
      with (VList (List.map (member_toVariant ExportContext_toExportValue context) ms)).
    simpl. do 3 f_equal.
    transitivity
      (List.fold_left
         (fun m (kv : string * QVariant) =>
            QMap_insert m (fst kv)
              (exported_member (fst kv) (ExportContext_toExportValue context (snd kv))))
         ms []).
    + clear Hok. generalize (@nil (string * QVariant)) as acc.
      induction ms as [|[k v] ms' IH]; intros acc; [reflexivity|].
      cbn [List.map List.fold_left].
      rewrite member_toVariant_exported.
      pose proof (exported_member_name k (ExportContext_toExportValue context v)) as Hname.
      unfold member_name in Hname. rewrite Hname.
      replace (VMap (toMap (exported_member k (ExportContext_toExportValue context v))))
        with (exported_member k (ExportContext_toExportValue context v))
        by reflexivity.
      apply IH.
    + pose proof (QMap_fold_map_values
                    (fun k v => exported_member k (ExportContext_toExportValue context v))
                    ms []) as Hfold.
      simpl in Hfold. rewrite Hfold. f_equal. exact Hok.
Qed.

Lemma parse_records_of (types : PropertyTypes) (context : ExportContext) :
  members_ok types ->
  omap (parse_record QString_toInt)
    (records_of ExportContext_toExportValue types context)
  = List.map (raw context) types.
Proof.
  induction 1 as [|t types Ht _ IH]; [reflexivity|].
  change (records_of ExportContext_toExportValue (t :: types) context)
    with (VMap (toVariant ExportContext_toExportValue t context)
          :: records_of ExportContext_toExportValue types context).
  change (omap ?f (?x :: ?l))
    with (match f x with Some y => y :: omap f l | None => omap f l end).
  rewrite (parse_record_toVariant t context Ht), IH. reflexivity.
Qed.

Lemma raw_type_shape (context : ExportContext) (t : PropertyType) :
  shape (raw context t) = shape t.
Proof.
  destruct t as [e|c]; [reflexivity|]. unfold shape, skeleton. simpl.
  unfold QMap_keys. now rewrite List.map_map.
Qed.

(** X17.  A registry written and loaded again is the registry.  When every
    class holds its members as a [QMap] does, and the host's import gives back
    each member value from the export value the host wrote for it (whatever
    the values of the registry it looks types up in, as long as the ids, names,
    kinds and member names are those of the registry), then [loadFrom], run on
    the records that [toVariant] wrote for the types, owns the very same types
    in the same order, whatever it owned before. *)
Theorem PropertyTypes_loadFrom_records_of (types old : PropertyTypes)
    (context : ExportContext) (path : string) (nextId : Z) :
  members_ok types ->
  (forall reg c key v,
     List.map shape reg = List.map shape types ->
     In (Class c) types -> In (key, v) (members c) ->
     ExportContext_toPropertyValue_export (mkExportContext reg path)
       (ExportContext_toExportValue context v) = v) ->
  fst (PropertyTypes_loadFrom QString_toInt ExportContext_toPropertyValue_export
         (records_of ExportContext_toExportValue types context) path (old, nextId))
  = types.
Proof.
  intros Hok Hhost.
  set (parsed := List.map (raw context) types).
  assert (Hload : fst (PropertyTypes_loadFrom QString_toInt
                         ExportContext_toPropertyValue_export
                         (records_of ExportContext_toExportValue types context) path
                         (old, nextId))
                  = List.fold_left
                      (resolveDependencies ExportContext_toPropertyValue_export path)
                      (seq 0 (length parsed)) parsed).
  { unfold PropertyTypes_loadFrom, PropertyTypes_clear.
    rewrite load_records_spec. simpl app. rewrite parse_records_of by exact Hok.
    reflexivity. }
  rewrite Hload. clear Hload.
  assert (Hparsed_shape : List.map shape parsed = List.map shape types).
  { subst parsed. rewrite List.map_map. apply List.map_ext, raw_type_shape. }
  destruct (resolve_all_spec ExportContext_toPropertyValue_export path
              (seq 0 (length parsed)) parsed (NoDup_seq _ _))
    as (Hshape & _ & Hresolved).
  set (final := List.fold_left _ _ parsed) in *.
  rewrite Hparsed_shape in Hshape.
  assert (Hlen : length final = length types).
  { apply (f_equal (@length _)) in Hshape. now rewrite !List.length_map in Hshape. }
  assert (Hlen' : length parsed = length types)
    by (subst parsed; apply List.length_map).
  apply list_eq. intros p.
  destruct (types !! p) as [t|] eqn:Ht;
    [|apply lookup_ge_None; apply lookup_ge_None in Ht; lia].
  assert (Hparsed : parsed !! p = Some (raw context t)).
  { subst parsed. change (List.map ?f ?l !! p) with ((f <$> l) !! p).
    now rewrite list_lookup_fmap, Ht. }
  destruct t as [e|c].
  { subst final. now apply resolve_all_lookup_Enum. }
  destruct (lookup_lt_is_Some_2 final p) as [t' Ht'];
    [rewrite Hlen; eapply lookup_lt_Some, Ht|].
  assert (Hsh : shape t' = shape (Class c)).
  { apply (f_equal (fun l => l !! p)) in Hshape.
    change (List.map shape final !! p) with ((shape <$> final) !! p) in Hshape.
    change (List.map shape types !! p) with ((shape <$> types) !! p) in Hshape.
    rewrite !list_lookup_fmap, Ht, Ht' in Hshape.
    change (Some (shape t') = Some (shape (Class c))) in Hshape. congruence. }
  rewrite Ht'. f_equal.
  destruct t' as [e'|c']; [discriminate|].
  unfold shape, skeleton in Hsh. simpl in Hsh.
  injection Hsh as Hid Hname Hkeys.
  destruct c' as [[i' n'] ms'], c as [[i n] ms]. simpl in *. subst i' n'.
  do 2 f_equal. apply list_eq. intros j.
  assert (Hmlen : length ms' = length ms).
  { apply (f_equal (@length _)) in Hkeys. unfold QMap_keys in Hkeys.
    now rewrite !List.length_map in Hkeys. }
  destruct (ms !! j) as [[key v]|] eqn:Hj;
    [|apply lookup_ge_None; apply lookup_ge_None in Hj; lia].
  assert (Hp : p ∈ seq 0 (length parsed)).
  { apply elem_of_seq. apply lookup_lt_Some in Ht. lia. }
  destruct (Hresolved p j Hp key
              (exported_member key (ExportContext_toExportValue context v)))
    as (reg & Hreg & Hval).
  - unfold member_at. rewrite Hparsed. simpl.
    change (List.map ?f ms !! j) with ((f <$> ms) !! j).
    now rewrite list_lookup_fmap, Hj.
  - unfold member_at in Hval. rewrite Ht' in Hval. simpl in Hval.
    rewrite Hval, resolve_exported_member. do 2 f_equal.
    apply (Hhost reg (mkClass (mkBase i n) ms) key v).
    + now rewrite Hreg.
    + apply list_elem_of_In. eapply list_elem_of_lookup_2, Ht.
    + apply list_elem_of_In. eapply list_elem_of_lookup_2, Hj.
Qed.

End RegistryRoundTrip.

Lemma PropertyTypes_loadFrom_records_of_witness :
  fst (PropertyTypes_loadFrom plain_toInt plain_resolve
         (records_of plain_toExportValue
            [ Enum (mkEnum (mkBase 1 "Dir") StringValue ["N"; "E"]%string false);
              Class (mkClass (mkBase 2 "Point")
                       [("x"%string, VInt 0); ("y"%string, VInt 0)]) ]
            empty_context)
         EmptyString ([], 0%Z))
  = [ Enum (mkEnum (mkBase 1 "Dir") StringValue ["N"; "E"]%string false);
      Class (mkClass (mkBase 2 "Point") [("x"%string, VInt 0); ("y"%string, VInt 0)]) ].
Proof.
  apply PropertyTypes_loadFrom_records_of.
  - repeat constructor.
  - intros reg c key v _ _ _. reflexivity.
Defined.

(** * loadFrom: what the registry holds after a load *)

(** The entry that a lookup by key returns is the first one with the key. *)
Lemma QMap_value_first (m : QVariantMap) (k : string) :
  QMap_contains m k = true ->
  exists j, m !! j = Some (k, QMap_value m k)
            /\ forall j' kv, j' < j -> m !! j' = Some kv -> fst kv <> k.
Proof.
  induction m as [|[k0 w] m IH]; simpl; [discriminate|].
  destruct (String.eqb_spec k0 k) as [->|Hne]; simpl.
  - intros _. exists 0. split; [reflexivity|]. intros j' kv Hj'. lia.
  - intros H. destruct (IH H) as (j & Hj & Hfirst). exists (S j). split; [exact Hj|].
    intros [|j'] kv Hlt Hkv; simpl in Hkv.
    + injection Hkv as <-. exact Hne.
    + apply (Hfirst j' kv); [lia|exact Hkv].
Qed.

Lemma QMap_value_by_first (m : QVariantMap) (k : string) (v : QVariant) (j : nat) :
  m !! j = Some (k, v) ->
  (forall j' kv, j' < j -> m !! j' = Some kv -> fst kv <> k) ->
  QMap_value m k = v.
Proof.
  revert j. induction m as [|[k0 w] m IH]; intros j Hj Hfirst; [destruct j; discriminate|].
  destruct j as [|j]; simpl in Hj.
  - injection Hj as -> ->. simpl. now rewrite String.eqb_refl.
  - simpl. destruct (String.eqb_spec k0 k) as [->|Hne].
    + exfalso. apply (Hfirst 0 (k, w)); [lia|reflexivity|reflexivity].
    + apply (IH j Hj). intros j' kv Hlt Hkv. apply (Hfirst (S j') kv); [lia|exact Hkv].
Qed.

Lemma QMap_contains_by_keys (m m' : QVariantMap) (k : string) :
  QMap_keys m = QMap_keys m' -> QMap_contains m k = QMap_contains m' k.
Proof.
  intros Hkeys. pose proof (QMap_contains_keys m k) as H.
  pose proof (QMap_contains_keys m' k) as H'. rewrite Hkeys in H.
  destruct (QMap_contains m k), (QMap_contains m' k); try reflexivity.
  - symmetry. apply H', H. reflexivity.
  - apply H, H'. reflexivity.
Qed.

(** A lookup by a key finds the first owned type with the key; it is the type
    at a given position exactly when no earlier position carries the key. *)
Lemma list_find_located (key : PropertyType -> Prop) `{!forall t, Decision (key t)}
    (rkey : QVariant -> Prop) (final : PropertyTypes) (valid : list QVariant) :
  (forall q, (exists t, final !! q = Some t /\ key t)
             <-> (exists r, valid !! q = Some r /\ rkey r)) ->
  forall p r, valid !! p = Some r -> rkey r ->
    exists q t,
      list_find key final = Some (q, t)
      /\ final !! q = Some t /\ q <= p /\ key t
      /\ (q = p <-> forall q' r', q' < p -> valid !! q' = Some r' -> ~ rkey r').
Proof.
  intros Hpos p r Hp Hr.
  destruct (proj2 (Hpos p)) as (t & Ht & Hkey); [eauto|].
  destruct (list_find_first key final p t Ht Hkey) as (q & t' & Hfind & Hle & Hq & Hkey').
  exists q, t'. split; [exact Hfind|]. split; [exact Hq|]. split; [exact Hle|].
  split; [exact Hkey'|].
  apply list_find_Some in Hfind. destruct Hfind as (_ & _ & Hfirst). split.
  - intros -> q' r' Hlt Hq' Hr'.
    destruct (proj2 (Hpos q')) as (t'' & Ht'' & Hkey''); [eauto|].
    exact (Hfirst q' t'' Ht'' Hlt Hkey'').
  - intros Hnone. destruct (Nat.eq_dec q p) as [|Hne]; [assumption|].
    destruct (proj1 (Hpos q)) as (r' & Hr' & Hrkey); [eauto|].
    destruct (Hnone q r' ltac:(lia) Hr' Hrkey).
Qed.

Section LoadFrom.

Variable QString_toInt : string -> Z.
Variable ExportContext_toPropertyValue_export : ExportContext -> ExportValue -> QVariant.

Local Abbreviation loadFrom_ :=
  (PropertyTypes_loadFrom QString_toInt ExportContext_toPropertyValue_export).

(** The type the first phase holds at the position of a valid record is what
    the factory makes of that record. *)
Lemma parsed_lookup (list : QVariantList) (p : nat) (r : QVariant) :
  List.filter record_valid list !! p = Some r ->
  omap (parse_record QString_toInt) list !! p = parse_record QString_toInt r.
Proof.
  revert p. induction list as [|a list IH]; intros p Hp; [destruct p; discriminate|].
  change (omap (parse_record QString_toInt) (a :: list))
    with (match parse_record QString_toInt a with
          | Some t => t :: omap (parse_record QString_toInt) list
          | None => omap (parse_record QString_toInt) list
          end).
  pose proof (parse_record_spec QString_toInt a) as Ha. simpl in Hp.
  destruct (parse_record QString_toInt a) as [t|] eqn:Ea.
  - destruct Ha as [Hvalid _]. rewrite Hvalid in Hp.
    destruct p as [|p]; simpl in Hp |- *.
    + injection Hp as <-. now rewrite Ea.
    + now apply IH.
  - rewrite Ha in Hp. now apply IH.
Qed.

(** What the factory reads from the record of an enum: all of its fields. *)
Lemma parse_record_Enum (r : QVariant) :
  record_type r = PT_Enum ->
  parse_record QString_toInt r
  = Some (Enum (mkEnum (mkBase (record_id QString_toInt r) (record_name r))
                  (storageTypeFromString (toString (QMap_value (toMap r) "storageType")))
                  (toStringList (QMap_value (toMap r) "values"))
                  (toBool (QMap_value_or (toMap r) "valuesAsFlags" (VBool false))))).
Proof.
  intros H. unfold parse_record. rewrite createFromVariant_Enum by exact H. reflexivity.
Qed.

Lemma parse_record_Class (r : QVariant) :
  record_type r = PT_Class ->
  parse_record QString_toInt r
  = Some (Class (ClassPropertyType_fromVariant
                   (mkClass (mkBase (record_id QString_toInt r) (record_name r)) [])
                   (toMap r))).
Proof.
  intros H. unfold parse_record. rewrite createFromVariant_Class by exact H. reflexivity.
Qed.

(** C3, amended.  [loadFrom] starts from an empty registry whatever it owned
    before; it then owns, in input order, one type for each valid record, that
    is each record whose type string is "enum", "class" or empty, so that
    records with an unknown type string are absent and the count is the number
    of valid records.  The owned type has the record's id, name and kind; an
    enum has the storage type, names and flags mode the record states, and a
    class has the member names its record states.  [findTypeById] and
    [findTypeByName], given the id or name of a valid record, return the first
    owned type that carries it: the record's own type exactly when no earlier
    valid record has the same id or name (a record that shares them with an
    earlier one is owned but never located).  Every class member is resolved
    by the host only when all valid records are in the registry: the member
    holds what the host made of its raw record (the last one stated under the
    name), and the host was handed a registry with the id, name and kind of
    every owned type, in which the name of every valid record is found, be it
    defined earlier or later in the list. *)
Theorem PropertyTypes_loadFrom_spec (list : QVariantList) (path : string)
    (old : PropertyTypes) (nextId : Z) :
  let valid := List.filter record_valid list in
  let parsed := fst (load_records QString_toInt list [] nextId) in
  let final := fst (loadFrom_ list path (old, nextId)) in
  (forall old', loadFrom_ list path (old', nextId) = loadFrom_ list path (old, nextId))
  /\ List.map skeleton final = List.map (record_skeleton QString_toInt) valid
  /\ length final = length valid
  /\ (forall ty, PropertyTypes_count final ty
                 = length (List.filter (fun r => Type_eqb (record_type r) ty) valid))
  /\ (forall p r, valid !! p = Some r ->
        exists q t,
          PropertyTypes_findTypeById final (record_id QString_toInt r) = Some (q, t)
          /\ final !! q = Some t /\ q <= p
          /\ id (base t) = record_id QString_toInt r
          /\ (q = p <->
              forall q' r', q' < p -> valid !! q' = Some r' ->
                record_id QString_toInt r' <> record_id QString_toInt r))
  /\ (forall p r, valid !! p = Some r ->
        exists q t,
          PropertyTypes_findTypeByName final (record_name r) = Some (q, t)
          /\ final !! q = Some t /\ q <= p
          /\ name (base t) = record_name r
          /\ (q = p <->
              forall q' r', q' < p -> valid !! q' = Some r' ->
                record_name r' <> record_name r))
  /\ (forall p j key v, member_at final p j = Some (key, v) ->
        exists reg raw,
          List.map skeleton reg = List.map skeleton final
          /\ (forall r, In r valid ->
                is_Some (PropertyTypes_findTypeByName reg (record_name r)))
          /\ member_at parsed p j = Some (key, raw)
          /\ v = resolve_member ExportContext_toPropertyValue_export
                   (mkExportContext reg path) raw)
  /\ (forall p r, valid !! p = Some r -> record_type r = PT_Enum ->
        final !! p
        = Some (Enum (mkEnum (mkBase (record_id QString_toInt r) (record_name r))
                        (storageTypeFromString
                           (toString (QMap_value (toMap r) "storageType")))
                        (toStringList (QMap_value (toMap r) "values"))
                        (toBool (QMap_value_or (toMap r) "valuesAsFlags" (VBool false))))))
  /\ (forall p r, valid !! p = Some r -> record_type r = PT_Class ->
        let membersList := toList (QMap_value (toMap r) "members") in
        exists c,
          final !! p = Some (Class c)
          /\ class_base c = mkBase (record_id QString_toInt r) (record_name r)
          /\ (forall k, QMap_contains (members c) k
                        = existsb (fun m => String.eqb (member_name m) k) membersList)
          /\ (forall l1 m l2, membersList = l1 ++ m :: l2 ->
                (forall m', In m' l2 -> member_name m' <> member_name m) ->
                exists reg,
                  List.map skeleton reg = List.map skeleton final
                  /\ (forall r', In r' valid ->
                        is_Some (PropertyTypes_findTypeByName reg (record_name r')))
                  /\ QMap_value (members c) (member_name m)
                     = resolve_member ExportContext_toPropertyValue_export
                         (mkExportContext reg path) (VMap (toMap m)))).
Proof.
  intros valid parsed final.
  assert (Hparsed : parsed = omap (parse_record QString_toInt) list)
    by (subst parsed; now rewrite load_records_spec).
  assert (Hfinal : final
            = List.fold_left
                (resolveDependencies ExportContext_toPropertyValue_export path)
                (seq 0 (length parsed)) parsed).
  { subst final parsed. unfold PropertyTypes_loadFrom, PropertyTypes_clear.
    now destruct (load_records QString_toInt list [] nextId). }
  destruct (resolve_all_spec ExportContext_toPropertyValue_export path
              (seq 0 (length parsed)) parsed (NoDup_seq _ _))
    as (Hshape & _ & Hresolved).
  rewrite <- Hfinal in Hshape, Hresolved.
  assert (Hskel : List.map skeleton final
                  = List.map (record_skeleton QString_toInt) valid).
  { rewrite (shape_skeleton _ _ Hshape), Hparsed. apply parsed_skeletons. }
  assert (Hat : forall p r, valid !! p = Some r ->
            exists t, final !! p = Some t
                      /\ skeleton t = record_skeleton QString_toInt r).
  { intros p r Hp. apply (skeleton_lookup final _ p _ Hskel).
    rewrite map_lookup, Hp. reflexivity. }
  assert (Hback : forall q t, final !! q = Some t ->
            exists r, valid !! q = Some r
                      /\ skeleton t = record_skeleton QString_toInt r).
  { intros q t Hq.
    assert (Hs : List.map (record_skeleton QString_toInt) valid !! q = Some (skeleton t))
      by (rewrite <- Hskel, map_lookup, Hq; reflexivity).
    rewrite map_lookup in Hs. destruct (valid !! q) as [r|]; [|discriminate].
    exists r. split; [reflexivity|]. simpl in Hs. congruence. }
  assert (Hbyname : forall p r, valid !! p = Some r ->
            exists q t,
              PropertyTypes_findTypeByName final (record_name r) = Some (q, t)
              /\ final !! q = Some t /\ q <= p
              /\ name (base t) = record_name r
              /\ (q = p <->
                  forall q' r', q' < p -> valid !! q' = Some r' ->
                    record_name r' <> record_name r)).
  { intros p r Hp.
    refine (list_find_located (fun t => name (base t) = record_name r)
              (fun r' => record_name r' = record_name r) final valid _ p r Hp eq_refl).
    intros q. split.
    - intros (t & Hq & Hkey). destruct (Hback q t Hq) as (r' & Hr' & Hs).
      exists r'. split; [exact Hr'|]. rewrite <- Hkey.
      unfold skeleton, record_skeleton in Hs. now injection Hs.
    - intros (r' & Hr' & Hkey). destruct (Hat q r' Hr') as (t & Hq & Hs).
      exists t. split; [exact Hq|]. rewrite <- Hkey.
      unfold skeleton, record_skeleton in Hs. now injection Hs. }
  assert (Hreg_ok : forall reg, List.map shape reg = List.map shape parsed ->
            List.map skeleton reg = List.map skeleton final
            /\ forall r, In r valid ->
                 is_Some (PropertyTypes_findTypeByName reg (record_name r))).
  { intros reg Hreg.
    assert (Hsk : List.map skeleton reg = List.map skeleton final)
      by (rewrite (shape_skeleton _ _ Hreg); symmetry; now apply shape_skeleton).
    split; [exact Hsk|].
    intros r Hr. apply list_elem_of_In, list_elem_of_lookup_1 in Hr.
    destruct Hr as [p' Hp'].
    destruct (Hbyname p' r Hp') as (q & t & Hfind & _).
    pose proof (findTypeByName_skeleton reg final (record_name r) Hsk) as Hsame.
    rewrite Hfind in Hsame.
    destruct (PropertyTypes_findTypeByName reg (record_name r)); [eauto|discriminate]. }
  assert (Hparsed_at : forall p r, valid !! p = Some r ->
            parsed !! p = parse_record QString_toInt r).
  { intros p r Hp. rewrite Hparsed. now apply parsed_lookup. }
  split; [reflexivity|]. split; [exact Hskel|].
  split; [rewrite <- (List.length_map skeleton), Hskel; apply List.length_map|].
  split; [|split; [|split; [exact Hbyname|split; [|split]]]].
  - intros ty. rewrite (count_by_skeleton final _ ty Hskel).
    apply (filter_map_length (record_skeleton QString_toInt)
             (fun s => Type_eqb (snd s) ty)).
  - intros p r Hp.
    refine (list_find_located (fun t => id (base t) = record_id QString_toInt r)
              (fun r' => record_id QString_toInt r' = record_id QString_toInt r)
              final valid _ p r Hp eq_refl).
    intros q. split.
    + intros (t & Hq & Hkey). destruct (Hback q t Hq) as (r' & Hr' & Hs).
      exists r'. split; [exact Hr'|]. rewrite <- Hkey.
      unfold skeleton, record_skeleton in Hs. now injection Hs.
    + intros (r' & Hr' & Hkey). destruct (Hat q r' Hr') as (t & Hq & Hs).
      exists t. split; [exact Hq|]. rewrite <- Hkey.
      unfold skeleton, record_skeleton in Hs. now injection Hs.
  - intros p j key v Hv.
    destruct (shape_member_at final parsed p j key v Hshape Hv) as [raw Hraw].
    assert (Hp : p ∈ seq 0 (length parsed)).
    { apply elem_of_seq. unfold member_at in Hraw.
      destruct (parsed !! p) eqn:E; [|discriminate].
      apply lookup_lt_Some in E. lia. }
    destruct (Hresolved p j Hp key raw Hraw) as (reg & Hreg & Hval).
    destruct (Hreg_ok reg Hreg) as [Hsk Hnames].
    exists reg, raw. split; [exact Hsk|]. split; [exact Hnames|].
    split; [exact Hraw|]. rewrite Hval in Hv. now injection Hv.
  - intros p r Hp Hty. rewrite Hfinal. apply resolve_all_lookup_Enum.
    rewrite (Hparsed_at p r Hp). now apply parse_record_Enum.
  - intros p r Hp Hty membersList.
    pose proof (Hparsed_at p r Hp) as Hp0. rewrite (parse_record_Class r Hty) in Hp0.
    set (c0 := ClassPropertyType_fromVariant
                 (mkClass (mkBase (record_id QString_toInt r) (record_name r)) [])
                 (toMap r)) in Hp0.
    assert (Hc0 : members c0
                  = List.fold_left
                      (fun members member =>
                         QMap_insert members (member_name member) (VMap (toMap member)))
                      membersList [])
      by reflexivity.
    assert (Hp1 : p ∈ seq 0 (length parsed))
      by (apply elem_of_seq; apply lookup_lt_Some in Hp0; lia).
    destruct (Hat p r Hp) as (t & Ht & _).
    assert (Hsh : shape t = shape (Class c0)).
    { apply (f_equal (fun l => l !! p)) in Hshape.
      rewrite !map_lookup, Ht, Hp0 in Hshape. simpl in Hshape. congruence. }
    destruct t as [e|c]; [discriminate|].
    unfold shape, skeleton in Hsh. simpl in Hsh. injection Hsh as Hid Hname Hkeys.
    change (QMap_keys (members c) = QMap_keys (members c0)) in Hkeys.
    exists c. split; [exact Ht|]. split; [|split].
    + destruct c as [[i n] ms]. simpl in Hid, Hname. now subst.
    + intros k. rewrite (QMap_contains_by_keys _ _ k Hkeys), Hc0, members_fold_contains.
      apply orb_false_r.
    + intros l1 m l2 Hsplit Hlast.
      assert (Hvalue : QMap_value (members c0) (member_name m) = VMap (toMap m))
        by (rewrite Hc0, Hsplit; now apply members_fold_last).
      assert (Hin : QMap_contains (members c0) (member_name m) = true).
      { rewrite Hc0, members_fold_contains, Hsplit, List.existsb_app. simpl.
        rewrite String.eqb_refl. now rewrite orb_true_r. }
      destruct (QMap_value_first _ _ Hin) as (j & Hj & Hfirst). rewrite Hvalue in Hj.
      destruct (Hresolved p j Hp1 (member_name m) (VMap (toMap m))) as (reg & Hreg & Hval).
      { unfold member_at. now rewrite Hp0. }
      destruct (Hreg_ok reg Hreg) as [Hsk Hnames].
      exists reg. split; [exact Hsk|]. split; [exact Hnames|].
      unfold member_at in Hval. rewrite Ht in Hval.
      apply (QMap_value_by_first _ _ _ j Hval).
      intros j' kv Hlt Hkv.
      assert (Hk' : QMap_keys (members c0) !! j' = Some (fst kv)).
      { rewrite <- Hkeys. unfold QMap_keys. rewrite map_lookup, Hkv. reflexivity. }
      unfold QMap_keys in Hk'. rewrite map_lookup in Hk'.
      destruct (members c0 !! j') as [kv0|] eqn:E0; [|discriminate].
      injection Hk' as <-. exact (Hfirst j' kv0 Hlt E0).
Qed.

End LoadFrom.

Lemma PropertyTypes_loadFrom_spec_witness :
  exists t,
    PropertyTypes_findTypeByName
      (fst (PropertyTypes_loadFrom plain_toInt plain_resolve forward_reference
              EmptyString (registry_chain, 0%Z)))
      "B"
    = Some (1, t).
Proof.
  destruct (PropertyTypes_loadFrom_spec plain_toInt plain_resolve forward_reference
              EmptyString registry_chain 0)
    as (_ & _ & _ & _ & _ & H & _).
  destruct (H 1 (VMap [("id"%string, VInt 2); ("members"%string, VList []);
                       ("name"%string, VString "B"); ("type"%string, VString "class")])
              eq_refl)
    as (q & t & Hfind & _ & _ & _ & Hq).
  assert (Hown : q = 1).
  { apply Hq. intros [|q'] r' Hlt Hr'; [|lia].
    simpl in Hr'. injection Hr' as <-. discriminate. }
  exists t. rewrite <- Hown. exact Hfind.
Defined.

(** C3 as stated fails: the lookups do not locate every successfully parsed
    record.  Of the two valid records of [shared_id_and_name] both are owned,
    the enum and then the class; [findTypeById] on their id and
    [findTypeByName] on their name return the enum, the first of the two, and
    no lookup returns the class. *)
Lemma PropertyTypes_loadFrom_shared_id_not_located :
  exists e c,
    fst (PropertyTypes_loadFrom plain_toInt plain_resolve shared_id_and_name
           EmptyString ([], 0%Z))
    = [Enum e; Class c]
    /\ id (class_base c) = 1%Z /\ name (class_base c) = "T"%string
    /\ PropertyTypes_findTypeById [Enum e; Class c] 1 = Some (0, Enum e)
    /\ PropertyTypes_findTypeByName [Enum e; Class c] "T" = Some (0, Enum e)
    /\ (forall typeId q t,
          PropertyTypes_findTypeById [Enum e; Class c] typeId = Some (q, t) -> q = 0)
    /\ (forall n q t,
          PropertyTypes_findTypeByName [Enum e; Class c] n = Some (q, t) -> q = 0).
Proof.
  eexists. eexists. split; [reflexivity|]. simpl.
  split; [reflexivity|]. split; [reflexivity|].
  split; [reflexivity|]. split; [reflexivity|]. split.
  - intros typeId q t. unfold PropertyTypes_findTypeById. simpl.
    destruct (decide (1%Z = typeId)); simpl; [now intros [= <- _]|discriminate].
  - intros n q t. unfold PropertyTypes_findTypeByName. simpl.
    destruct (decide ("T"%string = n)); simpl; [now intros [= <- _]|discriminate].
Qed.
